(** * Word Guesser: the round engine of [gameService.ts]

    A shallow embedding of the game service (role assignment, clue and vote
    submission, vote resolution, white-hat guessing, win conditions and round
    advancement) together with the collaborators it calls: the Prisma tables,
    the Redis keys and the JavaScript runtime ([Math.random], [Array.sort],
    [String.trim], [String.toLowerCase], plain objects used as
    dictionaries), and with the two routes that write to its tables behind
    its back: [DELETE /words/:id] and [DELETE /rooms/:id/leave].

    Every service function is [async] and awaits its collaborators one after
    the other; a call is modelled as a computation in the monad [M], which
    threads the world (database, Redis, entropy, clock) and may throw.  An
    exception does not undo the writes made before it. *)

From Stdlib Require Import NArith.
From stdpp Require Import gmap strings list fin_maps.

Set Default Proof Using "Type".

(** ** Identifiers and text *)

(** Record ids, room codes and messages are only ever compared or stored:
    they are plain strings.  Words, guesses and clue contents are JavaScript
    strings whose characters matter: sequences of UTF-16 code units. *)
Abbreviation Id := string (only parsing).
Abbreviation Text := (list N) (only parsing).

(** ** constants.ts *)

Module GAME_CONFIG.
Definition MIN_PLAYERS : nat := 4.
Definition MAX_PLAYERS : nat := 8.
Definition WHITE_HAT_MIN_PLAYERS : nat := 6.
Definition HINT_TIME_SECONDS : N := 60.
Definition VOTE_TIME_SECONDS : N := 60.
Definition ROOM_CODE_LENGTH : nat := 6.
Definition MAX_ACTIVE_ROOMS : nat := 100.
Definition ROOM_STATE_TTL_SECONDS : N := 86400.
End GAME_CONFIG.

(** ** Enumerations *)

Inductive PlayerRole := CIVILIAN | BLACK_HAT | WHITE_HAT.

Global Instance PlayerRole_eq_dec : EqDecision PlayerRole.
Proof. solve_decision. Defined.

(** The phases a [GameState] or a [Round] row goes through. *)
Inductive Phase := HINTING | VOTING | GUESSING | RESULT.

Global Instance Phase_eq_dec : EqDecision Phase.
Proof. solve_decision. Defined.

Inductive RoomStatus := WAITING | IN_PROGRESS | FINISHED.

Global Instance RoomStatus_eq_dec : EqDecision RoomStatus.
Proof. solve_decision. Defined.

(** The winner tag ['CIVILIAN' | 'BLACK_HAT' | 'WHITE_HAT'] of the results. *)
Abbreviation Winner := PlayerRole (only parsing).

(** ** types.ts *)

Record ClueRecord := {
  clue_playerId : Id;
  clue_displayName : Text;
  clue_content : Text;
  clue_createdAt : N;
}.

Record GameState := {
  roomId : Id;
  roundNumber : nat;
  phase : Phase;
  turnOrder : list Id;
  currentTurnIndex : nat;
  clues : list ClueRecord;
  votes : gmap string string;
  eliminatedPlayers : list Id;
  wordPairId : Id;
}.

Record RoomPlayer := {
  rp_id : Id;
  rp_userId : Id;
  rp_displayName : Text;
  rp_avatar : option Text;
  rp_isActive : bool;
  rp_isHost : bool;
  rp_role : option PlayerRole;
}.

Record RoomState := {
  rs_id : Id;
  rs_code : Id;
  rs_hostId : Id;
  rs_status : RoomStatus;
  rs_maxPlayers : nat;
  rs_players : list RoomPlayer;
}.

(** ** The Prisma tables

    The schema file is not part of the sources; the rows carry the columns
    the service reads and writes.  A player row is shown joined with its
    user ([include: { user: true }]).  The [players] table is kept in
    [joinedAt] order, the order [orderBy: { joinedAt: 'asc' }] returns.
    Rows of the history tables get their ids from a counter. *)

Record Room := {
  room_id : Id;
  room_code : Id;
  room_hostId : Id;
  room_status : RoomStatus;
  room_maxPlayers : nat;
}.

Record Player := {
  player_id : Id;
  player_userId : Id;
  player_roomId : Id;
  player_isActive : bool;
  player_role : option PlayerRole;
  player_displayName : Text;
  player_avatar : option Text;
}.

Record WordPair := {
  wp_id : Id;
  wp_wordA : Text;
  wp_wordB : Text;
  wp_categoryId : Id;
  wp_isActive : bool;
}.

Record Round := {
  round_id : nat;
  round_roomId : Id;
  round_roundNumber : nat;
  round_wordPairId : Id;
  round_phase : Phase;
  round_endedAt : option N;
}.

Record ClueRow := {
  cr_roundId : nat;
  cr_playerId : Id;
  cr_content : Text;
}.

Record VoteRow := {
  vr_roundId : nat;
  vr_voterId : Id;
  vr_targetId : Id;
}.

Record Database := {
  rooms : list Room;
  players : list Player;
  wordPairs : list WordPair;
  rounds : list Round;
  clueRows : list ClueRow;
  voteRows : list VoteRow;
  nextRowId : nat;
}.

(** ** The Redis keys

    [room:<id>] and [game:<id>] hold the JSON of a [RoomState] and of a
    [GameState]; serialising and parsing again gives the value back (the
    dates of the clues are revived), so the keys hold the values.  The
    expiry of a key is not modelled. *)

Record Redis := {
  roomKeys : gmap string RoomState;
  gameKeys : gmap string GameState;
  roomCodes : gmap string string;
  activeRooms : gmap string N;
}.

(** ** The world *)

(** [entropy] holds the outcomes of the coming calls of [Math.random],
    [clock] what [new Date()] reads. *)
Record World := {
  db : Database;
  redis : Redis;
  entropy : list N;
  clock : N;
}.

Definition with_db (d : Database) (w : World) : World :=
  {| db := d; redis := redis w; entropy := entropy w; clock := clock w |}.

Definition with_redis (r : Redis) (w : World) : World :=
  {| db := db w; redis := r; entropy := entropy w; clock := clock w |}.

Definition with_entropy (e : list N) (w : World) : World :=
  {| db := db w; redis := redis w; entropy := e; clock := clock w |}.

(** ** The monad of service calls *)

Inductive Outcome (A : Type) :=
  | Returned (a : A)
  | Thrown (message : string).
Arguments Returned {A} a.
Arguments Thrown {A} message.

Definition M (A : Type) : Type := World → Outcome A * World.

Global Instance M_ret : MRet M := λ A a w, (Returned a, w).

Global Instance M_bind : MBind M := λ A B f m w,
  match m w with
  | (Returned a, w') => f a w'
  | (Thrown e, w') => (Thrown e, w')
  end.

Definition throw {A} (message : string) : M A := λ w, (Thrown message, w).
Definition gets {A} (f : World → A) : M A := λ w, (Returned (f w), w).
Definition modify (f : World → World) : M unit := λ w, (Returned tt, f w).

(** The world a call leaves behind and what it hands back. *)
Definition exec {A} (m : M A) (w : World) : World := snd (m w).
Definition eval {A} (m : M A) (w : World) : Outcome A := fst (m w).

(** ** The JavaScript runtime *)

Module Js.

(** [Math.random()] returns a number in [0, 1).  An outcome is modelled as
    the dyadic fraction [k / 2^53] with [k < 2^53], the numerator being the
    next element of [entropy] reduced below [2^53] (an exhausted source
    keeps answering 0). *)
Definition RANDOM_DENOMINATOR : N := 2 ^ 53.

Definition Math_random : M N := λ w,
  match entropy w with
  | [] => (Returned 0%N, w)
  | r :: rest => (Returned (r mod RANDOM_DENOMINATOR)%N, with_entropy rest w)
  end.

(** The product of two numbers is the exact product rounded to the nearest
    number with 53 significant bits, a tie going to the one whose last bit
    is 0.  [round53 p] is the numerator [p] of a fraction [p / 2^53] so
    rounded: a numerator of more than 53 bits loses its [s] lowest bits. *)
Definition round53 (p : N) : N :=
  if (N.size p <=? 53)%N then p
  else
    let s := (N.size p - 53)%N in
    let q := (p / 2 ^ s)%N in
    let r := (p mod 2 ^ s)%N in
    let half := (2 ^ (s - 1))%N in
    if (r <? half)%N then (q * 2 ^ s)%N
    else if (half <? r)%N then ((q + 1) * 2 ^ s)%N
    else if N.even q then (q * 2 ^ s)%N
    else ((q + 1) * 2 ^ s)%N.

(** [Math.floor(u * n)] for an outcome [u] of [Math.random] and a count [n]
    (a whole number below [2^53], which is a number as it stands): the
    product is rounded, then floored. *)
Definition floor_times (u : N) (n : nat) : nat :=
  N.to_nat (round53 (u * N.of_nat n) / RANDOM_DENOMINATOR).

(** The comparator [() => Math.random() - 0.5]: the sign of [u - 1/2]; the
    difference of the two numbers is exact. *)
Definition random_comparator : M comparison :=
  u ← Math_random;
  mret (N.compare (2 * u) RANDOM_DENOMINATOR).

(** [[a[i], a[j]] = [a[j], a[i]]].  Both indices are in range wherever the
    service swaps (lemma [shuffle_swaps_in_range]); the array is left alone
    otherwise. *)
Definition swap {A} (i j : nat) (a : list A) : list A :=
  match a !! i, a !! j with
  | Some x, Some y => <[j:=x]> (<[i:=y]> a)
  | _, _ => a
  end.

(** [Array.prototype.sort] with a comparator that ignores its arguments and
    answers at random.  ECMAScript leaves the order produced with such a
    comparator to the implementation; the array is sorted here by insertion,
    one call of the comparator per comparison, a negative or zero answer
    keeping the new element in front. *)
Fixpoint insert_by {A} (cmp : M comparison) (x : A) (sorted : list A) : M (list A) :=
  match sorted with
  | [] => mret [x]
  | y :: rest =>
      c ← cmp;
      match c with
      | Gt => tail ← insert_by cmp x rest; mret (y :: tail)
      | _ => mret (x :: y :: rest)
      end
  end.

Fixpoint sort_by {A} (cmp : M comparison) (a : list A) : M (list A) :=
  match a with
  | [] => mret []
  | x :: rest => sorted ← sort_by cmp rest; insert_by cmp x sorted
  end.

(** *** Plain objects used as dictionaries

    An object literal [{}] and an object that [JSON.parse] returns have
    [Object.prototype] as their prototype.  A dictionary is given by its
    own properties, which are what [Object.keys], [Object.values],
    [Object.entries] and [JSON.stringify] see.  [o[k]] reads the own
    property [k] when there is one, and else the member of that name that
    the object inherits, which is a function or, for [__proto__], the
    prototype itself.  [o[k] = v] writes an own property; only, for want of
    an own property of that name, [__proto__] is the inherited accessor,
    whose setter ignores a value that is neither an object nor [null]: the
    values written here are strings and numbers. *)
Definition Object_prototype : list string :=
  ["constructor"; "__defineGetter__"; "__defineSetter__"; "hasOwnProperty";
   "__lookupGetter__"; "__lookupSetter__"; "isPrototypeOf"; "propertyIsEnumerable";
   "toString"; "valueOf"; "__proto__"; "toLocaleString"].

Inductive Member (V : Type) :=
  | own (v : V)
  | inherited
  | undefined.
Arguments own {V} v.
Arguments inherited {V}.
Arguments undefined {V}.

Definition get {V} (o : gmap string V) (k : string) : Member V :=
  match o !! k with
  | Some v => own v
  | None => if bool_decide (k ∈ Object_prototype) then inherited else undefined
  end.

Definition put {V} (o : gmap string V) (k : string) (v : V) : gmap string V :=
  match o !! k with
  | Some _ => <[k := v]> o
  | None => if bool_decide (k = "__proto__") then o else <[k := v]> o
  end.

(** White space and line terminators, the code units [String.prototype.trim]
    strips. *)
Definition isWhiteSpace (c : N) : bool :=
  bool_decide (c ∈ [0x09; 0x0A; 0x0B; 0x0C; 0x0D; 0x20; 0xA0; 0x1680;
                    0x2028; 0x2029; 0x202F; 0x205F; 0x3000; 0xFEFF]%N)
  || ((0x2000 <=? c) && (c <=? 0x200A))%N.

Fixpoint trimStart (s : Text) : Text :=
  match s with
  | c :: rest => if isWhiteSpace c then trimStart rest else s
  | [] => []
  end.

Definition trimEnd (s : Text) : Text := reverse (trimStart (reverse s)).

Definition trim (s : Text) : Text := trimEnd (trimStart s).

(** [String.prototype.toLowerCase] follows the Unicode case tables, which
    are the runtime's: the service is parametric in it. *)
Class Runtime := { toLowerCase : Text → Text }.

(** The case table restricted to the letters of the Vietnamese alphabet
    (Basic Latin, Latin-1 Supplement, the additions of Latin Extended-A and
    -B and Latin Extended Additional); other code units are left as they
    are.  It serves the worked examples only. *)
Definition vietnamese_lower (c : N) : N :=
  if ((0x41 <=? c) && (c <=? 0x5A))%N then (c + 32)%N
  else if ((0xC0 <=? c) && (c <=? 0xDE) && negb (c =? 0xD7))%N then (c + 32)%N
  else if bool_decide (c ∈ [0x102; 0x110; 0x128; 0x168; 0x1A0; 0x1AF]%N) then (c + 1)%N
  else if ((0x1EA0 <=? c) && (c <=? 0x1EF9) && N.even c)%N then (c + 1)%N
  else c.

Definition vietnamese_runtime : Runtime := {| toLowerCase := map vietnamese_lower |}.

(** [String.prototype.toUpperCase] on the strings that serve as keys (the
    join codes of the rooms).  It follows the Unicode case tables as well. *)
Class Casing := { toUpperCase : string → string }.

(** The case table restricted to Basic Latin, enough for the codes of the
    worked examples. *)
Definition latin_upper (c : Ascii.ascii) : Ascii.ascii :=
  let n := Ascii.nat_of_ascii c in
  if (97 <=? n) && (n <=? 122) then Ascii.ascii_of_nat (n - 32) else c.

Fixpoint latin_upper_string (s : string) : string :=
  match s with
  | EmptyString => EmptyString
  | String c rest => String (latin_upper c) (latin_upper_string rest)
  end.

Definition latin_casing : Casing := {| toUpperCase := latin_upper_string |}.

End Js.

(** ** The Prisma client

    The queries the service issues.  [update] rejects when no row has the
    id and [findUnique] rejects when it is given no id (the service throws
    on a player that is not found in any case); ids are keys, so an update
    reaches the one row carrying the id. *)

Module Prisma.

Definition P2025 : string := "PrismaClientKnownRequestError P2025".
Definition VALIDATION : string := "PrismaClientValidationError".

Definition modify_db (f : Database → Database) : M unit :=
  modify (λ w, with_db (f (db w)) w).

Definition set_rooms (v : list Room) (d : Database) : Database :=
  {| rooms := v; players := players d; wordPairs := wordPairs d; rounds := rounds d;
     clueRows := clueRows d; voteRows := voteRows d; nextRowId := nextRowId d |}.

Definition set_players (v : list Player) (d : Database) : Database :=
  {| rooms := rooms d; players := v; wordPairs := wordPairs d; rounds := rounds d;
     clueRows := clueRows d; voteRows := voteRows d; nextRowId := nextRowId d |}.

Definition set_wordPairs (v : list WordPair) (d : Database) : Database :=
  {| rooms := rooms d; players := players d; wordPairs := v; rounds := rounds d;
     clueRows := clueRows d; voteRows := voteRows d; nextRowId := nextRowId d |}.

Definition set_rounds (v : list Round) (d : Database) : Database :=
  {| rooms := rooms d; players := players d; wordPairs := wordPairs d; rounds := v;
     clueRows := clueRows d; voteRows := voteRows d; nextRowId := nextRowId d |}.

(** *** room *)

Definition room_findUnique (id : Id) : M (option Room) :=
  gets (λ w, find (λ r, bool_decide (room_id r = id)) (rooms (db w))).

Definition room_set_status (s : RoomStatus) (r : Room) : Room :=
  {| room_id := room_id r; room_code := room_code r; room_hostId := room_hostId r;
     room_status := s; room_maxPlayers := room_maxPlayers r |}.

Definition room_update (id : Id) (f : Room → Room) : M unit :=
  found ← room_findUnique id;
  match found with
  | None => throw P2025
  | Some _ =>
      modify_db (λ d, set_rooms
        (map (λ r, if bool_decide (room_id r = id) then f r else r) (rooms d)) d)
  end.

(** *** player *)

Definition player_findUnique (id : option Id) : M (option Player) :=
  match id with
  | None => throw VALIDATION
  | Some id => gets (λ w, find (λ p, bool_decide (player_id p = id)) (players (db w)))
  end.

(** [findMany({ where: { roomId, isActive: true } })], also the players a
    room includes under [where: { isActive: true }]. *)
Definition player_findMany_active (roomId : Id) : M (list Player) :=
  gets (λ w, filter (λ p, player_roomId p = roomId ∧ player_isActive p = true)
                    (players (db w))).

(** Every player of the room, [orderBy: { joinedAt: 'asc' }]. *)
Definition player_findMany_room (roomId : Id) : M (list Player) :=
  gets (λ w, filter (λ p, player_roomId p = roomId) (players (db w))).

Definition player_set_isActive (b : bool) (p : Player) : Player :=
  {| player_id := player_id p; player_userId := player_userId p;
     player_roomId := player_roomId p; player_isActive := b;
     player_role := player_role p; player_displayName := player_displayName p;
     player_avatar := player_avatar p |}.

(** [data: { role }]: a field that is [undefined] is left as it is. *)
Definition player_set_role (r : option PlayerRole) (p : Player) : Player :=
  match r with
  | None => p
  | Some _ =>
      {| player_id := player_id p; player_userId := player_userId p;
         player_roomId := player_roomId p; player_isActive := player_isActive p;
         player_role := r; player_displayName := player_displayName p;
         player_avatar := player_avatar p |}
  end.

Definition player_update (id : Id) (f : Player → Player) : M unit :=
  found ← player_findUnique (Some id);
  match found with
  | None => throw P2025
  | Some _ =>
      modify_db (λ d, set_players
        (map (λ p, if bool_decide (player_id p = id) then f p else p) (players d)) d)
  end.

(** *** wordPair *)

Definition wordPair_findUnique (id : Id) : M (option WordPair) :=
  gets (λ w, find (λ p, bool_decide (wp_id p = id)) (wordPairs (db w))).

Definition wordPair_active (w : World) : list WordPair :=
  filter (λ p, wp_isActive p = true) (wordPairs (db w)).

Definition wordPair_count_active : M nat :=
  gets (λ w, length (wordPair_active w)).

Definition wordPair_findFirst_active (skip : nat) : M (option WordPair) :=
  gets (λ w, wordPair_active w !! skip).

(** *** round *)

Definition round_findFirst (roomId : Id) (n : nat) : M (option Round) :=
  gets (λ w, find (λ r, bool_decide (round_roomId r = roomId ∧ round_roundNumber r = n))
                  (rounds (db w))).

(** [findFirst({ where: { roomId }, orderBy: { roundNumber: 'desc' } })]. *)
Definition round_findLatest (roomId : Id) : M (option Round) :=
  gets (λ w, foldl (λ best r,
                      if bool_decide (round_roomId r = roomId) then
                        match best with
                        | Some b => if round_roundNumber b <? round_roundNumber r
                                    then Some r else best
                        | None => Some r
                        end
                      else best)
                   None (rounds (db w))).

Definition round_set_phase (ph : Phase) (r : Round) : Round :=
  {| round_id := round_id r; round_roomId := round_roomId r;
     round_roundNumber := round_roundNumber r; round_wordPairId := round_wordPairId r;
     round_phase := ph; round_endedAt := round_endedAt r |}.

Definition round_set_endedAt (t : N) (r : Round) : Round :=
  {| round_id := round_id r; round_roomId := round_roomId r;
     round_roundNumber := round_roundNumber r; round_wordPairId := round_wordPairId r;
     round_phase := round_phase r; round_endedAt := Some t |}.

Definition round_update (id : nat) (f : Round → Round) : M unit :=
  found ← gets (λ w, find (λ r, bool_decide (round_id r = id)) (rounds (db w)));
  match found with
  | None => throw P2025
  | Some _ =>
      modify_db (λ d, set_rounds
        (map (λ r, if bool_decide (round_id r = id) then f r else r) (rounds d)) d)
  end.

Definition round_create (roomId : Id) (n : nat) (wordPairId : Id) (ph : Phase) : M unit :=
  modify_db (λ d,
    {| rooms := rooms d; players := players d; wordPairs := wordPairs d;
       rounds := rounds d ++ [{| round_id := nextRowId d; round_roomId := roomId;
                                 round_roundNumber := n; round_wordPairId := wordPairId;
                                 round_phase := ph; round_endedAt := None |}];
       clueRows := clueRows d; voteRows := voteRows d; nextRowId := S (nextRowId d) |}).

(** *** clue and vote: the match history *)

Definition clue_create (roundId : nat) (playerId : Id) (content : Text) : M unit :=
  modify_db (λ d,
    {| rooms := rooms d; players := players d; wordPairs := wordPairs d; rounds := rounds d;
       clueRows := clueRows d ++ [{| cr_roundId := roundId; cr_playerId := playerId;
                                     cr_content := content |}];
       voteRows := voteRows d; nextRowId := nextRowId d |}).

(** Modelled from the spec: the Prisma schema, which would say whether the
    target of a vote must be a player, is not part of the sources; the
    specification has the engine accept a vote for any string, so the vote
    is recorded whatever its target. *)
Definition vote_create (roundId : nat) (voterId targetId : Id) : M unit :=
  modify_db (λ d,
    {| rooms := rooms d; players := players d; wordPairs := wordPairs d; rounds := rounds d;
       clueRows := clueRows d;
       voteRows := voteRows d ++ [{| vr_roundId := roundId; vr_voterId := voterId;
                                     vr_targetId := targetId |}];
       nextRowId := nextRowId d |}).

End Prisma.

(** ** gameService.ts *)

Module GameService.

(** *** Room state and game state in Redis *)

Definition modify_redis (f : Redis → Redis) : M unit :=
  modify (λ w, with_redis (f (redis w)) w).

Definition set_roomKeys (v : gmap string RoomState) (r : Redis) : Redis :=
  {| roomKeys := v; gameKeys := gameKeys r; roomCodes := roomCodes r;
     activeRooms := activeRooms r |}.

Definition set_gameKeys (v : gmap string GameState) (r : Redis) : Redis :=
  {| roomKeys := roomKeys r; gameKeys := v; roomCodes := roomCodes r;
     activeRooms := activeRooms r |}.

Definition set_activeRooms (v : gmap string N) (r : Redis) : Redis :=
  {| roomKeys := roomKeys r; gameKeys := gameKeys r; roomCodes := roomCodes r;
     activeRooms := v |}.

Definition setRoomState (state : RoomState) : M unit :=
  modify_redis (λ r, set_roomKeys (<[rs_id state := state]> (roomKeys r)) r).

Definition roomPlayer_of (hostId : Id) (p : Player) : RoomPlayer :=
  {| rp_id := player_id p; rp_userId := player_userId p;
     rp_displayName := player_displayName p; rp_avatar := player_avatar p;
     rp_isActive := player_isActive p;
     rp_isHost := bool_decide (player_userId p = hostId);
     rp_role := player_role p |}.

Definition getRoomState (roomId : Id) : M (option RoomState) :=
  raw ← gets (λ w, roomKeys (redis w) !! roomId);
  match raw with
  | Some state => mret (Some state)
  | None =>
      room ← Prisma.room_findUnique roomId;
      match room with
      | None => mret None
      | Some room =>
          ps ← Prisma.player_findMany_room roomId;
          let state :=
            {| rs_id := room_id room; rs_code := room_code room;
               rs_hostId := room_hostId room; rs_status := room_status room;
               rs_maxPlayers := room_maxPlayers room;
               rs_players := map (roomPlayer_of (room_hostId room)) ps |} in
          _ ← (if decide (room_status room ≠ FINISHED)
               then modify_redis (λ r, set_roomKeys (<[roomId := state]> (roomKeys r)) r)
               else mret tt);
          mret (Some state)
      end
  end.

Definition deleteRoomState (roomId : Id) : M unit :=
  _ ← modify_redis (λ r, set_roomKeys (delete roomId (roomKeys r)) r);
  modify_redis (λ r, set_activeRooms (delete roomId (activeRooms r)) r).

Definition getGameState (roomId : Id) : M (option GameState) :=
  gets (λ w, gameKeys (redis w) !! roomId).

Definition setGameState (state : GameState) : M unit :=
  modify_redis (λ r, set_gameKeys (<[roomId state := state]> (gameKeys r)) r).

Definition deleteGameState (roomId : Id) : M unit :=
  modify_redis (λ r, set_gameKeys (delete roomId (gameKeys r)) r).

(** *** Assignments to the fields of a game state *)

Definition set_roundNumber (v : nat) (s : GameState) : GameState :=
  {| roomId := roomId s; roundNumber := v; phase := phase s; turnOrder := turnOrder s;
     currentTurnIndex := currentTurnIndex s; clues := clues s; votes := votes s;
     eliminatedPlayers := eliminatedPlayers s; wordPairId := wordPairId s |}.

Definition set_phase (v : Phase) (s : GameState) : GameState :=
  {| roomId := roomId s; roundNumber := roundNumber s; phase := v; turnOrder := turnOrder s;
     currentTurnIndex := currentTurnIndex s; clues := clues s; votes := votes s;
     eliminatedPlayers := eliminatedPlayers s; wordPairId := wordPairId s |}.

Definition set_turnOrder (v : list Id) (s : GameState) : GameState :=
  {| roomId := roomId s; roundNumber := roundNumber s; phase := phase s; turnOrder := v;
     currentTurnIndex := currentTurnIndex s; clues := clues s; votes := votes s;
     eliminatedPlayers := eliminatedPlayers s; wordPairId := wordPairId s |}.

Definition set_currentTurnIndex (v : nat) (s : GameState) : GameState :=
  {| roomId := roomId s; roundNumber := roundNumber s; phase := phase s;
     turnOrder := turnOrder s; currentTurnIndex := v; clues := clues s; votes := votes s;
     eliminatedPlayers := eliminatedPlayers s; wordPairId := wordPairId s |}.

Definition set_clues (v : list ClueRecord) (s : GameState) : GameState :=
  {| roomId := roomId s; roundNumber := roundNumber s; phase := phase s;
     turnOrder := turnOrder s; currentTurnIndex := currentTurnIndex s; clues := v;
     votes := votes s; eliminatedPlayers := eliminatedPlayers s;
     wordPairId := wordPairId s |}.

Definition set_votes (v : gmap string string) (s : GameState) : GameState :=
  {| roomId := roomId s; roundNumber := roundNumber s; phase := phase s;
     turnOrder := turnOrder s; currentTurnIndex := currentTurnIndex s; clues := clues s;
     votes := v; eliminatedPlayers := eliminatedPlayers s; wordPairId := wordPairId s |}.

Definition set_eliminatedPlayers (v : list Id) (s : GameState) : GameState :=
  {| roomId := roomId s; roundNumber := roundNumber s; phase := phase s;
     turnOrder := turnOrder s; currentTurnIndex := currentTurnIndex s; clues := clues s;
     votes := votes s; eliminatedPlayers := v; wordPairId := wordPairId s |}.

Definition set_wordPairId (v : Id) (s : GameState) : GameState :=
  {| roomId := roomId s; roundNumber := roundNumber s; phase := phase s;
     turnOrder := turnOrder s; currentTurnIndex := currentTurnIndex s; clues := clues s;
     votes := votes s; eliminatedPlayers := eliminatedPlayers s; wordPairId := v |}.

(** *** genaiService.ts: the word-pair source *)

Definition getRandomWordPair : M (option WordPair) :=
  count ← Prisma.wordPair_count_active;
  if decide (count = 0) then mret None
  else
    u ← Js.Math_random;
    let skip := Js.floor_times u count in
    Prisma.wordPair_findFirst_active skip.

(** *** Role assignment *)

(** The shuffle loop [for (let i = roles.length - 1; i > 0; i--)]. *)
Fixpoint shuffle (i : nat) (roles : list PlayerRole) : M (list PlayerRole) :=
  match i with
  | 0 => mret roles
  | S i' =>
      u ← Js.Math_random;
      let j := Js.floor_times u (i + 1) in
      shuffle i' (Js.swap i j roles)
  end.

(** [playerCount - roles.length] is negative only for [playerCount = 0],
    where the loop does not run: the truncated subtraction of [nat] gives
    the number of rounds of the loop. *)
Definition assignRoles (playerCount : nat) : M (list PlayerRole) :=
  let roles : list PlayerRole := [] in
  let hasWhiteHat := bool_decide (GAME_CONFIG.WHITE_HAT_MIN_PLAYERS - 1 < playerCount) in
  let roles := roles ++ [BLACK_HAT] in
  let roles := if hasWhiteHat then roles ++ [WHITE_HAT] else roles in
  let civilianCount := playerCount - length roles in
  let roles := roles ++ replicate civilianCount CIVILIAN in
  shuffle (length roles - 1) roles.

(** *** Game start *)

Record StartGameResult := {
  sg_success : bool;
  sg_message : option string;
  sg_wordPairId : option Id;
}.

Definition startGame_failure (message : string) : StartGameResult :=
  {| sg_success := false; sg_message := Some message; sg_wordPairId := None |}.

(** [prisma.$transaction]: the writes of a body that throws are undone. *)
Definition transaction {A} (body : M A) : M A := λ w,
  match body w with
  | (Thrown e, _) => (Thrown e, w)
  | done => done
  end.

(** [for (let i = 0; i < activePlayers.length; i++)] over the players from
    index [i] on. *)
Fixpoint update_roles (i : nat) (remaining : list Player) (roles : list PlayerRole) : M unit :=
  match remaining with
  | [] => mret tt
  | p :: rest =>
      _ ← Prisma.player_update (player_id p) (Prisma.player_set_role (roles !! i));
      update_roles (S i) rest roles
  end.

Definition startGame (roomId hostUserId : Id) : M StartGameResult :=
  room ← Prisma.room_findUnique roomId;
  match room with
  | None => mret (startGame_failure "Phòng không tồn tại.")
  | Some room =>
  if decide (room_hostId room ≠ hostUserId)
  then mret (startGame_failure "Chỉ chủ phòng mới có thể bắt đầu.")
  else if decide (room_status room ≠ WAITING)
  then mret (startGame_failure "Trò chơi đã bắt đầu.")
  else
  activePlayers ← Prisma.player_findMany_active roomId;
  if decide (length activePlayers < GAME_CONFIG.MIN_PLAYERS)
  then mret (startGame_failure "Cần ít nhất 4 người chơi.")
  else
  wordPair ← getRandomWordPair;
  match wordPair with
  | None => mret (startGame_failure "Không tìm thấy cặp từ. Vui lòng thêm từ vào hệ thống.")
  | Some wordPair =>
  roles ← assignRoles (length activePlayers);
  _ ← transaction (
        _ ← Prisma.room_update roomId (Prisma.room_set_status IN_PROGRESS);
        _ ← update_roles 0 activePlayers roles;
        Prisma.round_create roomId 1 (wp_id wordPair) HINTING);
  shuffledPlayers ← Js.sort_by Js.random_comparator activePlayers;
  let gameState :=
    {| roomId := roomId; roundNumber := 1; phase := HINTING;
       turnOrder := map player_id shuffledPlayers; currentTurnIndex := 0;
       clues := []; votes := ∅; eliminatedPlayers := [];
       wordPairId := wp_id wordPair |} in
  _ ← setGameState gameState;
  roomState ← getRoomState roomId;
  _ ← match roomState with
      | Some roomState =>
          setRoomState
            {| rs_id := rs_id roomState; rs_code := rs_code roomState;
               rs_hostId := rs_hostId roomState; rs_status := IN_PROGRESS;
               rs_maxPlayers := rs_maxPlayers roomState;
               rs_players := rs_players roomState |}
      | None => mret tt
      end;
  mret {| sg_success := true; sg_message := None; sg_wordPairId := Some (wp_id wordPair) |}
  end
  end.

(** *** Clue submission *)

Record SubmitClueResult := {
  sc_success : bool;
  sc_message : option string;
  sc_nextPlayerId : option Id;
  sc_votingStarted : option bool;
}.

Definition submitClue_failure (message : string) : SubmitClueResult :=
  {| sc_success := false; sc_message := Some message; sc_nextPlayerId := None;
     sc_votingStarted := None |}.

(** [Array.prototype.includes] on an array of ids. *)
Definition includes (a : list Id) (x : Id) : bool := bool_decide (x ∈ a).

(** The loop that skips eliminated players,
    [while (i < turnOrder.length && eliminatedPlayers.includes(turnOrder[i])) i++],
    run over [rest], the part of the turn order from index [i] on: the guard
    [i < turnOrder.length] holds when [rest] has a head, which is
    [turnOrder[i]]. *)
Fixpoint skip_loop (eliminated rest : list Id) (i : nat) : nat :=
  match rest with
  | [] => i
  | p :: rest' => if includes eliminated p then skip_loop eliminated rest' (S i) else i
  end.

Definition skipEliminated (eliminated order : list Id) (i : nat) : nat :=
  skip_loop eliminated (drop i order) i.

Definition submitClue (roomId playerId : Id) (content : Text) : M SubmitClueResult :=
  state ← getGameState roomId;
  match state with
  | None => mret (submitClue_failure "Trò chơi chưa bắt đầu.")
  | Some state =>
  if decide (phase state ≠ HINTING)
  then mret (submitClue_failure "Không phải lúc để đưa ra gợi ý.")
  else
  let expectedPlayerId := turnOrder state !! currentTurnIndex state in
  if decide (expectedPlayerId ≠ Some playerId)
  then mret (submitClue_failure "Chưa đến lượt của bạn.")
  else
  round ← Prisma.round_findFirst roomId (roundNumber state);
  match round with
  | None => mret (submitClue_failure "Vòng chơi không hợp lệ.")
  | Some round =>
  player ← Prisma.player_findUnique (Some playerId);
  match player with
  | None => mret (submitClue_failure "Người chơi không hợp lệ.")
  | Some player =>
  _ ← Prisma.clue_create (round_id round) playerId content;
  now ← gets clock;
  let state := set_clues (clues state ++
                 [{| clue_playerId := playerId;
                     clue_displayName := player_displayName player;
                     clue_content := content; clue_createdAt := now |}]) state in
  let state := set_currentTurnIndex (S (currentTurnIndex state)) state in
  let state := set_currentTurnIndex
                 (skipEliminated (eliminatedPlayers state) (turnOrder state)
                                 (currentTurnIndex state)) state in
  if decide (length (turnOrder state) ≤ currentTurnIndex state) then
    let state := set_phase VOTING state in
    _ ← Prisma.round_update (round_id round) (Prisma.round_set_phase VOTING);
    _ ← setGameState state;
    mret {| sc_success := true; sc_message := None; sc_nextPlayerId := None;
            sc_votingStarted := Some true |}
  else
    _ ← setGameState state;
    mret {| sc_success := true; sc_message := None;
            sc_nextPlayerId := turnOrder state !! currentTurnIndex state;
            sc_votingStarted := None |}
  end
  end
  end.

(** *** Voting *)

Record SubmitVoteResult := {
  sv_success : bool;
  sv_message : option string;
  sv_allVoted : option bool;
}.

Definition submitVote_failure (message : string) : SubmitVoteResult :=
  {| sv_success := false; sv_message := Some message; sv_allVoted := None |}.

(** Truthiness of a string that may be [undefined]: [undefined] is falsy,
    and the empty string is falsy as well. *)
Definition truthy (v : option string) : bool :=
  match v with
  | Some s => bool_decide (s ≠ "")
  | None => false
  end.

(** Truthiness of what [state.votes[id]] reads: the recorded target when
    the voter has one, a member that objects inherit, which is truthy, when
    the id is the name of one, and [undefined] otherwise. *)
Definition truthy_member (m : Js.Member string) : bool :=
  match m with
  | Js.own s => truthy (Some s)
  | Js.inherited => true
  | Js.undefined => false
  end.

Definition submitVote (roomId voterId targetId : Id) : M SubmitVoteResult :=
  state ← getGameState roomId;
  match state with
  | None => mret (submitVote_failure "Trò chơi chưa bắt đầu.")
  | Some state =>
  if decide (phase state ≠ VOTING)
  then mret (submitVote_failure "Không phải lúc bỏ phiếu.")
  else if includes (eliminatedPlayers state) voterId
  then mret (submitVote_failure "Bạn đã bị loại, không thể bỏ phiếu.")
  else if truthy_member (Js.get (votes state) voterId)
  then mret (submitVote_failure "Bạn đã bỏ phiếu rồi.")
  else
  round ← Prisma.round_findFirst roomId (roundNumber state);
  match round with
  | None => mret (submitVote_failure "Vòng chơi không hợp lệ.")
  | Some round =>
  _ ← Prisma.vote_create (round_id round) voterId targetId;
  let state := set_votes (Js.put (votes state) voterId targetId) state in
  let activePlayers :=
    filter (λ id, includes (eliminatedPlayers state) id = false) (turnOrder state) in
  let allVoted := forallb (λ id, truthy_member (Js.get (votes state) id)) activePlayers in
  _ ← setGameState state;
  mret {| sv_success := true; sv_message := None; sv_allVoted := Some allVoted |}
  end
  end.

(** *** End of the game *)

Definition endGame (roomId : Id) (state : GameState) (_winner : option Winner) : M unit :=
  _ ← Prisma.room_update roomId (Prisma.room_set_status FINISHED);
  round ← Prisma.round_findLatest roomId;
  _ ← match round with
      | Some round =>
          now ← gets clock;
          Prisma.round_update (round_id round)
            (λ r, Prisma.round_set_endedAt now (Prisma.round_set_phase RESULT r))
      | None => mret tt
      end;
  _ ← deleteGameState roomId;
  deleteRoomState roomId.

(** *** Next round *)

Definition startNextRound (roomId : Id) (state : GameState) : M unit :=
  wordPair ← getRandomWordPair;
  match wordPair with
  | None => mret tt
  | Some wordPair =>
  let state := set_roundNumber (S (roundNumber state)) state in
  let state := set_phase HINTING state in
  let state := set_clues [] state in
  let state := set_votes ∅ state in
  let state := set_wordPairId (wp_id wordPair) state in
  activePlayers ← Prisma.player_findMany_active roomId;
  shuffled ← Js.sort_by Js.random_comparator activePlayers;
  let state := set_turnOrder (map player_id shuffled) state in
  let state := set_currentTurnIndex 0 state in
  _ ← Prisma.round_create roomId (roundNumber state) (wp_id wordPair) HINTING;
  setGameState state
  end.

(** *** Win conditions *)

Record WinResult := {
  gameOver : bool;
  winner : option Winner;
}.

(** The four [return] statements that follow the query of
    [checkWinConditions], in the order of the source. *)
Inductive WinReturn :=
  | return_blackHatWins
  | return_noBlackHat
  | return_noBlackHatNoWhiteHat
  | return_continue.

Definition winReturn_result (r : WinReturn) : WinResult :=
  match r with
  | return_blackHatWins => {| gameOver := true; winner := Some BLACK_HAT |}
  | return_noBlackHat => {| gameOver := true; winner := Some CIVILIAN |}
  | return_noBlackHatNoWhiteHat => {| gameOver := true; winner := Some CIVILIAN |}
  | return_continue => {| gameOver := false; winner := None |}
  end.

(** [activePlayers.some((p) => p.role === role)]. *)
Definition some_role (role : PlayerRole) (activePlayers : list Player) : bool :=
  existsb (λ p, bool_decide (player_role p = Some role)) activePlayers.

(** The statement reached for a given list of active players. *)
Definition winReturn (activePlayers : list Player) : WinReturn :=
  let hasBlackHat := some_role BLACK_HAT activePlayers in
  let hasWhiteHat := some_role WHITE_HAT activePlayers in
  let activeCount := length activePlayers in
  if bool_decide (activeCount ≤ 2) && hasBlackHat then return_blackHatWins
  else if negb hasBlackHat then return_noBlackHat
  else if negb hasBlackHat && negb hasWhiteHat then return_noBlackHatNoWhiteHat
  else return_continue.

Definition checkWinConditions (roomId : Id) (state : option GameState) : M WinResult :=
  gs ← match state with
       | Some state => mret (Some state)
       | None => getGameState roomId
       end;
  match gs with
  | None => mret {| gameOver := false; winner := None |}
  | Some _ =>
      activePlayers ← Prisma.player_findMany_active roomId;
      mret (winReturn_result (winReturn activePlayers))
  end.

(** *** Vote resolution *)

Record RoundResolution := {
  eliminatedPlayerId : option Id;
  eliminatedRole : option PlayerRole;
  isWhiteHat : bool;
  rr_gameOver : bool;
  rr_winner : option Winner;
}.

(** What a property of the object [voteCounts] holds: a number, or the
    string that [+ 1] makes of a function, of an object or of such a
    string.  These strings are no numerals. *)
Inductive Count :=
  | a_number (n : nat)
  | a_string.

Global Instance Count_eq_dec : EqDecision Count.
Proof. solve_decision. Defined.

(** [for (const targetId of Object.values(state.votes))
      voteCounts[targetId] = (voteCounts[targetId] || 0) + 1],
    on [voteCounts = {}].  A target that received no vote so far reads
    [undefined] and gets the count 1, unless it is the name of a member
    that objects inherit: the member is truthy, and adding 1 to it gives a
    string, to which the next vote appends once more.  The outcome does not
    depend on the order in which the votes are visited. *)
Definition voteCounts (votes : gmap string string) : gmap string Count :=
  map_fold (λ _ targetId counts,
              Js.put counts targetId
                match Js.get counts targetId with
                | Js.own (a_number n) => a_number (n + 1)
                | Js.own a_string => a_string
                | Js.inherited => a_string
                | Js.undefined => a_number 1
                end)
           ∅ votes.

(** [Math.max(0, ...Object.values(voteCounts))]: the maximum is [NaN], here
    [None], as soon as one of the values is no number. *)
Definition maxVotes (counts : gmap string Count) : option nat :=
  foldr (λ c best,
           match c, best with
           | a_number n, Some m => Some (Nat.max n m)
           | _, _ => None
           end)
        (Some 0) ((map_to_list counts).*2).

(** [count === maxVotes]: a string is not a number, and nothing equals
    [NaN]. *)
Definition strictly_equal (c : Count) (m : option nat) : bool :=
  match c, m with
  | a_number n, Some m => bool_decide (n = m)
  | _, _ => false
  end.

(** [Object.entries(voteCounts).filter(([, count]) => count === maxVotes)
      .map(([id]) => id)]. *)
Definition topTargets (counts : gmap string Count) : list Id :=
  (filter (λ entry, strictly_equal entry.2 (maxVotes counts) = true) (map_to_list counts)).*1.

Definition resolveVotes (roomId : Id) : M RoundResolution :=
  state ← getGameState roomId;
  match state with
  | None => throw "Game state not found"
  | Some state =>
  let counts := voteCounts (votes state) in
  let tops := topTargets counts in
  if decide (1 < length tops) then
    _ ← startNextRound roomId state;
    mret {| eliminatedPlayerId := None; eliminatedRole := None; isWhiteHat := false;
            rr_gameOver := false; rr_winner := None |}
  else
  let eliminatedPlayerId := tops !! 0 in
  eliminatedPlayer ← Prisma.player_findUnique eliminatedPlayerId;
  match eliminatedPlayerId, eliminatedPlayer with
  | Some eliminatedPlayerId, Some eliminatedPlayer =>
  _ ← Prisma.player_update eliminatedPlayerId (Prisma.player_set_isActive false);
  let state := set_eliminatedPlayers (eliminatedPlayers state ++ [eliminatedPlayerId]) state in
  let isWhiteHat := bool_decide (player_role eliminatedPlayer = Some WHITE_HAT) in
  if isWhiteHat then
    let state := set_phase GUESSING state in
    round ← Prisma.round_findFirst roomId (roundNumber state);
    _ ← match round with
        | Some round => Prisma.round_update (round_id round) (Prisma.round_set_phase GUESSING)
        | None => mret tt
        end;
    _ ← setGameState state;
    mret {| eliminatedPlayerId := Some eliminatedPlayerId;
            eliminatedRole := player_role eliminatedPlayer; isWhiteHat := true;
            rr_gameOver := false; rr_winner := None |}
  else
  winResult ← checkWinConditions roomId (Some state);
  if gameOver winResult then
    _ ← endGame roomId state (winner winResult);
    mret {| eliminatedPlayerId := Some eliminatedPlayerId;
            eliminatedRole := player_role eliminatedPlayer; isWhiteHat := false;
            rr_gameOver := gameOver winResult; rr_winner := winner winResult |}
  else
  _ ← startNextRound roomId state;
  mret {| eliminatedPlayerId := Some eliminatedPlayerId;
          eliminatedRole := player_role eliminatedPlayer; isWhiteHat := false;
          rr_gameOver := false; rr_winner := None |}
  | _, _ => throw "Eliminated player not found"
  end
  end.

(** *** The guess of the white hat *)

Record GuessResult := {
  gr_success : bool;
  correct : bool;
  correctWord : option Text;
  gr_gameOver : option bool;
  gr_winner : option Winner;
}.

Definition guess_failure : GuessResult :=
  {| gr_success := false; correct := false; correctWord := None; gr_gameOver := None;
     gr_winner := None |}.

Section WithRuntime.
Context `{rt : Js.Runtime}.

Definition submitWhiteHatGuess (roomId whiteHatPlayerId : Id) (guess : Text) : M GuessResult :=
  state ← getGameState roomId;
  match state with
  | None => mret guess_failure
  | Some state =>
  if decide (phase state ≠ GUESSING) then mret guess_failure
  else
  wordPair ← Prisma.wordPair_findUnique (wordPairId state);
  match wordPair with
  | None => mret guess_failure
  | Some wordPair =>
  let correct := bool_decide (Js.toLowerCase (Js.trim guess)
                              = Js.toLowerCase (Js.trim (wp_wordA wordPair))) in
  if correct then
    _ ← endGame roomId state (Some WHITE_HAT);
    mret {| gr_success := true; correct := true; correctWord := None;
            gr_gameOver := Some true; gr_winner := Some WHITE_HAT |}
  else
  winResult ← checkWinConditions roomId (Some state);
  if gameOver winResult then
    _ ← endGame roomId state (winner winResult);
    mret {| gr_success := true; correct := false; correctWord := Some (wp_wordA wordPair);
            gr_gameOver := Some true; gr_winner := winner winResult |}
  else
  _ ← startNextRound roomId state;
  mret {| gr_success := true; correct := false; correctWord := Some (wp_wordA wordPair);
          gr_gameOver := Some false; gr_winner := None |}
  end
  end.

End WithRuntime.

(** *** The word of a player *)

Definition getWordForPlayer (wordPairId : Id) (role : PlayerRole) : M (option Text) :=
  wordPair ← Prisma.wordPair_findUnique wordPairId;
  match wordPair with
  | None => mret None
  | Some wordPair =>
      if decide (role = CIVILIAN) then mret (Some (wp_wordA wordPair))
      else if decide (role = BLACK_HAT) then mret (Some (wp_wordB wordPair))
      else mret None
  end.

(** *** Join codes and the set of active rooms *)

Definition set_roomCodes (v : gmap string string) (r : Redis) : Redis :=
  {| roomKeys := roomKeys r; gameKeys := gameKeys r; roomCodes := v;
     activeRooms := activeRooms r |}.

Section WithCasing.
Context `{casing : Js.Casing}.

Definition getRoomIdByCode (code : Id) : M (option Id) :=
  gets (λ w, roomCodes (redis w) !! Js.toUpperCase code).

Definition setRoomCodeMapping (code roomId : Id) : M unit :=
  modify_redis (λ r, set_roomCodes (<[Js.toUpperCase code := roomId]> (roomCodes r)) r).

Definition deleteRoomCodeMapping (code : Id) : M unit :=
  modify_redis (λ r, set_roomCodes (delete (Js.toUpperCase code) (roomCodes r)) r).

End WithCasing.

(** [zcard] of the sorted set [active_rooms]. *)
Definition getActiveRoomCount : M nat :=
  gets (λ w, size (activeRooms (redis w))).

(** [zadd]: the room enters the set with the time as its score, or has its
    score refreshed when it is a member already. *)
Definition trackActiveRoom (roomId : Id) : M unit :=
  now ← gets clock;
  modify_redis (λ r, set_activeRooms (<[roomId := now]> (activeRooms r)) r).

End GameService.

(** ** routes/words.ts *)

Module WordRoutes.

(** What a route answers: the status code; the body is a message for the
    reader. *)
Record Response := {
  status : nat;
}.

Definition wordPair_set_isActive (b : bool) (p : WordPair) : WordPair :=
  {| wp_id := wp_id p; wp_wordA := wp_wordA p; wp_wordB := wp_wordB p;
     wp_categoryId := wp_categoryId p; wp_isActive := b |}.

Definition wordPair_update (id : Id) (f : WordPair → WordPair) : M unit :=
  found ← Prisma.wordPair_findUnique id;
  match found with
  | None => throw Prisma.P2025
  | Some _ =>
      Prisma.modify_db (λ d, Prisma.set_wordPairs
        (map (λ p, if bool_decide (wp_id p = id) then f p else p) (wordPairs d)) d)
  end.

(** [DELETE /words/:id]: the pair is withdrawn, its row stays. *)
Definition delete_word (id : Id) : M Response :=
  pair ← Prisma.wordPair_findUnique id;
  match pair with
  | None => mret {| status := 404 |}
  | Some _ =>
      _ ← wordPair_update id (wordPair_set_isActive false);
      mret {| status := 200 |}
  end.

End WordRoutes.

(** ** The rooms router: [router.delete('/:id/leave')] *)

Module RoomRoutes.
Import GameService.

(** What a route answers: the status code; the body is a message for the
    reader. *)
Record Response := {
  status : nat;
}.

(** [prisma.player.findUnique({ where: { userId_roomId: { userId, roomId } } })]:
    the pair is a key of the table. *)
Definition player_findByUserAndRoom (userId roomId : Id) : M (option Player) :=
  gets (λ w, find (λ p, bool_decide (player_userId p = userId ∧ player_roomId p = roomId))
                  (players (db w))).

(** [prisma.player.findFirst({ where: { roomId, isActive: true,
      userId: { not: userId } }, orderBy: { joinedAt: 'asc' } })]. *)
Definition player_findFirst_otherActive (roomId userId : Id) : M (option Player) :=
  gets (λ w, find (λ p, bool_decide (player_roomId p = roomId ∧ player_isActive p = true
                                     ∧ player_userId p ≠ userId))
                  (players (db w))).

Definition room_set_hostId (hostId : Id) (r : Room) : Room :=
  {| room_id := room_id r; room_code := room_code r; room_hostId := hostId;
     room_status := room_status r; room_maxPlayers := room_maxPlayers r |}.

Definition rp_set_isActive (b : bool) (p : RoomPlayer) : RoomPlayer :=
  {| rp_id := rp_id p; rp_userId := rp_userId p; rp_displayName := rp_displayName p;
     rp_avatar := rp_avatar p; rp_isActive := b; rp_isHost := rp_isHost p;
     rp_role := rp_role p |}.

Definition rp_set_isHost (b : bool) (p : RoomPlayer) : RoomPlayer :=
  {| rp_id := rp_id p; rp_userId := rp_userId p; rp_displayName := rp_displayName p;
     rp_avatar := rp_avatar p; rp_isActive := rp_isActive p; rp_isHost := b;
     rp_role := rp_role p |}.

Definition rs_set_players (ps : list RoomPlayer) (rs : RoomState) : RoomState :=
  {| rs_id := rs_id rs; rs_code := rs_code rs; rs_hostId := rs_hostId rs;
     rs_status := rs_status rs; rs_maxPlayers := rs_maxPlayers rs; rs_players := ps |}.

Definition rs_set_hostId (hostId : Id) (rs : RoomState) : RoomState :=
  {| rs_id := rs_id rs; rs_code := rs_code rs; rs_hostId := hostId;
     rs_status := rs_status rs; rs_maxPlayers := rs_maxPlayers rs;
     rs_players := rs_players rs |}.

(** [const p = roomState.players.find((pl) => pl.userId === userId);
      if (p) p.isActive = false]: the first player of that user, if any, is
    marked in the room state at hand. *)
Fixpoint mark_inactive (userId : Id) (ps : list RoomPlayer) : list RoomPlayer :=
  match ps with
  | [] => []
  | p :: rest =>
      if bool_decide (rp_userId p = userId) then rp_set_isActive false p :: rest
      else p :: mark_inactive userId rest
  end.

Section WithCasing.
Context `{casing : Js.Casing}.

(** [DELETE /rooms/:id/leave], for the user the middleware has
    authenticated. *)
Definition leave (id userId : Id) : M Response :=
  room ← Prisma.room_findUnique id;
  match room with
  | None => mret {| status := 404 |}
  | Some room =>
  player ← player_findByUserAndRoom userId (room_id room);
  match player with
  | None => mret {| status := 400 |}
  | Some player =>
  _ ← Prisma.player_update (player_id player) (Prisma.player_set_isActive false);
  roomState ← getRoomState (room_id room);
  let roomState :=
    (λ rs, rs_set_players (mark_inactive userId (rs_players rs)) rs) <$> roomState in
  if decide (room_hostId room = userId ∧ room_status room = WAITING) then
    nextPlayer ← player_findFirst_otherActive (room_id room) userId;
    match nextPlayer with
    | Some nextPlayer =>
        _ ← Prisma.room_update (room_id room) (room_set_hostId (player_userId nextPlayer));
        _ ← match roomState with
            | Some roomState =>
                let roomState := rs_set_hostId (player_userId nextPlayer) roomState in
                let roomState :=
                  rs_set_players
                    (map (λ p, rp_set_isHost
                                 (bool_decide (rp_userId p = player_userId nextPlayer)) p)
                         (rs_players roomState))
                    roomState in
                setRoomState roomState
            | None => mret tt
            end;
        mret {| status := 200 |}
    | None =>
        _ ← Prisma.room_update (room_id room) (Prisma.room_set_status FINISHED);
        _ ← deleteRoomState (room_id room);
        _ ← deleteRoomCodeMapping (room_code room);
        mret {| status := 200 |}
    end
  else
    _ ← match roomState with
        | Some roomState => setRoomState roomState
        | None => mret tt
        end;
    mret {| status := 200 |}
  end
  end.

End WithCasing.

End RoomRoutes.

(** * Vocabulary of the statements *)

Import GameService.

(** [returns m w Q]: run in [w], the call [m] does not throw, and its value
    and final world satisfy [Q]. *)
Definition returns {A} (m : M A) (w : World) (Q : A → World → Prop) : Prop :=
  ∃ a w', m w = (Returned a, w') ∧ Q a w'.

(** How many entries of a role list carry a given role. *)
Definition count_role (role : PlayerRole) (roles : list PlayerRole) : nat :=
  length (filter (λ r, r = role) roles).

(** Every swap of the shuffle loop run from index [i] reads and writes
    within the array. *)
Fixpoint swaps_in_range (i : nat) (roles : list PlayerRole) (w : World) : Prop :=
  match i with
  | 0 => True
  | S i' =>
      match Js.Math_random w with
      | (Returned u, w') =>
          let j := Js.floor_times u (i + 1) in
          i < length roles ∧ j < length roles ∧ swaps_in_range i' (Js.swap i j roles) w'
      | (Thrown _, _) => True
      end
  end.

(** The roles before the shuffle. *)
Definition roles_unshuffled (playerCount : nat) : list PlayerRole :=
  BLACK_HAT ::
  (if bool_decide (5 < playerCount) then [WHITE_HAT] else []) ++
  replicate (playerCount - 1 - (if bool_decide (5 < playerCount) then 1 else 0)) CIVILIAN.

(** The distribution of roles among [n] players when the white hat joins
    above [threshold] players: one black hat, one white hat exactly when
    [n] exceeds the threshold, civilians for the rest. *)
Definition role_distribution (threshold n : nat) (roles : list PlayerRole) : Prop :=
  length roles = n ∧
  count_role BLACK_HAT roles = 1 ∧
  (count_role WHITE_HAT roles = 1 ↔ threshold < n) ∧
  (¬ threshold < n → WHITE_HAT ∉ roles) ∧
  count_role CIVILIAN roles = n - 1 - count_role WHITE_HAT roles.


(** ** Worlds of the worked examples *)

Definition empty_database : Database :=
  {| rooms := []; players := []; wordPairs := []; rounds := []; clueRows := [];
     voteRows := []; nextRowId := 0 |}.

Definition empty_redis : Redis :=
  {| roomKeys := ∅; gameKeys := ∅; roomCodes := ∅; activeRooms := ∅ |}.

(** Nothing stored, and an entropy source that answers 0, 1/2 and 3/4
    before it runs dry. *)
Definition empty_world : World :=
  {| db := empty_database; redis := empty_redis;
     entropy := [0; 2 ^ 52; 3 * 2 ^ 51]%N; clock := 0 |}.

(** ** Win conditions *)

(** The active players of a room, as [checkWinConditions] and
    [startNextRound] query them. *)
Definition activePlayersOf (roomId : Id) (w : World) : list Player :=
  filter (λ p, player_roomId p = roomId ∧ player_isActive p = true) (players (db w)).

(** Some player of the list holds the role. *)
Definition has_role (role : PlayerRole) (ps : list Player) : Prop :=
  ∃ p, p ∈ ps ∧ player_role p = Some role.

(** The game state [checkWinConditions] works on: [state ?? getGameState]. *)
Definition resolved_state (roomId : Id) (state : option GameState) (w : World)
  : option GameState :=
  match state with
  | Some state => Some state
  | None => gameKeys (redis w) !! roomId
  end.

(** [checkWinConditions] with the check for "no black hat and no white hat"
    taken out, as the specification proposes. *)
Definition winReturn_pruned (activePlayers : list Player) : WinReturn :=
  let hasBlackHat := some_role BLACK_HAT activePlayers in
  let activeCount := length activePlayers in
  if bool_decide (activeCount ≤ 2) && hasBlackHat then return_blackHatWins
  else if negb hasBlackHat then return_noBlackHat
  else return_continue.

Definition checkWinConditions_pruned (roomId : Id) (state : option GameState) : M WinResult :=
  gs ← match state with
       | Some state => mret (Some state)
       | None => getGameState roomId
       end;
  match gs with
  | None => mret {| gameOver := false; winner := None |}
  | Some _ =>
      activePlayers ← Prisma.player_findMany_active roomId;
      mret (winReturn_result (winReturn_pruned activePlayers))
  end.

Definition player_of (id roomId : Id) (active : bool) (role : PlayerRole) : Player :=
  {| player_id := id; player_userId := id; player_roomId := roomId;
     player_isActive := active; player_role := Some role;
     player_displayName := []; player_avatar := None |}.

(** A room of three: a black hat, a civilian and a white hat, the civilian
    having left. *)
Definition endgame_world : World :=
  {| db := {| rooms := []; wordPairs := []; rounds := []; clueRows := []; voteRows := [];
              nextRowId := 0;
              players := [player_of "p1" "room" true BLACK_HAT;
                          player_of "p2" "room" false CIVILIAN;
                          player_of "p3" "room" true WHITE_HAT] |};
     redis := empty_redis; entropy := []; clock := 0 |}.

Definition blank_state : GameState :=
  {| roomId := "room"; roundNumber := 1; phase := VOTING; turnOrder := [];
     currentTurnIndex := 0; clues := []; votes := ∅; eliminatedPlayers := [];
     wordPairId := "wp" |}.

(** ** The end of the game *)

(** The Redis keys of a room once its game has ended. *)
Definition redis_after_endGame (room : Id) (r : Redis) : Redis :=
  {| roomKeys := delete room (roomKeys r); gameKeys := delete room (gameKeys r);
     roomCodes := roomCodes r; activeRooms := delete room (activeRooms r) |}.

(** ** Round advancement *)

(** The call left the database, Redis and the clock alone (it may have
    drawn from the entropy source). *)
Definition same_stores (w w' : World) : Prop :=
  db w' = db w ∧ redis w' = redis w ∧ clock w' = clock w.

(** What the specification says of round advancement: in the world [w'] it
    leaves behind, the stored session of [state] is at the next round, back
    in HINTING with no clues and no votes, its turn order a permutation of
    the ids of the room's active players, its cursor at 0 and its list of
    eliminated players the one of [state]. *)
Definition round_advanced (room : Id) (state : GameState) (w' : World) : Prop :=
  ∃ state',
    gameKeys (redis w') !! roomId state = Some state' ∧
    roundNumber state' = S (roundNumber state) ∧
    phase state' = HINTING ∧
    clues state' = [] ∧
    votes state' = ∅ ∧
    turnOrder state' ≡ₚ map player_id (activePlayersOf room w') ∧
    currentTurnIndex state' = 0 ∧
    eliminatedPlayers state' = eliminatedPlayers state.

(** A vote that ended in a tie, in a world whose word pairs have all been
    withdrawn. *)
Definition tied_state : GameState :=
  {| roomId := "room"; roundNumber := 3; phase := VOTING;
     turnOrder := ["p1"; "p3"; "p4"; "p5"]; currentTurnIndex := 4; clues := [];
     votes := {[ "p1" := "p3"; "p3" := "p1"; "p4" := "p3"; "p5" := "p1" ]};
     eliminatedPlayers := ["p2"];
     wordPairId := "wp" |}.

Definition Meo : Text := [77; 232; 111]%N.
Definition Cho : Text := [67; 104; 243]%N.

(** A room of five after the second player was voted out: the session
    [state] is stored, the one word pair is active or withdrawn. *)
Definition example_players : list Player :=
  [player_of "p1" "room" true BLACK_HAT;
   player_of "p2" "room" false CIVILIAN;
   player_of "p3" "room" true CIVILIAN;
   player_of "p4" "room" true CIVILIAN;
   player_of "p5" "room" true WHITE_HAT].

Definition example_world (state : GameState) (pairActive : bool) : World :=
  {| db := {| rooms := [{| room_id := "room"; room_code := "ABC123"; room_hostId := "p1";
                           room_status := IN_PROGRESS; room_maxPlayers := 8 |}];
              rounds := [{| round_id := 0; round_roomId := "room";
                            round_roundNumber := roundNumber state;
                            round_wordPairId := "wp"; round_phase := phase state;
                            round_endedAt := None |}];
              clueRows := []; voteRows := []; nextRowId := 1;
              wordPairs := [{| wp_id := "wp"; wp_wordA := Meo; wp_wordB := Cho;
                               wp_categoryId := "animals"; wp_isActive := pairActive |}];
              players := example_players |};
     redis := {| roomKeys := ∅; gameKeys := {[ "room" := state ]}; roomCodes := ∅;
                 activeRooms := ∅ |};
     entropy := [5; 2 ^ 52; 7]%N; clock := 1000 |}.

Definition no_pair_world : World := example_world tied_state false.

(** The white hat has been voted out and is about to guess. *)
Definition guessing_state : GameState :=
  {| roomId := "room"; roundNumber := 3; phase := GUESSING;
     turnOrder := ["p1"; "p3"; "p4"; "p5"]; currentTurnIndex := 4; clues := [];
     votes := {[ "p1" := "p5"; "p3" := "p5"; "p4" := "p5"; "p5" := "p1" ]};
     eliminatedPlayers := ["p2"; "p5"]; wordPairId := "wp" |}.

Definition guessing_world (pairActive : bool) : World :=
  with_db (Prisma.set_players
             [player_of "p1" "room" true BLACK_HAT;
              player_of "p2" "room" false CIVILIAN;
              player_of "p3" "room" true CIVILIAN;
              player_of "p4" "room" true CIVILIAN;
              player_of "p5" "room" false WHITE_HAT]
             (db (example_world guessing_state pairActive)))
          (example_world guessing_state pairActive).

(** ** Voting *)

(** The vote has opened and nobody has voted yet. *)
Definition voting_state : GameState :=
  {| roomId := "room"; roundNumber := 3; phase := VOTING;
     turnOrder := ["p1"; "p3"; "p4"; "p5"]; currentTurnIndex := 4; clues := [];
     votes := ∅; eliminatedPlayers := ["p2"]; wordPairId := "wp" |}.

(** The first player has cast a vote whose target is the empty string. *)
Definition empty_vote_state : GameState :=
  set_votes {[ "p1" := "" ]} voting_state.

(** ** The guess of the white hat *)

(** The comparison of [submitWhiteHatGuess]: both sides trimmed and
    lowercased, then compared for equality. *)
Definition guess_matches `{rt : Js.Runtime} (guess wordA : Text) : Prop :=
  Js.toLowerCase (Js.trim guess) = Js.toLowerCase (Js.trim wordA).

Global Instance guess_matches_dec `{rt : Js.Runtime} (guess wordA : Text) :
  Decision (guess_matches guess wordA).
Proof. unfold guess_matches. apply _. Defined.

(** The call returns a response that carries [wordA] as the correct word. *)
Definition response_reveals `{rt : Js.Runtime}
    (room playerId : Id) (guess : Text) (w : World) (wordA : Text) : Prop :=
  ∃ response,
    eval (submitWhiteHatGuess room playerId guess) w = Returned response ∧
    correctWord response = Some wordA.

(** Spellings of the stored word [Meo]: padded with spaces, in lower case
    and in upper case. *)
Definition Meo_padded : Text := [32; 32; 77; 232; 111; 32]%N.
Definition Meo_lower : Text := [109; 232; 111]%N.
Definition Meo_upper : Text := [77; 200; 79]%N.

Definition example_pair (active : bool) : WordPair :=
  {| wp_id := "wp"; wp_wordA := Meo; wp_wordB := Cho; wp_categoryId := "animals";
     wp_isActive := active |}.

(** ** Vote resolution *)

(** The number of voters whose recorded target is [target]. *)
Definition votes_for (target : Id) (votes : gmap string string) : nat :=
  length (filter (λ entry, entry.2 = target) (map_to_list votes)).

(** Some vote names a member that objects inherit, other than
    [__proto__]: the count kept under that name is a string, and the
    maximum of the counts is not a number. *)
Definition spoiled (votes : gmap string string) : Prop :=
  ∃ voter target,
    votes !! voter = Some target ∧ target ∈ Js.Object_prototype ∧ target ≠ "__proto__".

(** A vote for [__proto__] leaves no trace in the tally: the other names
    are the ones that are counted. *)
Definition counted (target : Id) : Prop := target ≠ "__proto__".

(** Nobody can be the top target: the tally is spoiled, or every vote, if
    there is one, names [__proto__]. *)
Definition no_top_target (votes : gmap string string) : Prop :=
  spoiled votes ∨ ∀ voter target, votes !! voter = Some target → target = "__proto__".

(** The players table once the player [id] has been marked inactive. *)
Definition deactivate (id : Id) (w : World) : World :=
  with_db (Prisma.set_players
             (map (λ p, if bool_decide (player_id p = id)
                        then Prisma.player_set_isActive false p else p)
                  (players (db w)))
             (db w)) w.

(** Three players vote for [target], the white hat votes for the first
    player. *)
Definition accusing_state (target : Id) : GameState :=
  set_votes {[ "p1" := target; "p3" := target; "p4" := target; "p5" := "p1" ]} voting_state.

(** Three players vote for the white hat, who votes for [constructor]. *)
Definition spoiled_state : GameState :=
  set_votes {[ "p1" := "p5"; "p3" := "p5"; "p4" := "p5"; "p5" := "constructor" ]}
            voting_state.


(** Two players vote for [__proto__], one for the first player and one for
    the third. *)
Definition proto_tie_state : GameState :=
  set_votes {[ "p1" := "__proto__"; "p3" := "__proto__"; "p4" := "p1"; "p5" := "p3" ]}
            voting_state.

(** ** Sessions reached by play *)

(** The turn cursor does not point at an eliminated player. *)
Definition cursor_ok (state : GameState) : Prop :=
  ∀ id, turnOrder state !! currentTurnIndex state = Some id → id ∉ eliminatedPlayers state.

(** A call of the round engine, with whatever arguments. *)
Inductive call `{rt : Js.Runtime} : World → World → Prop :=
  | call_startGame room hostUserId w :
      call w (exec (startGame room hostUserId) w)
  | call_submitClue room playerId content w :
      call w (exec (submitClue room playerId content) w)
  | call_submitVote room voterId targetId w :
      call w (exec (submitVote room voterId targetId) w)
  | call_resolveVotes room w :
      call w (exec (resolveVotes room) w)
  | call_submitWhiteHatGuess room playerId guess w :
      call w (exec (submitWhiteHatGuess room playerId guess) w).

(** A world moves by a call of the round engine; by a reading of a room,
    which may fill the cache; by a request to leave a room, whatever the
    case table of the runtime; or by its environment: the word routes
    change the catalogue of word pairs, time passes and entropy is
    gathered.  Rooms are created and joined by the two other room routes;
    [POST /rooms/join] refuses a room that is not WAITING.  These two are
    not among the steps: play begins in a world with whatever rooms and
    players, and no session. *)
Inductive step `{rt : Js.Runtime} : World → World → Prop :=
  | step_call w w' :
      call w w' → step w w'
  | step_getRoomState room w :
      step w (exec (getRoomState room) w)
  | step_leave (casing : Js.Casing) room userId w :
      step w (exec (RoomRoutes.leave room userId) w)
  | step_environment pairs e c w :
      step w {| db := Prisma.set_wordPairs pairs (db w); redis := redis w;
                entropy := e; clock := c |}.

(** The worlds reached from one in which no game is stored. *)
Inductive reachable `{rt : Js.Runtime} : World → Prop :=
  | reachable_initial w : gameKeys (redis w) = ∅ → reachable w
  | reachable_step w w' : reachable w → step w w' → reachable w'.

(** What holds of a stored session throughout: the cursor is fine, it has
    passed the end of the turn order once the hints are over, no vote is
    recorded while the hints are given, and no eliminated player is active
    in the players table. *)
Definition eliminated_inactive (d : Database) (state : GameState) : Prop :=
  ∀ p, p ∈ players d → player_id p ∈ eliminatedPlayers state → player_isActive p = false.

Definition state_ok (d : Database) (state : GameState) : Prop :=
  cursor_ok state ∧
  (phase state ≠ HINTING → length (turnOrder state) ≤ currentTurnIndex state) ∧
  (phase state = HINTING → votes state = ∅) ∧
  eliminated_inactive d state.

Definition world_ok (w : World) : Prop :=
  ∀ room state, gameKeys (redis w) !! room = Some state →
                roomId state = room ∧ state_ok (db w) state.

(** No player that is active in [d'] was inactive or unknown in [d]. *)
Definition no_reactivation (d d' : Database) : Prop :=
  ∀ p', p' ∈ players d' → player_isActive p' = true →
        ∃ p, p ∈ players d ∧ player_id p = player_id p' ∧ player_isActive p = true.

(** The call touched no session and reactivated nobody. *)
Definition benign (w w' : World) : Prop :=
  no_reactivation (db w) (db w') ∧ gameKeys (redis w') = gameKeys (redis w).

(** A call that is benign in whatever world it runs. *)
Definition harmless {A} (m : M A) : Prop := ∀ w, benign w (exec m w).

(** The session once [clue] has been accepted: the clue is appended, the
    cursor moves past the player and past the eliminated players that
    follow, and the vote opens when the cursor leaves the turn order. *)
Definition state_after_clue (state : GameState) (clue : ClueRecord) : GameState :=
  let cursor := skipEliminated (eliminatedPlayers state) (turnOrder state)
                               (S (currentTurnIndex state)) in
  {| roomId := roomId state; roundNumber := roundNumber state;
     phase := if decide (length (turnOrder state) ≤ cursor) then VOTING else phase state;
     turnOrder := turnOrder state; currentTurnIndex := cursor;
     clues := clues state ++ [clue]; votes := votes state;
     eliminatedPlayers := eliminatedPlayers state; wordPairId := wordPairId state |}.

(** Four players wait in a room for the host to start the game. *)
Definition waiting_player (id : Id) : Player :=
  {| player_id := id; player_userId := id; player_roomId := "room";
     player_isActive := true; player_role := None; player_displayName := [80%N];
     player_avatar := None |}.

Definition lobby_world : World :=
  {| db := {| rooms := [{| room_id := "room"; room_code := "ABC123"; room_hostId := "p1";
                           room_status := WAITING; room_maxPlayers := 8 |}];
              players := [waiting_player "p1"; waiting_player "p2"; waiting_player "p3";
                          waiting_player "p4"];
              wordPairs := [example_pair true]; rounds := []; clueRows := [];
              voteRows := []; nextRowId := 0 |};
     redis := empty_redis;
     entropy := [1; 2 ^ 52; 3 * 2 ^ 51; 5; 2 ^ 52 + 1; 7; 2 ^ 53 - 1; 11; 2 ^ 52; 0]%N;
     clock := 1000 |}.

Definition started_world : World := exec (startGame "room" "p1") lobby_world.

Definition a_clue : Text := [109; 101; 111; 119]%N.

(** The first round played to its end: every player gives a clue in turn,
    three of the four vote for the third player, and the votes are
    resolved. *)
Definition calls_of_first_round : list (M unit) :=
  [ _ ← submitClue "room" "p2" a_clue; mret tt;
    _ ← submitClue "room" "p1" a_clue; mret tt;
    _ ← submitClue "room" "p4" a_clue; mret tt;
    _ ← submitClue "room" "p3" a_clue; mret tt;
    _ ← submitVote "room" "p1" "p3"; mret tt;
    _ ← submitVote "room" "p2" "p3"; mret tt;
    _ ← submitVote "room" "p3" "p2"; mret tt;
    _ ← submitVote "room" "p4" "p3"; mret tt;
    _ ← resolveVotes "room"; mret tt ].

Definition second_round_world : World :=
  foldl (λ w call, exec call w) started_world calls_of_first_round.

(** The first round with the hints given and the votes cast, before the
    votes are resolved. *)
Definition voted_world : World :=
  foldl (λ w call, exec call w) started_world (take 8 calls_of_first_round).

(** The same, the one word pair having been withdrawn in the meantime. *)
Definition pairless_world : World :=
  {| db := Prisma.set_wordPairs [example_pair false] (db voted_world);
     redis := redis voted_world; entropy := entropy voted_world;
     clock := clock voted_world |}.

(** The session of the second round. *)
Definition second_round_state : GameState :=
  {| roomId := "room"; roundNumber := 2; phase := HINTING;
     turnOrder := ["p1"; "p2"; "p4"]; currentTurnIndex := 0; clues := [];
     votes := ∅; eliminatedPlayers := ["p3"]; wordPairId := "wp" |}.
(** ** Game start *)

(** The checks a room passes before [startGame] writes anything: the room
    is on record, the caller is its host, it is waiting, it has enough
    active players, and the catalogue has an active word pair. *)
Definition can_start (room hostUserId : Id) (w : World) : Prop :=
  ∃ r, find (λ r, bool_decide (room_id r = room)) (rooms (db w)) = Some r ∧
       room_hostId r = hostUserId ∧
       room_status r = WAITING ∧
       GAME_CONFIG.MIN_PLAYERS ≤ length (activePlayersOf room w) ∧
       Prisma.wordPair_active w ≠ [].

(** The players table once the loop of [startGame] has written the roles:
    the player at position [k] of [remaining] gets [roles[i + k]]. *)
Fixpoint set_roles (i : nat) (remaining : list Player) (roles : list PlayerRole)
    (rows : list Player) : list Player :=
  match remaining with
  | [] => rows
  | p :: rest =>
      set_roles (S i) rest roles
        (map (λ q, if bool_decide (player_id q = player_id p)
                   then Prisma.player_set_role (roles !! i) q else q) rows)
  end.

(** The database once the transaction of [startGame] has committed. *)
Definition db_after_start (room wordPairId : Id) (roles : list PlayerRole) (d : Database)
  : Database :=
  {| rooms := map (λ r, if bool_decide (room_id r = room)
                        then Prisma.room_set_status IN_PROGRESS r else r) (rooms d);
     players := set_roles 0 (filter (λ p, player_roomId p = room ∧ player_isActive p = true)
                                    (players d)) roles (players d);
     wordPairs := wordPairs d;
     rounds := rounds d ++ [{| round_id := nextRowId d; round_roomId := room;
                               round_roundNumber := 1; round_wordPairId := wordPairId;
                               round_phase := HINTING; round_endedAt := None |}];
     clueRows := clueRows d; voteRows := voteRows d; nextRowId := S (nextRowId d) |}.

(** The session [startGame] stores. *)
Definition first_round (room wordPairId : Id) (order : list Id) : GameState :=
  {| roomId := room; roundNumber := 1; phase := HINTING; turnOrder := order;
     currentTurnIndex := 0; clues := []; votes := ∅; eliminatedPlayers := [];
     wordPairId := wordPairId |}.

(** The room state [getRoomState] builds from the tables. *)
Definition roomState_of (r : Room) (ps : list Player) : RoomState :=
  {| rs_id := room_id r; rs_code := room_code r; rs_hostId := room_hostId r;
     rs_status := room_status r; rs_maxPlayers := room_maxPlayers r;
     rs_players := map (roomPlayer_of (room_hostId r)) ps |}.

Definition rs_set_status (s : RoomStatus) (rs : RoomState) : RoomState :=
  {| rs_id := rs_id rs; rs_code := rs_code rs; rs_hostId := rs_hostId rs;
     rs_status := s; rs_maxPlayers := rs_maxPlayers rs; rs_players := rs_players rs |}.

(** What [getRoomState] answers in [w]: the cached state, or else the state
    built from the tables. *)
Definition roomState_in (room : Id) (w : World) : option RoomState :=
  match roomKeys (redis w) !! room with
  | Some rs => Some rs
  | None =>
      match find (λ r, bool_decide (room_id r = room)) (rooms (db w)) with
      | Some r => Some (roomState_of r (filter (λ p, player_roomId p = room) (players (db w))))
      | None => None
      end
  end.

(** Every row of a table has an id of its own. *)
Definition unique_player_ids (d : Database) : Prop := NoDup (map player_id (players d)).

(** What the loop makes of one row of the players table. *)
Fixpoint role_after (i : nat) (remaining : list Player) (roles : list PlayerRole)
    (q : Player) : Player :=
  match remaining with
  | [] => q
  | p :: rest =>
      role_after (S i) rest roles
        (if bool_decide (player_id q = player_id p)
         then Prisma.player_set_role (roles !! i) q else q)
  end.

(** A row with its role column left out. *)
Definition player_seat (p : Player) : Id * Id * Id * bool * Text * option Text :=
  (player_id p, player_userId p, player_roomId p, player_isActive p,
   player_displayName p, player_avatar p).

(** ** Clue submission *)

(** The checks a clue passes before [submitClue] writes anything: the room
    has a session in HINTING, the cursor is on the player, and the round and
    the player are on record. *)
Definition clue_due (room playerId : Id) (w : World) : Prop :=
  ∃ state round player,
    gameKeys (redis w) !! room = Some state ∧
    phase state = HINTING ∧
    turnOrder state !! currentTurnIndex state = Some playerId ∧
    find (λ r, bool_decide (round_roomId r = room ∧ round_roundNumber r = roundNumber state))
         (rounds (db w)) = Some round ∧
    find (λ p, bool_decide (player_id p = playerId)) (players (db w)) = Some player.

(** The clue as the session records it. *)
Definition clue_of (player : Player) (content : Text) (w : World) : ClueRecord :=
  {| clue_playerId := player_id player; clue_displayName := player_displayName player;
     clue_content := content; clue_createdAt := clock w |}.

(** The world an accepted clue leaves behind. *)
Definition world_after_clue (state : GameState) (round : Round) (player : Player)
    (content : Text) (w : World) : World :=
  let state' := state_after_clue state (clue_of player content w) in
  let history :=
    {| rooms := rooms (db w); players := players (db w); wordPairs := wordPairs (db w);
       rounds := rounds (db w);
       clueRows := clueRows (db w) ++ [{| cr_roundId := round_id round;
                                          cr_playerId := player_id player;
                                          cr_content := content |}];
       voteRows := voteRows (db w); nextRowId := nextRowId (db w) |} in
  {| db := if decide (length (turnOrder state') ≤ currentTurnIndex state')
           then Prisma.set_rounds
                  (map (λ r, if bool_decide (round_id r = round_id round)
                             then Prisma.round_set_phase VOTING r else r) (rounds (db w)))
                  history
           else history;
     redis := set_gameKeys (<[roomId state := state']> (gameKeys (redis w))) (redis w);
     entropy := entropy w; clock := clock w |}.

(** What [submitClue] answers when it accepts a clue in [state]. *)
Definition clue_accepted (state : GameState) : SubmitClueResult :=
  let cursor := skipEliminated (eliminatedPlayers state) (turnOrder state)
                               (S (currentTurnIndex state)) in
  if decide (length (turnOrder state) ≤ cursor)
  then {| sc_success := true; sc_message := None; sc_nextPlayerId := None;
          sc_votingStarted := Some true |}
  else {| sc_success := true; sc_message := None;
          sc_nextPlayerId := turnOrder state !! cursor; sc_votingStarted := None |}.

(** The players whose turn comes one after the other, each with a clue. *)
Fixpoint give_clues (room : Id) (turns : list (Id * Text)) (w : World) : World :=
  match turns with
  | [] => w
  | (playerId, content) :: rest =>
      give_clues room rest (exec (submitClue room playerId content) w)
  end.


(** A session whose turn order holds an eliminated player right after the
    cursor: the first player is to give a clue, the second one is
    eliminated. *)
Definition skipping_state : GameState :=
  {| roomId := "room"; roundNumber := 3; phase := HINTING;
     turnOrder := ["p1"; "p2"; "p3"; "p4"; "p5"]; currentTurnIndex := 0; clues := [];
     votes := ∅; eliminatedPlayers := ["p2"]; wordPairId := "wp" |}.

(** A session whose last players of the turn order are eliminated: the
    third player is to give a clue. *)
Definition closing_state : GameState :=
  {| roomId := "room"; roundNumber := 3; phase := HINTING;
     turnOrder := ["p1"; "p3"; "p4"; "p2"; "p5"]; currentTurnIndex := 2; clues := [];
     votes := ∅; eliminatedPlayers := ["p2"; "p5"]; wordPairId := "wp" |}.
(** ** Voting *)

(** [votes[id]] reads as a vote that was cast: the id has a target on
    record that is not the empty string, or it has none and is the name of a
    member that objects inherit. *)
Definition reads_as_cast (votes : gmap string string) (id : Id) : Prop :=
  match votes !! id with
  | Some target => target ≠ ""
  | None => id ∈ Js.Object_prototype
  end.

Global Instance reads_as_cast_dec votes id : Decision (reads_as_cast votes id).
Proof. unfold reads_as_cast. destruct (votes !! id); apply _. Defined.

(** The checks a vote passes before [submitVote] writes anything: the room
    has a session in VOTING, the voter is not eliminated and has no vote
    that reads as cast, and the round is on record. *)
Definition vote_due (room voterId : Id) (w : World) : Prop :=
  ∃ state round,
    gameKeys (redis w) !! room = Some state ∧
    phase state = VOTING ∧
    (voterId ∉ eliminatedPlayers state) ∧
    ¬ reads_as_cast (votes state) voterId ∧
    find (λ r, bool_decide (round_roomId r = room ∧ round_roundNumber r = roundNumber state))
         (rounds (db w)) = Some round.

(** Every player of the turn order who is not eliminated has a vote that
    reads as cast. *)
Definition all_voted (state : GameState) : Prop :=
  ∀ id, id ∈ turnOrder state → id ∉ eliminatedPlayers state →
        reads_as_cast (votes state) id.

(** The world an accepted vote leaves behind. *)
Definition world_after_vote (state : GameState) (round : Round) (voterId targetId : Id)
    (w : World) : World :=
  {| db := {| rooms := rooms (db w); players := players (db w);
              wordPairs := wordPairs (db w); rounds := rounds (db w);
              clueRows := clueRows (db w);
              voteRows := voteRows (db w) ++ [{| vr_roundId := round_id round;
                                                 vr_voterId := voterId;
                                                 vr_targetId := targetId |}];
              nextRowId := nextRowId (db w) |};
     redis := set_gameKeys
                (<[roomId state := set_votes (<[voterId := targetId]> (votes state)) state]>
                   (gameKeys (redis w))) (redis w);
     entropy := entropy w; clock := clock w |}.

(** ** Vote resolution *)

(** The ways in which [resolveVotes] fails, with the message it throws and
    the world it leaves: no session; no top target, because nobody has
    voted, or every vote names [__proto__], or some vote names another
    member that objects inherit; a single top target that is not a player;
    and a game that is over for a room the rooms table does not know, by
    which time the player has been marked inactive. *)
Inductive resolve_failure (room : Id) (w : World) : string → World → Prop :=
  | failure_no_session :
      gameKeys (redis w) !! room = None →
      resolve_failure room w "Game state not found" w
  | failure_no_target state :
      gameKeys (redis w) !! room = Some state →
      no_top_target (votes state) →
      resolve_failure room w Prisma.VALIDATION w
  | failure_unknown_target state target :
      gameKeys (redis w) !! room = Some state →
      topTargets (voteCounts (votes state)) = [target] →
      find (λ p, bool_decide (player_id p = target)) (players (db w)) = None →
      resolve_failure room w "Eliminated player not found" w
  | failure_room_missing state target player :
      gameKeys (redis w) !! room = Some state →
      topTargets (voteCounts (votes state)) = [target] →
      find (λ p, bool_decide (player_id p = target)) (players (db w)) = Some player →
      player_role player ≠ Some WHITE_HAT →
      gameOver (winReturn_result (winReturn (activePlayersOf room (deactivate target w))))
      = true →
      find (λ r, bool_decide (room_id r = room)) (rooms (db w)) = None →
      resolve_failure room w Prisma.P2025 (deactivate target w).

(** The room is on record. *)
Definition room_known (room : Id) (w : World) : Prop :=
  is_Some (find (λ r, bool_decide (room_id r = room)) (rooms (db w))).

(** The black hat is about to be voted out in a room that the rooms table
    has lost. *)
Definition orphan_world : World :=
  with_db (Prisma.set_rooms [] (db (example_world (accusing_state "p1") true)))
          (example_world (accusing_state "p1") true).

(** ** The end of the game and the guess *)

(** The round of the room with the highest number, as [endGame] finds it. *)
Definition round_latest (room : Id) (table : list Round) : option Round :=
  foldl (λ best r,
           if bool_decide (round_roomId r = room) then
             match best with
             | Some b => if round_roundNumber b <? round_roundNumber r then Some r else best
             | None => Some r
             end
           else best)
        None table.

(** The world [endGame] leaves behind when the room is on record: the room
    FINISHED, its latest round closed, its keys gone from Redis. *)
Definition world_after_endGame (room : Id) (w : World) : World :=
  {| db := {| rooms := map (λ r, if bool_decide (room_id r = room)
                                 then Prisma.room_set_status FINISHED r else r)
                           (rooms (db w));
              players := players (db w); wordPairs := wordPairs (db w);
              rounds := match round_latest room (rounds (db w)) with
                        | Some round =>
                            map (λ r, if bool_decide (round_id r = round_id round)
                                      then Prisma.round_set_endedAt (clock w)
                                             (Prisma.round_set_phase RESULT r)
                                      else r) (rounds (db w))
                        | None => rounds (db w)
                        end;
              clueRows := clueRows (db w); voteRows := voteRows (db w);
              nextRowId := nextRowId (db w) |};
     redis := redis_after_endGame room (redis w);
     entropy := entropy w; clock := clock w |}.

(** The checks a guess passes before [submitWhiteHatGuess] judges it: the
    room has a session in GUESSING whose word pair is on record. *)
Definition guess_due (room : Id) (w : World) : Prop :=
  ∃ state wordPair,
    gameKeys (redis w) !! room = Some state ∧
    phase state = GUESSING ∧
    find (λ p, bool_decide (wp_id p = wordPairId state)) (wordPairs (db w)) = Some wordPair.

(** ** The moves of a session *)

(** The session of the round that follows [state]. *)
Definition next_round (state : GameState) (eliminated : list Id) (wordPairId : Id)
    (order : list Id) : GameState :=
  {| roomId := roomId state; roundNumber := S (roundNumber state); phase := HINTING;
     turnOrder := order; currentTurnIndex := 0; clues := []; votes := ∅;
     eliminatedPlayers := eliminated; wordPairId := wordPairId |}.

(** The room is on record and its game is running. *)
Definition running (d : Database) (room : Id) : Prop :=
  ∃ r, find (λ r, bool_decide (room_id r = room)) (rooms d) = Some r ∧
       room_status r = IN_PROGRESS.

(** Every stored session belongs to a room whose game is running. *)
Definition sessions_running (w : World) : Prop :=
  ∀ room state, gameKeys (redis w) !! room = Some state → running (db w) room.

(** How the session of [room] and the rooms table move from [w] to [w'] in
    one step: not at all; a game starts; a clue or a vote is taken; the
    white hat is voted out; the next round begins, with or without an
    elimination; or the game ends. *)
Inductive move (w w' : World) (room : Id) : option GameState → option GameState → Prop :=
  | move_stay old :
      rooms (db w') = rooms (db w) →
      roomKeys (redis w') = roomKeys (redis w) →
      move w w' room old old
  | move_start hostUserId wordPairId order :
      can_start room hostUserId w →
      order ≡ₚ map player_id (activePlayersOf room w') →
      rooms (db w')
      = map (λ r, if bool_decide (room_id r = room)
                  then Prisma.room_set_status IN_PROGRESS r else r) (rooms (db w)) →
      move w w' room None (Some (first_round room wordPairId order))
  | move_clue state clue :
      phase state = HINTING →
      turnOrder state !! currentTurnIndex state = Some (clue_playerId clue) →
      rooms (db w') = rooms (db w) →
      roomKeys (redis w') = roomKeys (redis w) →
      move w w' room (Some state) (Some (state_after_clue state clue))
  | move_vote state voterId targetId :
      phase state = VOTING →
      voterId ∉ eliminatedPlayers state →
      rooms (db w') = rooms (db w) →
      roomKeys (redis w') = roomKeys (redis w) →
      move w w' room (Some state)
           (Some (set_votes (<[voterId := targetId]> (votes state)) state))
  | move_white_hat state target :
      phase state ≠ HINTING →
      topTargets (voteCounts (votes state)) = [target] →
      rooms (db w') = rooms (db w) →
      roomKeys (redis w') = roomKeys (redis w) →
      move w w' room (Some state)
           (Some (set_phase GUESSING
                    (set_eliminatedPlayers (eliminatedPlayers state ++ [target]) state)))
  | move_next state eliminated wordPairId order :
      phase state ≠ HINTING →
      eliminated = eliminatedPlayers state
      ∨ (∃ target, eliminated = eliminatedPlayers state ++ [target]) →
      order ≡ₚ map player_id (activePlayersOf room w') →
      rooms (db w') = rooms (db w) →
      roomKeys (redis w') = roomKeys (redis w) →
      move w w' room (Some state) (Some (next_round state eliminated wordPairId order))
  | move_over state :
      phase state ≠ HINTING →
      rooms (db w')
      = map (λ r, if bool_decide (room_id r = room)
                  then Prisma.room_set_status FINISHED r else r) (rooms (db w)) →
      roomKeys (redis w') = delete room (roomKeys (redis w)) →
      move w w' room (Some state) None.

(** How the rooms table moves in a step that is no call of the round
    engine: not at all; or the host of a room that is waiting leaves, and
    the room goes to another player or, nobody being left, is closed. *)
Inductive lobby_move (w w' : World) : Prop :=
  | lobby_stay :
      rooms (db w') = rooms (db w) →
      lobby_move w w'
  | lobby_host room r host :
      find (λ r, bool_decide (room_id r = room)) (rooms (db w)) = Some r →
      room_status r = WAITING →
      rooms (db w')
      = map (λ r, if bool_decide (room_id r = room)
                  then RoomRoutes.room_set_hostId host r else r) (rooms (db w)) →
      lobby_move w w'
  | lobby_close room r :
      find (λ r, bool_decide (room_id r = room)) (rooms (db w)) = Some r →
      room_status r = WAITING →
      rooms (db w')
      = map (λ r, if bool_decide (room_id r = room)
                  then Prisma.room_set_status FINISHED r else r) (rooms (db w)) →
      lobby_move w w'.

(** A step that leaves every session as it is. *)
Definition offstage (w w' : World) : Prop :=
  gameKeys (redis w') = gameKeys (redis w) ∧ lobby_move w w'.

(** What holds of a stored session throughout, besides [state_ok]: while
    the hints are given nobody of the turn order is eliminated; the clues on
    record come from the players before the cursor, one each and in the
    turn order; the session is never in phase RESULT, and its rounds are
    numbered from 1. *)
Definition round_ok (state : GameState) : Prop :=
  (phase state = HINTING →
   ∀ id, id ∈ turnOrder state → id ∉ eliminatedPlayers state) ∧
  map clue_playerId (clues state) = take (currentTurnIndex state) (turnOrder state) ∧
  phase state ≠ RESULT ∧
  1 ≤ roundNumber state.

Definition rounds_ok (w : World) : Prop :=
  ∀ room state, gameKeys (redis w) !! room = Some state → round_ok state.

(** A step that moves the session of [room] at most. *)
Definition moves_at (room : Id) (w w' : World) : Prop :=
  (∀ other, other ≠ room → gameKeys (redis w') !! other = gameKeys (redis w) !! other) ∧
  move w w' room (gameKeys (redis w) !! room) (gameKeys (redis w') !! room).

(** ** Worlds with a cached room *)

(** The room of the examples, read once so that its state is cached, the
    third player being about to be voted out. *)
Definition cached_world : World :=
  exec (getRoomState "room") (example_world (accusing_state "p3") true).

(** The lobby with the room read once, so that its state is cached before
    the roles are dealt. *)
Definition warm_lobby_world : World := exec (getRoomState "room") lobby_world.
(** ** Text *)

(** A text made of white space only. *)
Definition blank (s : Text) : Prop := Forall (λ c, Js.isWhiteSpace c = true) s.

(** ** What play leaves alone *)

(** A call keeps [R] when the world it leaves is related by [R] to the
    world it ran in, whether it returns or throws. *)
Definition keeps (R : World → World → Prop) {A} (m : M A) : Prop :=
  ∀ w, R w (exec m w).

(** The columns of a row that no call of the service writes. *)
Definition player_identity (p : Player) : Id * Id * Id * Text * option Text :=
  (player_id p, player_userId p, player_roomId p, player_displayName p, player_avatar p).

Definition room_identity (r : Room) : Id * Id * Id * nat :=
  (room_id r, room_code r, room_hostId r, room_maxPlayers r).

Definition round_key (r : Round) : nat * Id * nat * Id :=
  (round_id r, round_roomId r, round_roundNumber r, round_wordPairId r).

(** From [w] to [w'] no player or room row was added, removed or given
    another identity, nobody was reactivated, the rounds and the history of
    clues and votes only grew at their ends, the row counter did not go
    back, the join codes were not touched and no room entered the set of
    active rooms. *)
Definition history_kept (w w' : World) : Prop :=
  map player_identity (players (db w')) = map player_identity (players (db w)) ∧
  no_reactivation (db w) (db w') ∧
  map room_identity (rooms (db w')) = map room_identity (rooms (db w)) ∧
  map round_key (rounds (db w)) `prefix_of` map round_key (rounds (db w')) ∧
  clueRows (db w) `prefix_of` clueRows (db w') ∧
  voteRows (db w) `prefix_of` voteRows (db w') ∧
  nextRowId (db w) ≤ nextRowId (db w') ∧
  roomCodes (redis w') = roomCodes (redis w) ∧
  activeRooms (redis w') ⊆ activeRooms (redis w).

(** The columns of a room that no step of play writes: a request to leave
    a room may hand the room to another host. *)
Definition room_record (r : Room) : Id * Id * nat :=
  (room_id r, room_code r, room_maxPlayers r).

(** The same as [history_kept], for steps that may be requests to leave a
    room: the host of a room may have changed, and join codes may have been
    dropped, none added. *)
Definition records_kept (w w' : World) : Prop :=
  map player_identity (players (db w')) = map player_identity (players (db w)) ∧
  no_reactivation (db w) (db w') ∧
  map room_record (rooms (db w')) = map room_record (rooms (db w)) ∧
  map round_key (rounds (db w)) `prefix_of` map round_key (rounds (db w')) ∧
  clueRows (db w) `prefix_of` clueRows (db w') ∧
  voteRows (db w) `prefix_of` voteRows (db w') ∧
  nextRowId (db w) ≤ nextRowId (db w') ∧
  roomCodes (redis w') ⊆ roomCodes (redis w) ∧
  activeRooms (redis w') ⊆ activeRooms (redis w).
(** * Properties *)

(** ** Reasoning about calls *)

Lemma returns_ret {A} (a : A) w (Q : A → World → Prop) :
  Q a w → returns (mret a) w Q.
Proof. intros HQ. exists a, w. split; [reflexivity | exact HQ]. Qed.

Lemma returns_bind {A B} (m : M A) (f : A → M B) w (Q : B → World → Prop) :
  returns m w (λ a w', returns (f a) w' Q) → returns (m ≫= f) w Q.
Proof.
  intros (a & w' & Hm & b & w'' & Hf & HQ).
  exists b, w''. split; [| exact HQ].
  unfold mbind, M_bind. rewrite Hm. exact Hf.
Qed.

Lemma bind_run {A B} (m : M A) (f : A → M B) w a w' :
  m w = (Returned a, w') → (m ≫= f) w = f a w'.
Proof. intros Hm. unfold mbind, M_bind. by rewrite Hm. Qed.

Lemma returns_gets {A} (f : World → A) w (Q : A → World → Prop) :
  Q (f w) w → returns (gets f) w Q.
Proof. intros HQ. exists (f w), w. split; [reflexivity | exact HQ]. Qed.

Lemma returns_modify (f : World → World) w (Q : unit → World → Prop) :
  Q tt (f w) → returns (modify f) w Q.
Proof. intros HQ. exists tt, (f w). split; [reflexivity | exact HQ]. Qed.

Lemma returns_weaken {A} (m : M A) w (P Q : A → World → Prop) :
  returns m w P → (∀ a w', P a w' → Q a w') → returns m w Q.
Proof. intros (a & w' & Hm & HP) HPQ. exists a, w'. eauto. Qed.

Lemma returns_eval {A} (m : M A) w (Q : A → World → Prop) :
  returns m w Q → ∃ a, eval m w = Returned a ∧ Q a (exec m w).
Proof.
  intros (a & w' & Hm & HQ). exists a. unfold eval, exec. rewrite Hm. auto.
Qed.

(** ** Reading and writing a dictionary *)

Lemma get_own {V} (o : gmap string V) k v : o !! k = Some v → Js.get o k = Js.own v.
Proof. intros Hown. unfold Js.get. by rewrite Hown. Qed.

Lemma put_own {V} (o : gmap string V) k v0 v : o !! k = Some v0 → Js.put o k v = <[k := v]> o.
Proof. intros Hown. unfold Js.put. by rewrite Hown. Qed.

Lemma put_named {V} (o : gmap string V) k v : k ≠ "__proto__" → Js.put o k v = <[k := v]> o.
Proof.
  intros Hname. unfold Js.put. destruct (o !! k); [done |].
  by rewrite bool_decide_eq_false_2.
Qed.

Lemma truthy_member_spec votes id :
  truthy_member (Js.get votes id) = true ↔ reads_as_cast votes id.
Proof.
  unfold Js.get, reads_as_cast. destruct (votes !! id) as [target |]; simpl.
  - apply bool_decide_eq_true.
  - case_bool_decide; simpl; split; done.
Qed.

Lemma truthy_member_false votes id :
  truthy_member (Js.get votes id) = false ↔ ¬ reads_as_cast votes id.
Proof. rewrite <- truthy_member_spec. by destruct (truthy_member _). Qed.

(** A vote that is accepted is written as an own property. *)
Lemma put_unread votes id target :
  ¬ reads_as_cast votes id → Js.put votes id target = <[id := target]> votes.
Proof.
  unfold reads_as_cast, Js.put. destruct (votes !! id) as [previous |]; [done |].
  intros Hname. rewrite bool_decide_eq_false_2; [done |].
  intros ->. apply Hname. compute_done.
Qed.

(** ** [Math.random] and the indices drawn from it *)

Lemma RANDOM_DENOMINATOR_pos : (0 < Js.RANDOM_DENOMINATOR)%N.
Proof. reflexivity. Qed.

Lemma Math_random_returns w :
  returns Js.Math_random w (λ u w',
    (u < Js.RANDOM_DENOMINATOR)%N ∧ db w' = db w ∧ redis w' = redis w ∧ clock w' = clock w).
Proof.
  unfold returns, Js.Math_random. destruct (entropy w) as [| r rest].
  - eexists _, _. split; [reflexivity |]. repeat split.
  - eexists _, _. split; [reflexivity |]. repeat split.
    apply N.mod_lt. discriminate.
Qed.

(** Rounding moves a numerator by half a unit of its last kept bit at
    most, and a numerator of more than 53 bits is worth that many units. *)
Lemma round53_near p :
  (53 < N.size p)%N →
  let half := (2 ^ (N.size p - 54))%N in
  (Js.round53 p ≤ p + half)%N ∧ (half * 2 ^ 53 ≤ p)%N.
Proof.
  intros Hsize half.
  assert (N.size p - 53 - 1 = N.size p - 54)%N as Hexp by lia.
  assert (2 ^ (N.size p - 53) = 2 * half)%N as Hunit.
  { unfold half. replace (N.size p - 53)%N with (N.succ (N.size p - 54)) by lia.
    by rewrite N.pow_succ_r'. }
  assert (0 < half)%N as Hpos.
  { unfold half. apply N.neq_0_lt_0, N.pow_nonzero. discriminate. }
  split.
  - unfold Js.round53. rewrite (proj2 (N.leb_gt _ _)) by exact Hsize.
    cbv zeta. rewrite Hexp. fold half. rewrite Hunit. clearbody half.
    pose proof (N.div_mod p (2 * half) ltac:(lia)) as Hdiv.
    pose proof (N.mod_lt p (2 * half) ltac:(lia)) as Hmod.
    remember (p / (2 * half))%N as q eqn:Hq.
    remember (p mod (2 * half))%N as r eqn:Hr.
    destruct (N.ltb_spec r half); [nia |].
    destruct (N.ltb_spec half r); [nia |].
    destruct (N.even q); nia.
  - pose proof (N.size_le p) as Hle. rewrite N.succ_double_spec in Hle.
    replace (N.size p) with (N.succ (N.succ (N.size p - 54 + 52))) in Hle at 1 by lia.
    rewrite !N.pow_succ_r', N.pow_add_r in Hle. fold half in Hle.
    change (2 ^ 53)%N with (2 * 2 ^ 52)%N. lia.
Qed.

Lemma floor_times_lt u n :
  (u < Js.RANDOM_DENOMINATOR)%N → 0 < n → Js.floor_times u n < n.
Proof.
  intros Hu Hn. unfold Js.floor_times.
  assert (Js.round53 (u * N.of_nat n) / Js.RANDOM_DENOMINATOR < N.of_nat n)%N; [| lia].
  apply N.Div0.div_lt_upper_bound. unfold Js.RANDOM_DENOMINATOR in *.
  destruct (N.leb_spec (N.size (u * N.of_nat n)) 53) as [Hsmall | Hlarge].
  - unfold Js.round53. rewrite (proj2 (N.leb_le _ _)) by exact Hsmall.
    apply N.mul_lt_mono_pos_r; lia.
  - destruct (round53_near _ Hlarge) as [Hnear Hworth]. cbv zeta in *.
    assert (u * N.of_nat n + N.of_nat n ≤ 2 ^ 53 * N.of_nat n)%N as Hroom by nia.
    assert (2 ^ (N.size (u * N.of_nat n) - 54) < N.of_nat n)%N; [| lia].
    apply (N.mul_lt_mono_pos_r (2 ^ 53)); [done |]. lia.
Qed.

(** The index the shuffle swaps with is within the array. *)
Lemma shuffle_index_in_range u i (roles : list PlayerRole) :
  (u < Js.RANDOM_DENOMINATOR)%N → i < length roles →
  Js.floor_times u (i + 1) ≤ i ∧ Js.floor_times u (i + 1) < length roles.
Proof.
  intros Hu Hi. pose proof (floor_times_lt u (i + 1) Hu ltac:(lia)). lia.
Qed.

(** ** Swapping keeps the elements *)

Lemma swap_Permutation {A} i j (a : list A) : Js.swap i j a ≡ₚ a.
Proof.
  unfold Js.swap.
  destruct (a !! i) as [x |] eqn:Hi; [| reflexivity].
  destruct (a !! j) as [y |] eqn:Hj; [| reflexivity].
  by apply Permutation_insert_swap.
Qed.

Lemma swap_length {A} i j (a : list A) : length (Js.swap i j a) = length a.
Proof. apply Permutation_length, swap_Permutation. Qed.

(** ** The shuffle of [assignRoles] *)

Lemma shuffle_swaps_in_range i (roles : list PlayerRole) w :
  i < length roles → swaps_in_range i roles w.
Proof.
  revert roles w. induction i as [| i IH]; intros roles w Hi; simpl; [done |].
  destruct (Math_random_returns w) as (u & w' & -> & Hu & _).
  destruct (shuffle_index_in_range u (S i) roles Hu Hi) as [Hle Hlt].
  split; [done |]. split; [done |].
  apply IH. rewrite swap_length. lia.
Qed.

Lemma assignRoles_swaps_in_range playerCount w :
  let roles := [BLACK_HAT] ++ (if bool_decide (5 < playerCount) then [WHITE_HAT] else [])
               ++ replicate (playerCount - length
                    ([BLACK_HAT] ++ (if bool_decide (5 < playerCount) then [WHITE_HAT] else [])))
                    CIVILIAN in
  swaps_in_range (length roles - 1) roles w.
Proof.
  intros roles. apply shuffle_swaps_in_range. subst roles. simpl. lia.
Qed.


Lemma shuffle_returns i (roles : list PlayerRole) w :
  returns (shuffle i roles) w (λ shuffled w',
    shuffled ≡ₚ roles ∧ db w' = db w ∧ redis w' = redis w ∧ clock w' = clock w).
Proof.
  revert roles w. induction i as [| i IH]; intros roles w; simpl.
  - by apply returns_ret.
  - apply returns_bind.
    eapply returns_weaken; [apply Math_random_returns |].
    intros u w1 (_ & Hdb & Hredis & Hclock); simpl.
    eapply returns_weaken; [apply IH |].
    intros shuffled w2 (Hperm & Hdb2 & Hredis2 & Hclock2); simpl.
    split; [| by rewrite Hdb2, Hredis2, Hclock2].
    by rewrite Hperm, swap_Permutation.
Qed.

Lemma assignRoles_returns playerCount w :
  returns (assignRoles playerCount) w (λ roles w',
    roles ≡ₚ roles_unshuffled playerCount ∧
    db w' = db w ∧ redis w' = redis w ∧ clock w' = clock w).
Proof.
  unfold assignRoles.
  eapply returns_weaken; [apply shuffle_returns |].
  intros roles w' (Hperm & Hw); simpl. split; [| exact Hw].
  rewrite Hperm. unfold roles_unshuffled, GAME_CONFIG.WHITE_HAT_MIN_PLAYERS.
  change (6 - 1) with 5.
  destruct (bool_decide (5 < playerCount)); simpl.
  - by replace (playerCount - 1 - 1) with (playerCount - 2) by lia.
  - by replace (playerCount - 1 - 0) with (playerCount - 1) by lia.
Qed.

Global Instance count_role_Permutation role : Proper ((≡ₚ) ==> (=)) (count_role role).
Proof. intros l1 l2 Hperm. unfold count_role. by rewrite Hperm. Qed.

Lemma count_role_replicate role r n :
  count_role role (replicate n r) = if decide (r = role) then n else 0.
Proof.
  unfold count_role. induction n as [| n IH]; simpl.
  - by destruct (decide (r = role)).
  - rewrite filter_cons. destruct (decide (r = role)); simpl; by rewrite IH.
Qed.

Lemma count_role_cons role r roles :
  count_role role (r :: roles) = (if decide (r = role) then 1 else 0) + count_role role roles.
Proof. unfold count_role. rewrite filter_cons. by destruct (decide (r = role)). Qed.

Lemma count_role_app role roles1 roles2 :
  count_role role (roles1 ++ roles2) = count_role role roles1 + count_role role roles2.
Proof. unfold count_role. by rewrite filter_app, length_app. Qed.

Lemma roles_unshuffled_distribution n :
  1 ≤ n → role_distribution 5 n (roles_unshuffled n).
Proof.
  intros Hn. unfold role_distribution, roles_unshuffled.
  case_bool_decide as Hwhite.
  - rewrite !count_role_cons, !count_role_app, !count_role_cons, !count_role_replicate.
    simpl. rewrite length_replicate.
    repeat split; try done; lia.
  - rewrite !count_role_cons, !count_role_app, !count_role_replicate.
    simpl. rewrite length_replicate.
    repeat split; try done; try lia.
    intros _ Hin. apply elem_of_cons in Hin as [? | Hin]; [done |].
    by apply elem_of_replicate in Hin as [? _].
Qed.

Global Instance role_distribution_Permutation threshold n :
  Proper ((≡ₚ) ==> iff) (role_distribution threshold n).
Proof.
  intros l1 l2 Hperm. unfold role_distribution. by rewrite Hperm.
Qed.

(** ** Role assignment (C1) *)

(** C1, amended.  For every player count [n] with [4 <= n < 8] and whatever
    [Math.random] answers, [assignRoles] returns [n] roles: exactly one
    BLACK_HAT, exactly one WHITE_HAT if and only if [n > 5] (none otherwise),
    and CIVILIAN for all the others. *)
Theorem assignRoles_distribution (n : nat) (w : World) :
  4 ≤ n < 8 →
  ∃ roles, eval (assignRoles n) w = Returned roles ∧ role_distribution 5 n roles.
Proof.
  intros Hn.
  destruct (returns_eval _ _ _ (assignRoles_returns n w)) as (roles & Heval & Hperm & _).
  exists roles. split; [exact Heval |].
  rewrite Hperm. apply roles_unshuffled_distribution. lia.
Qed.

Lemma assignRoles_distribution_witness :
  ∃ roles, eval (assignRoles 7) empty_world = Returned roles ∧ role_distribution 5 7 roles.
Proof. apply (assignRoles_distribution 7 empty_world). lia. Defined.

(** C1 as stated fails for six players: the white hat is dealt although
    [6 > 6] does not hold. *)
Lemma assignRoles_six_players :
  ¬ ∃ roles, eval (assignRoles 6) empty_world = Returned roles ∧ role_distribution 6 6 roles.
Proof.
  intros (roles & Heval & _ & _ & _ & Hnone & _).
  vm_compute in Heval. injection Heval as <-.
  apply Hnone; [lia |]. set_solver.
Qed.

(** ** Win conditions (C3, C8) *)

Lemma some_role_has_role role ps : some_role role ps = true ↔ has_role role ps.
Proof.
  unfold some_role, has_role. rewrite existsb_exists. split.
  - intros (p & Hin & Hrole). exists p. split; [by apply list_elem_of_In |].
    by apply bool_decide_eq_true in Hrole.
  - intros (p & Hin & Hrole). exists p. split; [by apply list_elem_of_In |].
    by apply bool_decide_eq_true.
Qed.

Lemma checkWinConditions_unfold roomId state w gs :
  resolved_state roomId state w = Some gs →
  checkWinConditions roomId state w
  = (Returned (winReturn_result (winReturn (activePlayersOf roomId w))), w).
Proof.
  unfold resolved_state, checkWinConditions. intros Hgs.
  destruct state as [state |]; simplify_eq.
  - reflexivity.
  - unfold mbind, M_bind, getGameState, gets. rewrite Hgs. reflexivity.
Qed.

(** C3.  On a game state that exists, the win check reads the active players
    of the room and changes nothing; if at most two are active and a
    BLACK_HAT is among them it reports game over with winner BLACK_HAT,
    whoever the other player is; otherwise, if no active player is BLACK_HAT,
    it reports game over with winner CIVILIAN; otherwise the game goes on. *)
Theorem checkWinConditions_cases (roomId : Id) (state : option GameState) (w : World) :
  is_Some (resolved_state roomId state w) →
  ∃ result,
    checkWinConditions roomId state w = (Returned result, w) ∧
    let active := activePlayersOf roomId w in
    (length active ≤ 2 ∧ has_role BLACK_HAT active →
       result = {| gameOver := true; winner := Some BLACK_HAT |}) ∧
    (¬ (length active ≤ 2 ∧ has_role BLACK_HAT active) ∧ ¬ has_role BLACK_HAT active →
       result = {| gameOver := true; winner := Some CIVILIAN |}) ∧
    (¬ (length active ≤ 2 ∧ has_role BLACK_HAT active) ∧ has_role BLACK_HAT active →
       result = {| gameOver := false; winner := None |}).
Proof.
  intros [gs Hgs]. eexists. split; [by eapply checkWinConditions_unfold |].
  simpl. unfold winReturn.
  pose proof (some_role_has_role BLACK_HAT (activePlayersOf roomId w)) as Hblack.
  destruct (some_role BLACK_HAT (activePlayersOf roomId w)).
  - assert (has_role BLACK_HAT (activePlayersOf roomId w)) as Hhas by by apply Hblack.
    case_bool_decide; simpl; repeat split; intros [? ?]; tauto.
  - assert (¬ has_role BLACK_HAT (activePlayersOf roomId w)) as Hhas.
    { intros Hhas. apply Hblack in Hhas. discriminate. }
    rewrite andb_false_r. simpl. repeat split; intros [? ?]; tauto.
Qed.

Lemma checkWinConditions_cases_witness :
  ∃ result,
    checkWinConditions "room" (Some blank_state) endgame_world
    = (Returned result, endgame_world) ∧
    result = {| gameOver := true; winner := Some BLACK_HAT |}.
Proof.
  destruct (checkWinConditions_cases "room" (Some blank_state) endgame_world)
    as (result & Hcall & Hblack & _).
  - by eexists.
  - exists result. split; [exact Hcall |]. apply Hblack. split.
    + vm_compute. lia.
    + exists (player_of "p1" "room" true BLACK_HAT). split; [| reflexivity].
      apply list_elem_of_In. vm_compute. tauto.
Defined.

(** C8.  No list of active players reaches the return statement of the
    "no black hat and no white hat" check: whenever its test would hold, the
    check before it has returned winner CIVILIAN already; and the win check
    with that statement removed is the same function. *)
Theorem dead_branch_removable :
  (∀ activePlayers, winReturn activePlayers ≠ return_noBlackHatNoWhiteHat) ∧
  (∀ activePlayers,
     negb (some_role BLACK_HAT activePlayers) && negb (some_role WHITE_HAT activePlayers) = true →
     winReturn activePlayers = return_noBlackHat ∧
     winner (winReturn_result (winReturn activePlayers)) = Some CIVILIAN) ∧
  (∀ roomId state w,
     checkWinConditions_pruned roomId state w = checkWinConditions roomId state w).
Proof.
  assert (∀ activePlayers, winReturn_pruned activePlayers = winReturn activePlayers) as Hsame.
  { intros ps. unfold winReturn, winReturn_pruned.
    destruct (some_role BLACK_HAT ps), (bool_decide (length ps ≤ 2)); reflexivity. }
  split; [| split].
  - intros ps. unfold winReturn.
    destruct (some_role BLACK_HAT ps), (bool_decide (length ps ≤ 2)); discriminate.
  - intros ps Htest. unfold winReturn.
    destruct (some_role BLACK_HAT ps); [discriminate |].
    rewrite andb_false_r. done.
  - intros roomId state w. unfold checkWinConditions_pruned, checkWinConditions.
    unfold mbind, M_bind.
    destruct (match state with Some s => mret (Some s) | None => getGameState roomId end w)
      as [[[gs |] | e] w']; try reflexivity.
    destruct (Prisma.player_findMany_active roomId w') as [[ps | e] w'']; [| reflexivity].
    by rewrite Hsame.
Qed.

Lemma dead_branch_removable_witness :
  winReturn [] = return_noBlackHat ∧
  winner (winReturn_result (winReturn [])) = Some CIVILIAN.
Proof.
  destruct dead_branch_removable as (_ & Hcovered & _).
  apply (Hcovered []). reflexivity.
Defined.

(** ** The word-pair source *)

Lemma getRandomWordPair_none w :
  Prisma.wordPair_active w = [] → getRandomWordPair w = (Returned None, w).
Proof.
  intros Hnone. unfold getRandomWordPair, mbind, M_bind, Prisma.wordPair_count_active, gets.
  rewrite Hnone. reflexivity.
Qed.

Lemma getRandomWordPair_some w :
  Prisma.wordPair_active w ≠ [] →
  returns getRandomWordPair w (λ found w',
    (∃ wordPair, found = Some wordPair ∧ wordPair ∈ Prisma.wordPair_active w) ∧
    same_stores w w').
Proof.
  intros Hsome. unfold getRandomWordPair.
  apply returns_bind, returns_gets.
  destruct (decide (length (Prisma.wordPair_active w) = 0)) as [Hzero | Hpos].
  { by apply length_zero_iff_nil in Hzero. }
  apply returns_bind.
  eapply returns_weaken; [apply Math_random_returns |].
  intros u w1 (Hu & Hdb & Hredis & Hclock); simpl.
  apply returns_gets.
  assert (Prisma.wordPair_active w1 = Prisma.wordPair_active w) as Hactive
    by (unfold Prisma.wordPair_active; by rewrite Hdb).
  rewrite Hactive.
  destruct (lookup_lt_is_Some_2 (Prisma.wordPair_active w)
              (Js.floor_times u (length (Prisma.wordPair_active w)))) as [wordPair Hlookup].
  { apply floor_times_lt; [exact Hu | lia]. }
  split; [| done].
  exists wordPair. split; [exact Hlookup |]. by eapply list_elem_of_lookup_2.
Qed.

(** The source yields no pair exactly when no pair is active. *)
Lemma getRandomWordPair_none_iff w :
  eval getRandomWordPair w = Returned None ↔ Prisma.wordPair_active w = [].
Proof.
  split.
  - intros Heval. destruct (decide (Prisma.wordPair_active w = [])) as [| Hsome]; [done |].
    destruct (getRandomWordPair_some w Hsome)
      as (found & w' & Hcall & (wordPair & -> & _) & _).
    unfold eval in Heval. rewrite Hcall in Heval. discriminate.
  - intros Hnone. unfold eval. by rewrite getRandomWordPair_none.
Qed.

(** ** The random sort *)

Lemma random_comparator_returns w :
  returns Js.random_comparator w (λ _ w', same_stores w w').
Proof.
  unfold Js.random_comparator. apply returns_bind.
  eapply returns_weaken; [apply Math_random_returns |].
  intros u w1 (_ & Hstores); simpl. by apply returns_ret.
Qed.

Lemma same_stores_trans w1 w2 w3 :
  same_stores w1 w2 → same_stores w2 w3 → same_stores w1 w3.
Proof. unfold same_stores. intros (-> & -> & ->) (-> & -> & ->). done. Qed.

Lemma insert_by_returns {A} (x : A) sorted w :
  returns (Js.insert_by Js.random_comparator x sorted) w (λ inserted w',
    inserted ≡ₚ x :: sorted ∧ same_stores w w').
Proof.
  revert w. induction sorted as [| y rest IH]; intros w; simpl.
  - by apply returns_ret.
  - apply returns_bind.
    eapply returns_weaken; [apply random_comparator_returns |].
    intros c w1 Hstores1; simpl.
    destruct c; try by apply returns_ret.
    apply returns_bind.
    eapply returns_weaken; [apply IH |].
    intros tail w2 (Hperm & Hstores2); simpl.
    apply returns_ret. split; [| by eapply same_stores_trans].
    rewrite Hperm. apply Permutation_swap.
Qed.

Lemma sort_by_returns {A} (a : list A) w :
  returns (Js.sort_by Js.random_comparator a) w (λ sorted w',
    sorted ≡ₚ a ∧ same_stores w w').
Proof.
  revert w. induction a as [| x rest IH]; intros w; simpl.
  - by apply returns_ret.
  - apply returns_bind.
    eapply returns_weaken; [apply IH |].
    intros sorted w1 (Hperm & Hstores1); simpl.
    eapply returns_weaken; [apply insert_by_returns |].
    intros inserted w2 (Hperm2 & Hstores2); simpl.
    split; [| by eapply same_stores_trans].
    by rewrite Hperm2, Hperm.
Qed.

(** ** Round advancement (C7, C9) *)

Lemma activePlayersOf_same_players room w w' :
  players (db w') = players (db w) → activePlayersOf room w' = activePlayersOf room w.
Proof. unfold activePlayersOf. by intros ->. Qed.

(** What [startNextRound] does when the source yields a pair.  *)
Lemma startNextRound_advances room state w :
  Prisma.wordPair_active w ≠ [] →
  returns (startNextRound room state) w (λ _ w',
    ∃ wordPair order,
      wordPair ∈ Prisma.wordPair_active w ∧
      order ≡ₚ map player_id (activePlayersOf room w) ∧
      let state' :=
        {| roomId := roomId state; roundNumber := S (roundNumber state); phase := HINTING;
           turnOrder := order; currentTurnIndex := 0; clues := []; votes := ∅;
           eliminatedPlayers := eliminatedPlayers state; wordPairId := wp_id wordPair |} in
      redis w' = set_gameKeys (<[roomId state := state']> (gameKeys (redis w))) (redis w) ∧
      db w' = Prisma.set_rounds
                (rounds (db w) ++
                 [{| round_id := nextRowId (db w); round_roomId := room;
                     round_roundNumber := S (roundNumber state);
                     round_wordPairId := wp_id wordPair; round_phase := HINTING;
                     round_endedAt := None |}])
                {| rooms := rooms (db w); players := players (db w);
                   wordPairs := wordPairs (db w); rounds := rounds (db w);
                   clueRows := clueRows (db w); voteRows := voteRows (db w);
                   nextRowId := S (nextRowId (db w)) |} ∧
      clock w' = clock w).
Proof.
  intros Hsome. unfold startNextRound. apply returns_bind.
  eapply returns_weaken; [by apply getRandomWordPair_some |].
  intros found w1 ((wordPair & -> & Hin) & Hdb1 & Hredis1 & Hclock1); simpl.
  apply returns_bind, returns_gets, returns_bind.
  eapply returns_weaken; [apply sort_by_returns |].
  intros shuffled w2 (Hperm & Hdb2 & Hredis2 & Hclock2); simpl.
  apply returns_bind, returns_modify, returns_modify.
  exists wordPair, (map player_id shuffled). split; [exact Hin |]. split.
  { rewrite Hperm. unfold activePlayersOf. by rewrite Hdb1. }
  simpl. rewrite Hdb2, Hdb1, Hredis2, Hredis1, Hclock2, Hclock1. done.
Qed.

(** ** The end of the game *)

Lemma round_findLatest_elem room w round :
  eval (Prisma.round_findLatest room) w = Returned (Some round) → round ∈ rounds (db w).
Proof.
  unfold eval, Prisma.round_findLatest, gets. simpl. intros [= Hfold]. revert Hfold.
  assert (∀ (rs : list Round) best,
            (∀ b, best = Some b → b ∈ rounds (db w)) →
            (∀ r, r ∈ rs → r ∈ rounds (db w)) →
            ∀ found,
              foldl (λ best r,
                       if bool_decide (round_roomId r = room) then
                         match best with
                         | Some b => if round_roundNumber b <? round_roundNumber r
                                     then Some r else best
                         | None => Some r
                         end
                       else best) best rs = Some found →
              found ∈ rounds (db w)) as Hgen.
  { induction rs as [| r rs IH]; intros best Hbest Hrs found; simpl.
    - intros ->. by apply Hbest.
    - apply IH.
      + intros b. case_bool_decide; [| by apply Hbest].
        destruct best as [b0 |].
        * destruct (round_roundNumber b0 <? round_roundNumber r).
          -- intros [= <-]. apply Hrs. by left.
          -- by apply Hbest.
        * intros [= <-]. apply Hrs. by left.
      + intros r0 Hin. apply Hrs. by right. }
  apply Hgen; [done | done].
Qed.

Lemma find_is_Some {A} (f : A → bool) (l : list A) x :
  x ∈ l → f x = true → is_Some (find f l).
Proof.
  intros Hin Hfx. destruct (find f l) as [y |] eqn:Hfind; [by eexists |].
  apply list_elem_of_In in Hin.
  pose proof (find_none f l Hfind x Hin). congruence.
Qed.

Lemma finish_latest_round_returns {B} room w (k : unit → M B) (Q : B → World → Prop) :
  (∀ w', redis w' = redis w → players (db w') = players (db w) →
         wordPairs (db w') = wordPairs (db w) → rooms (db w') = rooms (db w) →
         returns (k tt) w' Q) →
  returns (round ← Prisma.round_findLatest room;
           match round with
           | Some round =>
               now ← gets clock;
               Prisma.round_update (round_id round)
                 (λ r, Prisma.round_set_endedAt now (Prisma.round_set_phase RESULT r))
           | None => mret tt
           end ≫= k) w Q.
Proof.
  intros Hk. apply returns_bind.
  destruct (eval (Prisma.round_findLatest room) w) as [[round |] | e] eqn:Hlatest.
  - exists (Some round), w. split.
    { unfold eval, Prisma.round_findLatest, gets in *. simpl in *. congruence. }
    apply returns_bind, returns_bind, returns_gets.
    unfold Prisma.round_update. apply returns_bind, returns_gets.
    destruct (find_is_Some (λ r0, bool_decide (round_id r0 = round_id round))
                (rounds (db w)) round) as [r0 Hr0].
    { by apply round_findLatest_elem with (room := room). }
    { by apply bool_decide_eq_true. }
    rewrite Hr0. apply returns_modify. by apply Hk.
  - exists None, w. split.
    { unfold eval, Prisma.round_findLatest, gets in *. simpl in *. congruence. }
    apply returns_bind, returns_ret. by apply Hk.
  - unfold eval, Prisma.round_findLatest, gets in Hlatest. discriminate.
Qed.

(** [endGame] throws when the room is not on record, before any write;
    otherwise it returns with the room FINISHED, the players as they were
    and the keys of the room removed from Redis. *)
Lemma endGame_outcome room state win w :
  match find (λ r, bool_decide (room_id r = room)) (rooms (db w)) with
  | None => endGame room state win w = (Thrown Prisma.P2025, w)
  | Some _ =>
      returns (endGame room state win) w (λ _ w',
        redis w' = redis_after_endGame room (redis w) ∧
        players (db w') = players (db w) ∧
        wordPairs (db w') = wordPairs (db w) ∧
        rooms (db w')
        = map (λ r, if bool_decide (room_id r = room)
                    then Prisma.room_set_status FINISHED r else r) (rooms (db w)))
  end.
Proof.
  destruct (find _ (rooms (db w))) as [r |] eqn:Hroom.
  - unfold endGame. apply returns_bind.
    unfold Prisma.room_update. apply returns_bind. unfold Prisma.room_findUnique.
    apply returns_gets. rewrite Hroom. apply returns_modify.
    apply finish_latest_round_returns.
    intros w2 Hredis Hplayers Hpairs Hrooms.
    apply returns_bind, returns_modify.
    unfold deleteRoomState. apply returns_bind, returns_modify, returns_modify.
    simpl. rewrite Hredis, Hplayers, Hpairs, Hrooms. done.
  - unfold endGame, Prisma.room_update, Prisma.room_findUnique, mbind, M_bind, gets.
    by rewrite Hroom.
Qed.

Lemma endGame_returned room state win w w' :
  endGame room state win w = (Returned tt, w') →
  redis w' = redis_after_endGame room (redis w) ∧ players (db w') = players (db w).
Proof.
  intros Hrun. pose proof (endGame_outcome room state win w) as Houtcome.
  destruct (find _ (rooms (db w))).
  - destruct Houtcome as ([] & w1 & Hrun1 & Hredis & Hplayers & _).
    rewrite Hrun in Hrun1. by injection Hrun1 as <-.
  - rewrite Hrun in Houtcome. discriminate.
Qed.

(** C7, amended.  Whenever the word-pair source yields a pair, round
    advancement increments the round number by exactly one, resets the phase
    to HINTING, empties the clue list and the vote map, sets the turn order
    to a permutation of exactly the currently active player ids, resets the
    turn cursor to 0 and leaves the eliminated-player list (and the players
    table) unchanged. *)
Theorem startNextRound_round_advanced (room : Id) (state : GameState) (w : World) :
  Prisma.wordPair_active w ≠ [] →
  returns (startNextRound room state) w (λ _ w',
    round_advanced room state w' ∧ players (db w') = players (db w)).
Proof.
  intros Hsome.
  eapply returns_weaken; [by apply startNextRound_advances |].
  intros [] w' (wordPair & order & _ & Hperm & Hredis & Hdb & _); simpl in *.
  assert (players (db w') = players (db w)) as Hplayers by by rewrite Hdb.
  split; [| exact Hplayers].
  eexists. split.
  { rewrite Hredis. simpl. apply lookup_insert_eq. }
  simpl. repeat split; try done.
  by rewrite (activePlayersOf_same_players _ _ _ Hplayers).
Qed.

Lemma startNextRound_round_advanced_witness :
  returns (startNextRound "room" tied_state) (example_world tied_state true) (λ _ w',
    round_advanced "room" tied_state w' ∧ players (db w') = example_players).
Proof.
  apply (startNextRound_round_advanced "room" tied_state (example_world tied_state true)).
  vm_compute. discriminate.
Defined.

(** C7 as stated fails when no word pair is active: the session stays at
    its round. *)
Lemma startNextRound_without_pair_not_advanced :
  ¬ round_advanced "room" tied_state (exec (startNextRound "room" tied_state) no_pair_world).
Proof.
  intros (state' & Hstored & Hround & _).
  vm_compute in Hstored. injection Hstored as <-. discriminate.
Qed.

(** C9.  If the word-pair source yields no pair, [startNextRound] returns
    normally and leaves the world (and with it every field of the stored
    game state) as it was; so does [resolveVotes] on a tie, and so does
    [submitWhiteHatGuess] on a wrong guess that leaves the game undecided:
    the session stays in its phase at its round number, and the caller is
    told that the game goes on. *)
Theorem startNextRound_without_pair (room : Id) (state : GameState) (w : World) :
  eval getRandomWordPair w = Returned None →
  startNextRound room state w = (Returned tt, w) ∧
  (gameKeys (redis w) !! room = Some state →
   1 < length (topTargets (voteCounts (votes state))) →
   resolveVotes room w
   = (Returned {| eliminatedPlayerId := None; eliminatedRole := None; isWhiteHat := false;
                  rr_gameOver := false; rr_winner := None |}, w)) ∧
  (∀ (rt : Js.Runtime) playerId guess wordPair,
     gameKeys (redis w) !! room = Some state →
     phase state = GUESSING →
     eval (Prisma.wordPair_findUnique (wordPairId state)) w = Returned (Some wordPair) →
     Js.toLowerCase (Js.trim guess) ≠ Js.toLowerCase (Js.trim (wp_wordA wordPair)) →
     winReturn (activePlayersOf room w) = return_continue →
     submitWhiteHatGuess room playerId guess w
     = (Returned {| gr_success := true; correct := false;
                    correctWord := Some (wp_wordA wordPair);
                    gr_gameOver := Some false; gr_winner := None |}, w)).
Proof.
  intros Hnone%getRandomWordPair_none_iff.
  assert (∀ state0, startNextRound room state0 w = (Returned tt, w)) as Hnext.
  { intros state0. unfold startNextRound, mbind, M_bind.
    by rewrite getRandomWordPair_none. }
  split; [apply Hnext | split].
  - intros Hstored Htie.
    unfold resolveVotes, mbind, M_bind, getGameState, gets. rewrite Hstored.
    destruct (decide _) as [_ | Hno]; [| done].
    by rewrite Hnext.
  - intros rt playerId guess wordPair Hstored Hphase Hpair Hwrong Hcontinue.
    unfold submitWhiteHatGuess, mbind, M_bind, getGameState, gets. rewrite Hstored.
    destruct (decide (phase state ≠ GUESSING)) as [| _]; [done |].
    unfold eval, Prisma.wordPair_findUnique, gets in Hpair. simpl in Hpair.
    injection Hpair as Hpair.
    unfold Prisma.wordPair_findUnique, gets. rewrite Hpair.
    rewrite bool_decide_eq_false_2 by exact Hwrong.
    rewrite (checkWinConditions_unfold room (Some state) w state) by done.
    rewrite Hcontinue. simpl. by rewrite Hnext.
Qed.

Lemma startNextRound_without_pair_witness :
  (startNextRound "room" tied_state no_pair_world = (Returned tt, no_pair_world) ∧
   resolveVotes "room" no_pair_world
   = (Returned {| eliminatedPlayerId := None; eliminatedRole := None; isWhiteHat := false;
                  rr_gameOver := false; rr_winner := None |}, no_pair_world)) ∧
  @submitWhiteHatGuess Js.vietnamese_runtime "room" "p5" Cho (guessing_world false)
  = (Returned {| gr_success := true; correct := false; correctWord := Some Meo;
                 gr_gameOver := Some false; gr_winner := None |}, guessing_world false).
Proof.
  split.
  - destruct (startNextRound_without_pair "room" tied_state no_pair_world)
      as (Hnext & Htie & _).
    + reflexivity.
    + split; [exact Hnext |]. apply Htie.
      * reflexivity.
      * vm_compute. lia.
  - destruct (startNextRound_without_pair "room" guessing_state (guessing_world false))
      as (_ & _ & Hguess).
    + reflexivity.
    + apply (Hguess Js.vietnamese_runtime "p5" Cho
               {| wp_id := "wp"; wp_wordA := Meo; wp_wordB := Cho;
                  wp_categoryId := "animals"; wp_isActive := false |}).
      * reflexivity.
      * reflexivity.
      * reflexivity.
      * vm_compute. discriminate.
      * reflexivity.
Defined.

(** ** Vote submission (C6, C10) *)

(** A voter whose recorded target is a non-empty string is turned away, and
    nothing is written. *)
Lemma submitVote_rejects_revote room voter target w state previous :
  gameKeys (redis w) !! room = Some state →
  votes state !! voter = Some previous →
  previous ≠ "" →
  ∃ result, submitVote room voter target w = (Returned result, w) ∧ sv_success result = false.
Proof.
  intros Hstored Hvote Hprevious.
  unfold submitVote, mbind, M_bind, getGameState, gets. rewrite Hstored.
  destruct (decide (phase state ≠ VOTING)); [by eexists |].
  destruct (includes (eliminatedPlayers state) voter); [by eexists |].
  rewrite (get_own _ _ _ Hvote). simpl. rewrite bool_decide_eq_true_2 by exact Hprevious.
  by eexists.
Qed.

(** C10.  The guard against voting twice tests the stored target for
    truthiness.  A voter whose recorded target is the empty string votes
    again with success (the phase being VOTING, the voter not eliminated and
    the round on record) and the stored vote is overwritten; a voter whose
    recorded target is not empty is rejected and nothing changes. *)
Theorem submitVote_truthiness_guard
    (room voter target : Id) (w : World) (state : GameState) (round : Round) :
  gameKeys (redis w) !! room = Some state →
  phase state = VOTING →
  voter ∉ eliminatedPlayers state →
  eval (Prisma.round_findFirst room (roundNumber state)) w = Returned (Some round) →
  (votes state !! voter = Some "" →
   ∃ allVoted w',
     submitVote room voter target w
     = (Returned {| sv_success := true; sv_message := None; sv_allVoted := Some allVoted |}, w') ∧
     gameKeys (redis w') !! roomId state
     = Some (set_votes (<[voter := target]> (votes state)) state) ∧
     voteRows (db w')
     = voteRows (db w) ++ [{| vr_roundId := round_id round; vr_voterId := voter;
                              vr_targetId := target |}]) ∧
  (∀ previous, votes state !! voter = Some previous → previous ≠ "" →
   submitVote room voter target w
   = (Returned (submitVote_failure "Bạn đã bỏ phiếu rồi."), w)).
Proof.
  intros Hstored Hphase Hactive Hround.
  unfold eval, Prisma.round_findFirst, gets in Hround. simpl in Hround.
  injection Hround as Hround.
  split.
  - intros Hvote.
    unfold submitVote, mbind, M_bind, getGameState, gets. rewrite Hstored.
    destruct (decide (phase state ≠ VOTING)) as [| _]; [done |].
    unfold includes. rewrite bool_decide_eq_false_2 by exact Hactive.
    rewrite (get_own _ _ _ Hvote), (put_own _ _ _ _ Hvote). simpl.
    unfold Prisma.round_findFirst, gets. rewrite Hround. simpl.
    eexists _, _. split; [reflexivity |]. simpl. split; [| reflexivity].
    apply lookup_insert_eq.
  - intros previous Hvote Hprevious.
    unfold submitVote, mbind, M_bind, getGameState, gets. rewrite Hstored.
    destruct (decide (phase state ≠ VOTING)) as [| _]; [done |].
    unfold includes. rewrite bool_decide_eq_false_2 by exact Hactive.
    rewrite (get_own _ _ _ Hvote). simpl.
    by rewrite bool_decide_eq_true_2 by exact Hprevious.
Qed.

Lemma submitVote_truthiness_guard_witness :
  (∃ allVoted w',
     submitVote "room" "p1" "p3" (example_world empty_vote_state true)
     = (Returned {| sv_success := true; sv_message := None; sv_allVoted := Some allVoted |}, w') ∧
     gameKeys (redis w') !! "room"
     = Some (set_votes (<["p1" := "p3"]> {[ "p1" := "" ]}) empty_vote_state) ∧
     voteRows (db w') = [{| vr_roundId := 0; vr_voterId := "p1"; vr_targetId := "p3" |}]) ∧
  submitVote "room" "p1" "p3" (example_world tied_state true)
  = (Returned (submitVote_failure "Bạn đã bỏ phiếu rồi."), example_world tied_state true).
Proof.
  split.
  - apply (submitVote_truthiness_guard "room" "p1" "p3" (example_world empty_vote_state true)
             empty_vote_state
             {| round_id := 0; round_roomId := "room"; round_roundNumber := 3;
                round_wordPairId := "wp"; round_phase := VOTING; round_endedAt := None |}).
    + reflexivity.
    + reflexivity.
    + compute_done.
    + reflexivity.
    + reflexivity.
  - apply (submitVote_truthiness_guard "room" "p1" "p3" (example_world tied_state true)
             tied_state
             {| round_id := 0; round_roomId := "room"; round_roundNumber := 3;
                round_wordPairId := "wp"; round_phase := VOTING; round_endedAt := None |}
          ) with (previous := "p3").
    + reflexivity.
    + reflexivity.
    + compute_done.
    + reflexivity.
    + reflexivity.
    + discriminate.
Defined.

(** C6 fails on the code.  The first player votes for the empty string and
    then for the third player: both calls succeed, the second overwrites the
    recorded vote, and the history holds two votes of the same voter in the
    round. *)
Theorem submitVote_twice_accepted :
  let w0 := example_world voting_state true in
  let w1 := exec (submitVote "room" "p1" "") w0 in
  let w2 := exec (submitVote "room" "p1" "p3") w1 in
  eval (submitVote "room" "p1" "") w0
  = Returned {| sv_success := true; sv_message := None; sv_allVoted := Some false |} ∧
  votes <$> gameKeys (redis w1) !! "room" = Some {[ "p1" := "" ]} ∧
  eval (submitVote "room" "p1" "p3") w1
  = Returned {| sv_success := true; sv_message := None; sv_allVoted := Some false |} ∧
  votes <$> gameKeys (redis w2) !! "room" = Some {[ "p1" := "p3" ]} ∧
  voteRows (db w2)
  = [{| vr_roundId := 0; vr_voterId := "p1"; vr_targetId := "" |};
     {| vr_roundId := 0; vr_voterId := "p1"; vr_targetId := "p3" |}].
Proof. vm_compute. repeat split. Qed.

(** ** The guess of the white hat (C4) *)

Lemma submitWhiteHatGuess_unfold `{rt : Js.Runtime} room playerId guess w state wordPair :
  gameKeys (redis w) !! room = Some state →
  phase state = GUESSING →
  eval (Prisma.wordPair_findUnique (wordPairId state)) w = Returned (Some wordPair) →
  submitWhiteHatGuess room playerId guess w
  = (if bool_decide (guess_matches guess (wp_wordA wordPair)) then
       _ ← endGame room state (Some WHITE_HAT);
       mret {| gr_success := true; correct := true; correctWord := None;
               gr_gameOver := Some true; gr_winner := Some WHITE_HAT |}
     else
       let winResult := winReturn_result (winReturn (activePlayersOf room w)) in
       if gameOver winResult then
         _ ← endGame room state (winner winResult);
         mret {| gr_success := true; correct := false;
                 correctWord := Some (wp_wordA wordPair);
                 gr_gameOver := Some true; gr_winner := winner winResult |}
       else
         _ ← startNextRound room state;
         mret {| gr_success := true; correct := false;
                 correctWord := Some (wp_wordA wordPair);
                 gr_gameOver := Some false; gr_winner := None |}) w.
Proof.
  intros Hstored Hphase Hpair.
  unfold eval, Prisma.wordPair_findUnique, gets in Hpair. simpl in Hpair.
  injection Hpair as Hpair.
  unfold submitWhiteHatGuess.
  unfold mbind at 1. unfold M_bind at 1. unfold getGameState, gets. rewrite Hstored.
  destruct (decide (phase state ≠ GUESSING)) as [| _]; [done |].
  unfold mbind at 1. unfold M_bind at 1.
  unfold Prisma.wordPair_findUnique, gets. rewrite Hpair.
  destruct (decide (guess_matches guess (wp_wordA wordPair))) as [Hmatch | Hwrong].
  - by rewrite !bool_decide_eq_true_2 by exact Hmatch.
  - rewrite !bool_decide_eq_false_2 by exact Hwrong.
    unfold mbind at 1. unfold M_bind at 1.
    by rewrite (checkWinConditions_unfold room (Some state) w state).
Qed.

(** C4, amended.  In phase GUESSING with the word pair on record, the guess
    is judged correct if and only if, trimmed and lowercased, it equals
    [wordA] trimmed and lowercased.  A correct guess ends the game at once
    with winner WHITE_HAT, and its response carries no correct word; a wrong
    guess has the win conditions evaluated, ends the game if one is met and
    starts the next round otherwise, and its response carries [wordA] either
    way.  With the case table of the Vietnamese alphabet, the padded, the
    lowercase and the uppercase spelling all match the stored word. *)
Theorem submitWhiteHatGuess_cases `{rt : Js.Runtime}
    (room playerId : Id) (guess : Text) (w : World) (state : GameState) (wordPair : WordPair) :
  gameKeys (redis w) !! room = Some state →
  phase state = GUESSING →
  eval (Prisma.wordPair_findUnique (wordPairId state)) w = Returned (Some wordPair) →
  (guess_matches guess (wp_wordA wordPair) →
   submitWhiteHatGuess room playerId guess w
   = (_ ← endGame room state (Some WHITE_HAT);
      mret {| gr_success := true; correct := true; correctWord := None;
              gr_gameOver := Some true; gr_winner := Some WHITE_HAT |}) w) ∧
  (¬ guess_matches guess (wp_wordA wordPair) →
   submitWhiteHatGuess room playerId guess w
   = (winResult ← checkWinConditions room (Some state);
      if gameOver winResult then
        _ ← endGame room state (winner winResult);
        mret {| gr_success := true; correct := false;
                correctWord := Some (wp_wordA wordPair);
                gr_gameOver := Some true; gr_winner := winner winResult |}
      else
        _ ← startNextRound room state;
        mret {| gr_success := true; correct := false;
                correctWord := Some (wp_wordA wordPair);
                gr_gameOver := Some false; gr_winner := None |}) w) ∧
  (∀ response w',
     submitWhiteHatGuess room playerId guess w = (Returned response, w') →
     (correct response = true ↔ guess_matches guess (wp_wordA wordPair)) ∧
     (correct response = true →
        gr_gameOver response = Some true ∧ gr_winner response = Some WHITE_HAT ∧
        correctWord response = None ∧ gameKeys (redis w') !! room = None) ∧
     (correct response = false → correctWord response = Some (wp_wordA wordPair))) ∧
  (@guess_matches Js.vietnamese_runtime Meo_padded Meo ∧
   @guess_matches Js.vietnamese_runtime Meo_lower Meo ∧
   @guess_matches Js.vietnamese_runtime Meo_upper Meo).
Proof.
  intros Hstored Hphase Hpair.
  pose proof (submitWhiteHatGuess_unfold room playerId guess w state wordPair
                Hstored Hphase Hpair) as Hcall.
  split; [| split; [| split]].
  - intros Hmatch. rewrite Hcall. by rewrite bool_decide_eq_true_2.
  - intros Hwrong. rewrite Hcall. rewrite bool_decide_eq_false_2 by done.
    symmetry. unfold mbind at 1. unfold M_bind at 1.
    by rewrite (checkWinConditions_unfold room (Some state) w state).
  - intros response w'. rewrite Hcall. clear Hcall. case_bool_decide as Hmatch.
    + unfold mbind, M_bind. intros Hrun.
      destruct (endGame room state (Some WHITE_HAT) w) as [[[] | e] w1] eqn:Hend;
        [| discriminate].
      injection Hrun as <- <-. simpl.
      split; [done |]. split; [| done]. intros _. repeat split.
      apply endGame_returned in Hend as [-> _]. apply lookup_delete_eq.
    + simpl. destruct (gameOver _); unfold mbind, M_bind; intros Hrun.
      * destruct (endGame room state _ w) as [[[] | e] w1]; [| discriminate].
        injection Hrun as <- <-. simpl. split; [| done]. split; [done | tauto].
      * destruct (startNextRound room state w) as [[[] | e] w1]; [| discriminate].
        injection Hrun as <- <-. simpl. split; [| done]. split; [done | tauto].
  - repeat split.
Qed.

Lemma submitWhiteHatGuess_cases_witness :
  eval (@submitWhiteHatGuess Js.vietnamese_runtime "room" "p5" Meo_upper) (guessing_world true)
  = Returned {| gr_success := true; correct := true; correctWord := None;
                gr_gameOver := Some true; gr_winner := Some WHITE_HAT |} ∧
  eval (@submitWhiteHatGuess Js.vietnamese_runtime "room" "p5" Cho) (guessing_world true)
  = Returned {| gr_success := true; correct := false; correctWord := Some Meo;
                gr_gameOver := Some false; gr_winner := None |}.
Proof.
  destruct (@submitWhiteHatGuess_cases Js.vietnamese_runtime "room" "p5" Meo_upper
              (guessing_world true) guessing_state (example_pair true))
    as (Hcorrect & _); [reflexivity | reflexivity | reflexivity |].
  destruct (@submitWhiteHatGuess_cases Js.vietnamese_runtime "room" "p5" Cho
              (guessing_world true) guessing_state (example_pair true))
    as (_ & Hwrong & _); [reflexivity | reflexivity | reflexivity |].
  unfold eval. rewrite Hcorrect by reflexivity.
  rewrite Hwrong by (vm_compute; discriminate).
  split; vm_compute; reflexivity.
Defined.

(** C4 as stated fails for a correct guess: the response carries no correct
    word. *)
Lemma correct_guess_reveals_no_word :
  @guess_matches Js.vietnamese_runtime Meo_lower Meo ∧
  ¬ @response_reveals Js.vietnamese_runtime "room" "p5" Meo_lower (guessing_world true) Meo.
Proof.
  split; [reflexivity |].
  intros (response & Heval & Hword).
  vm_compute in Heval. injection Heval as <-. discriminate.
Qed.
(** ** The tally of [resolveVotes] *)

Lemma tally_lookup (entries : list (string * string)) (target : Id) :
  foldr (uncurry (λ (_ : string) targetId (counts : gmap string Count),
                    Js.put counts targetId
                      match Js.get counts targetId with
                      | Js.own (a_number n) => a_number (n + 1)
                      | Js.own a_string => a_string
                      | Js.inherited => a_string
                      | Js.undefined => a_number 1
                      end))
        ∅ entries !! target
  = if decide (length (filter (λ entry, entry.2 = target) entries) = 0
               ∨ target = "__proto__") then None
    else if decide (target ∈ Js.Object_prototype) then Some a_string
    else Some (a_number (length (filter (λ entry, entry.2 = target) entries))).
Proof.
  revert target. induction entries as [| [voter t] entries IH]; intros target.
  - cbn [foldr]. rewrite lookup_empty.
    destruct (decide _) as [| Hno]; [done |]. destruct Hno. by left.
  - cbn [foldr uncurry]. rewrite filter_cons. cbn [snd].
    destruct (decide (t = "__proto__")) as [-> | Hname].
    + unfold Js.put at 1. rewrite (IH "__proto__").
      destruct (decide (_ ∨ "__proto__" = "__proto__")) as [_ | Hno];
        [| destruct Hno; by right].
      rewrite bool_decide_eq_true_2 by done. rewrite IH.
      destruct (decide ("__proto__" = target)) as [<- | Hother]; [| done].
      destruct (decide (_ ∨ "__proto__" = "__proto__")) as [_ | Hno];
        [| destruct Hno; by right].
      destruct (decide (_ ∨ "__proto__" = "__proto__")) as [_ | Hno];
        [done | destruct Hno; by right].
    + rewrite put_named by done.
      destruct (decide (t = target)) as [-> | Hother].
      * rewrite lookup_insert_eq. unfold Js.get. rewrite IH. cbn [length].
        destruct (decide (S _ = 0 ∨ target = "__proto__")) as [[? | ?] | _]; [lia | done |].
        destruct (decide (length _ = 0 ∨ target = "__proto__")) as [[Hnone | ?] | Hsome];
          [| done |].
        -- rewrite Hnone. case_bool_decide; by destruct (decide _).
        -- destruct (decide (target ∈ Js.Object_prototype)); [done |].
           do 2 f_equal. lia.
      * by rewrite lookup_insert_ne by done.
Qed.

Lemma voteCounts_lookup votes target :
  voteCounts votes !! target
  = if decide (votes_for target votes = 0 ∨ target = "__proto__") then None
    else if decide (target ∈ Js.Object_prototype) then Some a_string
    else Some (a_number (votes_for target votes)).
Proof. unfold voteCounts. rewrite map_fold_foldr. apply tally_lookup. Qed.

(** A count that is a number is the number of votes for a name that objects
    do not inherit; a count that is a string spoils the tally. *)
Lemma voteCounts_number votes target n :
  voteCounts votes !! target = Some (a_number n) →
  n = votes_for target votes ∧ 0 < n ∧ counted target ∧ target ∉ Js.Object_prototype.
Proof.
  rewrite voteCounts_lookup.
  destruct (decide _) as [| Hsome]; [done |].
  destruct (decide _); [done |]. intros [= <-].
  split; [done |]. split; [lia |]. split; [| done]. intros ->. by destruct Hsome; right.
Qed.

Lemma votes_for_recorded votes voter target :
  votes !! voter = Some target → 0 < votes_for target votes.
Proof.
  intros Hvote%elem_of_map_to_list. unfold votes_for.
  assert ((voter, target) ∈ filter (λ entry, entry.2 = target) (map_to_list votes)) as Hin
    by by apply list_elem_of_filter.
  destruct (filter _ _); [by apply elem_of_nil in Hin | simpl; lia].
Qed.

Lemma votes_for_positive votes target :
  0 < votes_for target votes → ∃ voter, votes !! voter = Some target.
Proof.
  unfold votes_for. intros Hpos.
  destruct (filter _ _) as [| [voter t] rest] eqn:Hfilter; [simpl in Hpos; lia |].
  assert ((voter, t) ∈ filter (λ entry, entry.2 = target) (map_to_list votes)) as Hin
    by (rewrite Hfilter; apply list_elem_of_here).
  apply list_elem_of_filter in Hin as [Htarget Hin]. simpl in Htarget. subst t.
  exists voter. by apply elem_of_map_to_list.
Qed.

Lemma voteCounts_string votes target :
  voteCounts votes !! target = Some a_string → spoiled votes.
Proof.
  rewrite voteCounts_lookup.
  destruct (decide _) as [| Hsome]; [done |].
  destruct (decide _) as [Hinherited |]; [| done]. intros _.
  destruct (votes_for_positive votes target) as [voter Hvote]; [lia |].
  exists voter, target. split; [done |]. split; [done |]. intros ->. by destruct Hsome; right.
Qed.

Lemma spoiled_voteCounts votes :
  spoiled votes → ∃ target, voteCounts votes !! target = Some a_string.
Proof.
  intros (voter & target & Hvote & Hinherited & Hname). exists target.
  rewrite voteCounts_lookup. pose proof (votes_for_recorded _ _ _ Hvote).
  rewrite decide_False by (intros [? | ?]; [lia | done]).
  by rewrite decide_True.
Qed.

(** *** The maximum *)

Lemma maximum_NaN (values : list Count) :
  foldr (λ c best, match c, best with
                   | a_number n, Some m => Some (Nat.max n m)
                   | _, _ => None
                   end) (Some 0) values = None
  ↔ a_string ∈ values.
Proof.
  induction values as [| c values IH]; simpl.
  - split; [done | by intros ?%elem_of_nil].
  - rewrite elem_of_cons. destruct c as [n |].
    + destruct (foldr _ _ values).
      * split; [done |]. intros [? | Hin]; [done |]. by apply IH in Hin.
      * split; [| done]. intros _. right. by apply IH.
    + split; [by left | done].
Qed.

Lemma maximum_upper (values : list Count) m n :
  foldr (λ c best, match c, best with
                   | a_number n, Some m => Some (Nat.max n m)
                   | _, _ => None
                   end) (Some 0) values = Some m →
  a_number n ∈ values → n ≤ m.
Proof.
  revert m. induction values as [| c values IH]; intros m; simpl.
  - by intros _ ?%elem_of_nil.
  - destruct c as [k |]; [| done].
    destruct (foldr _ _ values) as [best |]; [| done].
    intros [= <-] [[= ->] | Hin]%elem_of_cons; [lia |].
    specialize (IH best eq_refl Hin). lia.
Qed.

Lemma maximum_reached (values : list Count) m :
  foldr (λ c best, match c, best with
                   | a_number n, Some m => Some (Nat.max n m)
                   | _, _ => None
                   end) (Some 0) values = Some m →
  values ≠ [] → a_number m ∈ values.
Proof.
  revert m. induction values as [| c values IH]; intros m; [done |]. simpl.
  destruct c as [k |]; [| done].
  destruct (foldr _ _ values) as [best |] eqn:Hbest; [| done].
  intros [= <-] _.
  destruct values as [| c' values].
  - simpl in Hbest. injection Hbest as <-. rewrite Nat.max_0_r. apply list_elem_of_here.
  - destruct (Nat.max_spec k best) as [[_ ->] | [_ ->]].
    + apply list_elem_of_further. by apply IH.
    + apply list_elem_of_here.
Qed.

Lemma maxVotes_NaN counts :
  maxVotes counts = None ↔ ∃ target, counts !! target = Some a_string.
Proof.
  unfold maxVotes. rewrite maximum_NaN, list_elem_of_fmap. split.
  - intros ([target c] & -> & Hin). exists target. by apply elem_of_map_to_list.
  - intros [target Hlookup]. exists (target, a_string). split; [done |].
    by apply elem_of_map_to_list.
Qed.

Lemma maxVotes_upper counts target n m :
  maxVotes counts = Some m → counts !! target = Some (a_number n) → n ≤ m.
Proof.
  intros Hmax Hlookup%elem_of_map_to_list. eapply maximum_upper; [exact Hmax |].
  apply list_elem_of_fmap. by exists (target, a_number n).
Qed.

Lemma maxVotes_attained counts m :
  maxVotes counts = Some m → counts ≠ ∅ → ∃ target, counts !! target = Some (a_number m).
Proof.
  intros Hmax Hne.
  assert (a_number m ∈ (map_to_list counts).*2) as Hin.
  { apply maximum_reached; [exact Hmax |].
    intros Hnil%fmap_nil_inv. by apply map_to_list_empty_iff in Hnil. }
  apply list_elem_of_fmap in Hin as ([target c] & Heq & Hin). simpl in Heq. subst c.
  exists target. by apply elem_of_map_to_list.
Qed.

Lemma maxVotes_spoiled votes : maxVotes (voteCounts votes) = None ↔ spoiled votes.
Proof.
  rewrite maxVotes_NaN. split.
  - intros [target Hlookup]. by eapply voteCounts_string.
  - apply spoiled_voteCounts.
Qed.

(** *** The top targets *)

Lemma elem_of_topTargets counts target :
  target ∈ topTargets counts ↔
  ∃ m, maxVotes counts = Some m ∧ counts !! target = Some (a_number m).
Proof.
  unfold topTargets. rewrite list_elem_of_fmap. split.
  - intros ([t c] & -> & [Hmax Hin]%list_elem_of_filter). simpl in *.
    apply elem_of_map_to_list in Hin. unfold strictly_equal in Hmax.
    destruct c as [n |]; [| done]. destruct (maxVotes counts) as [m |]; [| done].
    apply bool_decide_eq_true in Hmax as ->. by exists m.
  - intros (m & Hmax & Hlookup). exists (target, a_number m). split; [done |].
    apply list_elem_of_filter. split; [| by apply elem_of_map_to_list].
    simpl. rewrite Hmax. simpl. by apply bool_decide_eq_true.
Qed.

Lemma NoDup_topTargets counts : NoDup (topTargets counts).
Proof.
  unfold topTargets.
  eapply sublist_NoDup; [apply (NoDup_fst_map_to_list counts) |].
  apply fmap_sublist, sublist_filter.
Qed.

(** The tally in the words of the specification, as far as they hold: a
    target is a top target exactly when the tally is not spoiled, the target
    is counted and received a vote, and no counted target received more. *)
Lemma topTargets_spec votes target :
  target ∈ topTargets (voteCounts votes) ↔
  ¬ spoiled votes ∧ counted target ∧ 0 < votes_for target votes ∧
  ∀ other, counted other → votes_for other votes ≤ votes_for target votes.
Proof.
  rewrite elem_of_topTargets. split.
  - intros (m & Hmax & Htop).
    destruct (voteCounts_number _ _ _ Htop) as (-> & Hpos & Hcounted & _).
    split; [by rewrite <- maxVotes_spoiled, Hmax |].
    split; [done |]. split; [done |]. intros other Hother.
    destruct (decide (votes_for other votes = 0)) as [-> | Hvotes]; [lia |].
    pose proof (voteCounts_lookup votes other) as Hlookup.
    rewrite decide_False in Hlookup by (intros [? | ?]; done).
    destruct (decide (other ∈ Js.Object_prototype)).
    + assert (maxVotes (voteCounts votes) = None) as Hnan
        by (apply maxVotes_NaN; by exists other).
      congruence.
    + by apply (maxVotes_upper _ other _ _ Hmax).
  - intros (Hclean & Hcounted & Hpos & Hmost).
    destruct (maxVotes (voteCounts votes)) as [m |] eqn:Hmax.
    2: { by apply maxVotes_spoiled in Hmax. }
    assert (voteCounts votes !! target = Some (a_number (votes_for target votes)))
      as Hlookup.
    { rewrite voteCounts_lookup.
      rewrite decide_False by (intros [? | ?]; [lia | done]).
      destruct (decide (target ∈ Js.Object_prototype)) as [Hinherited |]; [| done].
      destruct Hclean. apply votes_for_positive in Hpos as [voter Hvote].
      by exists voter, target. }
    destruct (maxVotes_attained (voteCounts votes) m Hmax) as [top Htop].
    { intros Hempty. by rewrite Hempty, lookup_empty in Hlookup. }
    destruct (voteCounts_number _ _ _ Htop) as (Hm & _ & Htopcounted & _).
    pose proof (maxVotes_upper _ _ _ _ Hmax Hlookup). specialize (Hmost top Htopcounted).
    exists m. split; [done |]. rewrite Hlookup. do 2 f_equal. lia.
Qed.

(** No target is collected exactly when the tally is spoiled or every vote,
    if there is one, names [__proto__]. *)
Lemma topTargets_nil_iff votes :
  topTargets (voteCounts votes) = [] ↔ no_top_target votes.
Proof.
  split.
  - intros Hnil.
    destruct (maxVotes (voteCounts votes)) as [m |] eqn:Hmax.
    2: { left. by apply maxVotes_spoiled. }
    right. intros voter target Hvote.
    destruct (decide (target = "__proto__")) as [| Hname]; [done |].
    exfalso.
    destruct (maxVotes_attained (voteCounts votes) m Hmax) as [top Htop].
    { intros Hempty. pose proof (voteCounts_lookup votes target) as Hlookup.
      rewrite Hempty, lookup_empty in Hlookup.
      pose proof (votes_for_recorded _ _ _ Hvote).
      rewrite decide_False in Hlookup by (intros [? | ?]; [lia | done]).
      by destruct (decide _). }
    assert (top ∈ topTargets (voteCounts votes)) as Hin
      by (apply elem_of_topTargets; by exists m).
    rewrite Hnil in Hin. by apply elem_of_nil in Hin.
  - intros Hnone. apply elem_of_nil_inv. intros target Hin.
    apply topTargets_spec in Hin as (Hclean & Hcounted & Hpos & _).
    destruct Hnone as [Hspoiled | Hproto]; [done |].
    apply votes_for_positive in Hpos as [voter Hvote]. by apply Hproto in Hvote.
Qed.

(** A top target was voted for. *)
Lemma topTargets_voted votes target :
  target ∈ topTargets (voteCounts votes) → ∃ voter, votes !! voter = Some target.
Proof. intros (_ & _ & Hpos & _)%topTargets_spec. by apply votes_for_positive. Qed.

(** On an empty ballot nobody is collected. *)
Lemma topTargets_empty : topTargets (voteCounts ∅) = [].
Proof. reflexivity. Qed.

(** When no vote names a member that objects inherit, somebody is collected
    as soon as a vote was cast. *)
Lemma topTargets_ordinary votes :
  (∀ voter target, votes !! voter = Some target → target ∉ Js.Object_prototype) →
  votes ≠ ∅ → topTargets (voteCounts votes) ≠ [].
Proof.
  intros Hordinary Hne Hnil. apply topTargets_nil_iff in Hnil.
  apply map_choose in Hne as (voter & target & Hvote).
  destruct Hnil as [(v & t & Hv & Hinherited & _) | Hproto].
  - by apply (Hordinary v t).
  - apply (Hordinary voter target Hvote). rewrite (Hproto voter target Hvote). compute_done.
Qed.

(** ** Vote resolution (C2) *)

Lemma player_update_found id f w p :
  find (λ p, bool_decide (player_id p = id)) (players (db w)) = Some p →
  Prisma.player_update id f w
  = (Returned tt,
     with_db (Prisma.set_players
                (map (λ p, if bool_decide (player_id p = id) then f p else p)
                     (players (db w))) (db w)) w).
Proof.
  intros Hfound. unfold Prisma.player_update, Prisma.player_findUnique, mbind, M_bind, gets.
  by rewrite Hfound.
Qed.

(** [startNextRound] never throws, writes no player row, and stores a
    session only with the eliminated players of the state it was given. *)
Lemma startNextRound_players room state w :
  ∃ w', startNextRound room state w = (Returned tt, w') ∧
        players (db w') = players (db w) ∧
        (w' = w ∨
         ∃ state', gameKeys (redis w') !! roomId state = Some state' ∧
                   eliminatedPlayers state' = eliminatedPlayers state).
Proof.
  destruct (decide (Prisma.wordPair_active w = [])) as [Hnone | Hsome].
  - exists w. split; [| by split; [| left]].
    unfold startNextRound, mbind, M_bind. by rewrite getRandomWordPair_none.
  - destruct (startNextRound_advances room state w Hsome)
      as ([] & w' & Hrun & wordPair & order & _ & _ & Hredis & Hdb & _).
    exists w'. split; [exact Hrun |]. split; [by rewrite Hdb |].
    right. eexists. split; [rewrite Hredis; apply lookup_insert_eq | done].
Qed.

Lemma white_hat_eliminated_returns room (state : GameState) w (resolution : RoundResolution) :
  ∃ w',
    (round ← Prisma.round_findFirst room (roundNumber state);
     _ ← match round with
         | Some round => Prisma.round_update (round_id round) (Prisma.round_set_phase GUESSING)
         | None => mret tt
         end;
     _ ← setGameState state;
     mret resolution) w = (Returned resolution, w') ∧
    gameKeys (redis w') = <[roomId state := state]> (gameKeys (redis w)) ∧
    players (db w') = players (db w) ∧
    rooms (db w') = rooms (db w).
Proof.
  unfold mbind, M_bind, Prisma.round_findFirst, gets.
  destruct (find _ (rounds (db w))) as [round |] eqn:Hround.
  - unfold Prisma.round_update, mbind, M_bind, gets.
    destruct (find_is_Some (λ r, bool_decide (round_id r = round_id round))
                (rounds (db w)) round) as [r0 Hr0].
    { apply list_elem_of_In. by eapply find_some. }
    { by apply bool_decide_eq_true. }
    rewrite Hr0. eexists. split; [reflexivity |]. done.
  - eexists. split; [reflexivity |]. done.
Qed.

Lemma resolveVotes_single_target room w state target player :
  gameKeys (redis w) !! room = Some state →
  topTargets (voteCounts (votes state)) = [target] →
  find (λ p, bool_decide (player_id p = target)) (players (db w)) = Some player →
  let eliminated := set_eliminatedPlayers (eliminatedPlayers state ++ [target]) state in
  resolveVotes room w
  = (if bool_decide (player_role player = Some WHITE_HAT) then
       round ← Prisma.round_findFirst room (roundNumber (set_phase GUESSING eliminated));
       _ ← match round with
           | Some round =>
               Prisma.round_update (round_id round) (Prisma.round_set_phase GUESSING)
           | None => mret tt
           end;
       _ ← setGameState (set_phase GUESSING eliminated);
       mret {| eliminatedPlayerId := Some target; eliminatedRole := player_role player;
               isWhiteHat := true; rr_gameOver := false; rr_winner := None |}
     else
       winResult ← checkWinConditions room (Some eliminated);
       if gameOver winResult then
         _ ← endGame room eliminated (winner winResult);
         mret {| eliminatedPlayerId := Some target; eliminatedRole := player_role player;
                 isWhiteHat := false; rr_gameOver := gameOver winResult;
                 rr_winner := winner winResult |}
       else
         _ ← startNextRound room eliminated;
         mret {| eliminatedPlayerId := Some target; eliminatedRole := player_role player;
                 isWhiteHat := false; rr_gameOver := false; rr_winner := None |})
      (deactivate target w).
Proof.
  intros Hstored Htops Hfound eliminated.
  unfold resolveVotes.
  unfold mbind at 1. unfold M_bind at 1. unfold getGameState, gets. rewrite Hstored.
  rewrite Htops. simpl.
  destruct (decide (1 < 1)) as [? | _]; [lia |].
  unfold mbind at 1. unfold M_bind at 1. unfold Prisma.player_findUnique, gets.
  rewrite Hfound.
  unfold mbind at 1. unfold M_bind at 1.
  rewrite (player_update_found _ _ _ _ Hfound). reflexivity.
Qed.

Lemma resolveVotes_tie room w state :
  gameKeys (redis w) !! room = Some state →
  1 < length (topTargets (voteCounts (votes state))) →
  resolveVotes room w
  = (_ ← startNextRound room state;
     mret {| eliminatedPlayerId := None; eliminatedRole := None; isWhiteHat := false;
             rr_gameOver := false; rr_winner := None |}) w.
Proof.
  intros Hstored Htie. unfold resolveVotes.
  unfold mbind at 1. unfold M_bind at 1. unfold getGameState, gets. rewrite Hstored.
  by destruct (decide _).
Qed.

Lemma resolveVotes_no_target room w state :
  gameKeys (redis w) !! room = Some state →
  topTargets (voteCounts (votes state)) = [] →
  resolveVotes room w = (Thrown Prisma.VALIDATION, w).
Proof.
  intros Hstored Hnone. unfold resolveVotes.
  unfold mbind at 1. unfold M_bind at 1. unfold getGameState, gets. rewrite Hstored.
  rewrite Hnone. reflexivity.
Qed.

Lemma elimination_outcome room (eliminated : GameState) target role w :
  let verdict := winReturn_result (winReturn (activePlayersOf room w)) in
  let continuation : M RoundResolution :=
    winResult ← checkWinConditions room (Some eliminated);
    if gameOver winResult then
      _ ← endGame room eliminated (winner winResult);
      mret {| eliminatedPlayerId := Some target; eliminatedRole := role;
              isWhiteHat := false; rr_gameOver := gameOver winResult;
              rr_winner := winner winResult |}
    else
      _ ← startNextRound room eliminated;
      mret {| eliminatedPlayerId := Some target; eliminatedRole := role;
              isWhiteHat := false; rr_gameOver := false; rr_winner := None |} in
  if gameOver verdict then
    match find (λ r, bool_decide (room_id r = room)) (rooms (db w)) with
    | None => continuation w = (Thrown Prisma.P2025, w)
    | Some _ =>
        ∃ w', continuation w
              = (Returned {| eliminatedPlayerId := Some target; eliminatedRole := role;
                             isWhiteHat := false; rr_gameOver := true;
                             rr_winner := winner verdict |}, w') ∧
              redis w' = redis_after_endGame room (redis w) ∧
              players (db w') = players (db w) ∧
              wordPairs (db w') = wordPairs (db w) ∧
              rooms (db w')
              = map (λ r, if bool_decide (room_id r = room)
                          then Prisma.room_set_status FINISHED r else r) (rooms (db w))
    end
  else
    ∃ w', continuation w
          = (Returned {| eliminatedPlayerId := Some target; eliminatedRole := role;
                         isWhiteHat := false; rr_gameOver := false; rr_winner := None |}, w') ∧
          startNextRound room eliminated w = (Returned tt, w').
Proof.
  intros verdict continuation. unfold continuation.
  erewrite bind_run; [| by apply (checkWinConditions_unfold _ _ _ eliminated)].
  fold verdict. destruct (gameOver verdict) eqn:Hover.
  - pose proof (endGame_outcome room eliminated (winner verdict) w) as Hend.
    destruct (find _ (rooms (db w))) as [r |].
    + destruct Hend as (u & w' & Hrun & Hfacts). destruct u.
      exists w'. split; [| exact Hfacts].
      by erewrite bind_run; [| exact Hrun].
    + unfold mbind, M_bind. by rewrite Hend.
  - destruct (startNextRound_players room eliminated w) as (w' & Hrun & _).
    exists w'. split; [| exact Hrun].
    by erewrite bind_run; [| exact Hrun].
Qed.


Lemma resolveVotes_unknown_target room w state target :
  gameKeys (redis w) !! room = Some state →
  topTargets (voteCounts (votes state)) = [target] →
  find (λ p, bool_decide (player_id p = target)) (players (db w)) = None →
  resolveVotes room w = (Thrown "Eliminated player not found", w).
Proof.
  intros Hstored Htops Hfound. unfold resolveVotes.
  unfold mbind at 1. unfold M_bind at 1. unfold getGameState, gets. rewrite Hstored.
  rewrite Htops. simpl. destruct (decide (1 < 1)) as [? | _]; [lia |].
  unfold mbind, M_bind, Prisma.player_findUnique, gets. by rewrite Hfound.
Qed.




(** ** The loop that skips eliminated players *)

Lemma skip_loop_spec eliminated order rest i :
  rest = drop i order →
  let j := skip_loop eliminated rest i in
  i ≤ j ∧ j ≤ i + length rest ∧
  (∀ k, i ≤ k < j → ∃ id, order !! k = Some id ∧ id ∈ eliminated) ∧
  (∀ id, order !! j = Some id → id ∉ eliminated).
Proof.
  revert i. induction rest as [| p rest IH]; intros i Hrest; simpl.
  - repeat split; try lia.
    intros id Hid. apply lookup_lt_Some in Hid.
    assert (length (drop i order) = 0) as Hlen by by rewrite <- Hrest.
    rewrite length_drop in Hlen. lia.
  - assert (order !! i = Some p) as Hp.
    { rewrite <- (Nat.add_0_r i), <- lookup_drop, <- Hrest. reflexivity. }
    unfold includes. case_bool_decide as Hin.
    + destruct (IH (S i)) as (Hle & Hup & Hskipped & Hstop).
      { replace (S i) with (i + 1) by lia. by rewrite <- drop_drop, <- Hrest. }
      repeat split; try lia; [| exact Hstop].
      intros k Hk. destruct (decide (k = i)) as [-> | Hne]; [by exists p |].
      apply Hskipped. lia.
    + repeat split; try lia.
      intros id Hid. by simplify_eq.
Qed.

Lemma skipEliminated_spec eliminated order i :
  let j := skipEliminated eliminated order i in
  i ≤ j ∧
  (∀ k, i ≤ k < j → ∃ id, order !! k = Some id ∧ id ∈ eliminated) ∧
  (∀ id, order !! j = Some id → id ∉ eliminated).
Proof.
  destruct (skip_loop_spec eliminated order (drop i order) i eq_refl)
    as (Hle & _ & Hskipped & Hstop).
  unfold skipEliminated. auto.
Qed.

(** The loop stops at the end of the turn order at the latest. *)
Lemma skipEliminated_le eliminated order i :
  skipEliminated eliminated order i ≤ Nat.max i (length order).
Proof.
  destruct (skip_loop_spec eliminated order (drop i order) i eq_refl)
    as (_ & Hup & _).
  unfold skipEliminated. rewrite length_drop in Hup. lia.
Qed.

(** The loop passes over the eliminated second player and stops at the
    third. *)
Example skipEliminated_passes_eliminated :
  skipEliminated ["p2"] ["p1"; "p2"; "p3"; "p4"] 1 = 2.
Proof. reflexivity. Qed.

(** ** Clue submission *)

(** A call of [submitClue] never throws.  It either fails and writes
    nothing, or it is the turn of the player in a session that is HINTING
    and the session moves on as [state_after_clue] says. *)
Lemma submitClue_outcome room playerId content w :
  (∃ message,
     submitClue room playerId content w = (Returned (submitClue_failure message), w)) ∨
  (∃ state clue result w',
     gameKeys (redis w) !! room = Some state ∧
     phase state = HINTING ∧
     turnOrder state !! currentTurnIndex state = Some playerId ∧
     submitClue room playerId content w = (Returned result, w') ∧
     sc_success result = true ∧
     let state' := state_after_clue state clue in
     redis w' = set_gameKeys (<[roomId state := state']> (gameKeys (redis w))) (redis w) ∧
     players (db w') = players (db w) ∧
     sc_votingStarted result
     = (if decide (length (turnOrder state') ≤ currentTurnIndex state') then Some true
        else None) ∧
     sc_nextPlayerId result
     = (if decide (length (turnOrder state') ≤ currentTurnIndex state') then None
        else turnOrder state' !! currentTurnIndex state')).
Proof.
  unfold submitClue, getGameState, Prisma.round_findFirst, Prisma.player_findUnique,
    Prisma.clue_create, Prisma.round_update, Prisma.modify_db, setGameState, modify_redis.
  unfold mbind, M_bind, modify, gets, mret, M_ret.
  cbn beta.
  destruct (gameKeys (redis w) !! room) as [state |] eqn:Hstored; [| left; by eexists].
  destruct (decide (phase state ≠ HINTING)) as [| Hphase]; [left; by eexists |].
  apply dec_stable in Hphase.
  destruct (decide (turnOrder state !! currentTurnIndex state ≠ Some playerId))
    as [| Hturn]; [left; by eexists |].
  apply dec_stable in Hturn.
  destruct (find _ (rounds (db w))) as [round |] eqn:Hround; [| left; by eexists].
  destruct (find _ (players (db w))) as [player |] eqn:Hplayer; [| left; by eexists].
  right.
  exists state,
    {| clue_playerId := playerId; clue_displayName := player_displayName player;
       clue_content := content; clue_createdAt := clock w |}.
  unfold state_after_clue. simpl.
  destruct (decide (length (turnOrder state)
                    ≤ skipEliminated (eliminatedPlayers state) (turnOrder state)
                        (S (currentTurnIndex state)))) as [Hend | Hmore].
  - destruct (find_is_Some (λ r, bool_decide (round_id r = round_id round))
                (rounds (db w)) round) as [r0 Hr0].
    { apply list_elem_of_In. by eapply find_some. }
    { by apply bool_decide_eq_true. }
    unfold with_db, with_redis. simpl. rewrite Hr0.
    eexists _, _. repeat split; try done.
  - eexists _, _. repeat split; try done.
Qed.

(** ** Invariants along a call *)

Lemma exec_congruence {A} (m m' : M A) w w' : m w = m' w' → exec m w = exec m' w'.
Proof. unfold exec. by intros ->. Qed.

Lemma exec_ret {A} (a : A) w : exec (mret a) w = w.
Proof. reflexivity. Qed.

(** Chaining calls that keep an invariant of the world, whether they return
    or throw. *)
Lemma exec_bind_keeps {A B} (I : World → Prop) (m : M A) (f : A → M B) w :
  I (exec m w) →
  (∀ a w', m w = (Returned a, w') → I w' → I (exec (f a) w')) →
  I (exec (m ≫= f) w).
Proof.
  unfold exec, mbind, M_bind. intros Hm Hf.
  destruct (m w) as [[a | e] w'] eqn:Hrun; simpl in *; [| exact Hm].
  by apply Hf.
Qed.

Lemma exec_returns_keeps {A} (I : World → Prop) (m : M A) w (P : A → World → Prop) :
  returns m w P → (∀ a w', P a w' → I w') → I (exec m w).
Proof.
  intros (a & w' & Hrun & HP) HPI. unfold exec. rewrite Hrun. simpl. eauto.
Qed.

(** ** Players are not reactivated *)

Lemma no_reactivation_same d d' : players d' = players d → no_reactivation d d'.
Proof. intros Hsame p' Hin Hactive. exists p'. by rewrite <- Hsame. Qed.

Lemma no_reactivation_trans d1 d2 d3 :
  no_reactivation d1 d2 → no_reactivation d2 d3 → no_reactivation d1 d3.
Proof.
  intros H12 H23 p3 Hin3 Hactive3.
  destruct (H23 p3 Hin3 Hactive3) as (p2 & Hin2 & Hid2 & Hactive2).
  destruct (H12 p2 Hin2 Hactive2) as (p1 & Hin1 & Hid1 & Hactive1).
  exists p1. split; [done |]. split; [congruence | done].
Qed.

(** A write to player rows that keeps their ids and activates none. *)
Lemma no_reactivation_map (f : Player → Player) d d' :
  players d' = map f (players d) →
  (∀ p, player_id (f p) = player_id p) →
  (∀ p, player_isActive (f p) = true → player_isActive p = true) →
  no_reactivation d d'.
Proof.
  intros Hmap Hid Hactive p' Hin' Hactive'.
  rewrite Hmap in Hin'. apply list_elem_of_fmap in Hin' as (p & -> & Hin).
  exists p. split; [done |]. split; [by rewrite Hid | by apply Hactive].
Qed.

Lemma eliminated_inactive_no_reactivation d d' state :
  eliminated_inactive d state → no_reactivation d d' → eliminated_inactive d' state.
Proof.
  intros Hinactive Hno p' Hin' Heliminated.
  destruct (player_isActive p') eqn:Hactive; [| done].
  destruct (Hno p' Hin' Hactive) as (p & Hin & Hid & Hactive0).
  rewrite <- Hid in Heliminated. rewrite (Hinactive p Hin Heliminated) in Hactive0.
  discriminate.
Qed.

Lemma state_ok_no_reactivation d d' state :
  state_ok d state → no_reactivation d d' → state_ok d' state.
Proof.
  intros (Hcursor & Hpast & Hvotes & Hinactive) Hno.
  repeat split; try done. by eapply eliminated_inactive_no_reactivation.
Qed.

(** ** Writes that keep the sessions well formed *)

Lemma benign_refl w : benign w w.
Proof. split; [by apply no_reactivation_same | done]. Qed.

Lemma benign_trans w1 w2 w3 : benign w1 w2 → benign w2 w3 → benign w1 w3.
Proof.
  intros [Hno12 Hkeys12] [Hno23 Hkeys23].
  split; [by eapply no_reactivation_trans | congruence].
Qed.

Lemma benign_same_stores w w' : same_stores w w' → benign w w'.
Proof.
  intros (Hdb & Hredis & _). split; [apply no_reactivation_same | ]; congruence.
Qed.

Lemma world_ok_benign w w' : world_ok w → benign w w' → world_ok w'.
Proof.
  intros Hok [Hno Hkeys] room state Hstored. rewrite Hkeys in Hstored.
  destruct (Hok room state Hstored) as [Hroom Hstate].
  split; [done |]. by eapply state_ok_no_reactivation.
Qed.

Lemma world_ok_store w w' state :
  world_ok w →
  no_reactivation (db w) (db w') →
  state_ok (db w') state →
  gameKeys (redis w') = <[roomId state := state]> (gameKeys (redis w)) →
  world_ok w'.
Proof.
  intros Hok Hno Hstate Hkeys room state' Hstored. rewrite Hkeys in Hstored.
  destruct (decide (roomId state = room)) as [<- | Hne].
  - rewrite lookup_insert_eq in Hstored. by simplify_eq.
  - rewrite lookup_insert_ne in Hstored by done.
    destruct (Hok room state' Hstored) as [Hroom Hstate'].
    split; [done |]. by eapply state_ok_no_reactivation.
Qed.

Lemma world_ok_delete w w' room :
  world_ok w →
  no_reactivation (db w) (db w') →
  gameKeys (redis w') = delete room (gameKeys (redis w)) →
  world_ok w'.
Proof.
  intros Hok Hno Hkeys room' state Hstored. rewrite Hkeys in Hstored.
  apply lookup_delete_Some in Hstored as [_ Hstored].
  destruct (Hok room' state Hstored) as [Hroom Hstate].
  split; [done |]. by eapply state_ok_no_reactivation.
Qed.

(** ** The calls keep the sessions well formed *)

Lemma submitClue_world_ok room playerId content w :
  world_ok w → world_ok (exec (submitClue room playerId content) w).
Proof.
  intros Hok. unfold exec.
  destruct (submitClue_outcome room playerId content w)
    as [[message ->] | (state & clue & result & w' & Hstored & Hphase & Hturn & -> & _ &
                        Hredis & Hplayers & _)]; [done |].
  simpl. destruct (Hok room state Hstored) as [Hroom (Hcursor & Hpast & Hvotes & Hinactive)].
  apply (world_ok_store w w' (state_after_clue state clue)); try done.
  - by apply no_reactivation_same.
  - destruct (skipEliminated_spec (eliminatedPlayers state) (turnOrder state)
                (S (currentTurnIndex state))) as (Hle & Hskipped & Hstop).
    repeat split.
    + exact Hstop.
    + unfold state_after_clue. simpl. destruct (decide _); [done |]. by rewrite Hphase.
    + intros _. simpl. by apply Hvotes.
    + intros p Hin Heliminated. rewrite Hplayers in Hin. by apply Hinactive.
  - by rewrite Hredis.
Qed.

Lemma submitVote_outcome room voterId targetId w :
  (∃ message,
     submitVote room voterId targetId w = (Returned (submitVote_failure message), w)) ∨
  (∃ state result w',
     gameKeys (redis w) !! room = Some state ∧
     phase state = VOTING ∧
     (voterId ∉ eliminatedPlayers state) ∧
     ¬ reads_as_cast (votes state) voterId ∧
     submitVote room voterId targetId w = (Returned result, w') ∧
     sv_success result = true ∧
     let state' := set_votes (<[voterId := targetId]> (votes state)) state in
     redis w' = set_gameKeys (<[roomId state := state']> (gameKeys (redis w))) (redis w) ∧
     players (db w') = players (db w)).
Proof.
  unfold submitVote, getGameState, Prisma.round_findFirst, Prisma.vote_create,
    Prisma.modify_db, setGameState, modify_redis.
  unfold mbind, M_bind, modify, gets, mret, M_ret.
  cbn beta.
  destruct (gameKeys (redis w) !! room) as [state |] eqn:Hstored; [| left; by eexists].
  destruct (decide (phase state ≠ VOTING)) as [| Hphase]; [left; by eexists |].
  apply dec_stable in Hphase.
  unfold includes. case_bool_decide as Heliminated; [left; by eexists |].
  destruct (truthy_member (Js.get (votes state) voterId)) eqn:Hvoted; [left; by eexists |].
  apply truthy_member_false in Hvoted.
  destruct (find _ (rounds (db w))) as [round |] eqn:Hround; [| left; by eexists].
  rewrite (put_unread _ _ targetId Hvoted).
  right. exists state. eexists _, _. repeat split; try done.
Qed.

Lemma submitVote_world_ok room voterId targetId w :
  world_ok w → world_ok (exec (submitVote room voterId targetId) w).
Proof.
  intros Hok. unfold exec.
  destruct (submitVote_outcome room voterId targetId w)
    as [[message ->] | (state & result & w' & Hstored & Hphase & _ & _ & -> & _ &
                        Hredis & Hplayers)]; [done |].
  simpl. destruct (Hok room state Hstored) as [Hroom (Hcursor & Hpast & Hvotes & Hinactive)].
  apply (world_ok_store w w' (set_votes (<[voterId := targetId]> (votes state)) state));
    try done.
  - by apply no_reactivation_same.
  - repeat split; try done.
    + simpl. intros Hhinting. congruence.
    + intros p Hin Heliminated. rewrite Hplayers in Hin. by apply Hinactive.
  - by rewrite Hredis.
Qed.

Lemma environment_world_ok pairs e c w :
  world_ok w →
  world_ok {| db := Prisma.set_wordPairs pairs (db w); redis := redis w;
              entropy := e; clock := c |}.
Proof.
  intros Hok. eapply world_ok_benign; [exact Hok |].
  split; [by apply no_reactivation_same | done].
Qed.

Lemma world_ok_eliminated_inactive w room state :
  world_ok w → gameKeys (redis w) !! room = Some state → eliminated_inactive (db w) state.
Proof. intros Hok Hstored. by destruct (Hok room state Hstored) as (_ & _ & _ & _ & ?). Qed.

Lemma startNextRound_world_ok room state w :
  world_ok w → eliminated_inactive (db w) state →
  world_ok (exec (startNextRound room state) w).
Proof.
  intros Hok Hinactive. unfold exec.
  destruct (decide (Prisma.wordPair_active w = [])) as [Hnone | Hsome].
  - unfold startNextRound, mbind, M_bind. by rewrite getRandomWordPair_none.
  - destruct (startNextRound_advances room state w Hsome)
      as ([] & w' & -> & wordPair & order & _ & Hperm & Hredis & Hdb & _).
    simpl in *.
    assert (players (db w') = players (db w)) as Hplayers by by rewrite Hdb.
    match type of Hredis with
    | _ = set_gameKeys (<[_ := ?s]> _) _ => apply (world_ok_store w w' s)
    end; [exact Hok | by apply no_reactivation_same | | by rewrite Hredis].
    repeat split; simpl.
    + intros id Hfirst Heliminated.
      assert (id ∈ map player_id (activePlayersOf room w)) as Hactive.
      { rewrite <- Hperm. by eapply list_elem_of_lookup_2. }
      apply list_elem_of_fmap in Hactive as (p & -> & Hp).
      apply list_elem_of_filter in Hp as [[_ Hp] Hin].
      rewrite (Hinactive p Hin Heliminated) in Hp. discriminate.
    + intros Hne. by destruct Hne.
    + intros p Hin Heliminated. rewrite Hplayers in Hin. by apply Hinactive.
Qed.

Lemma endGame_world_ok room state win w :
  world_ok w → world_ok (exec (endGame room state win) w).
Proof.
  intros Hok. unfold exec. pose proof (endGame_outcome room state win w) as Houtcome.
  destruct (find _ (rooms (db w))).
  - destruct Houtcome as ([] & w' & -> & Hredis & Hplayers & _). simpl.
    eapply world_ok_delete; [exact Hok | by apply no_reactivation_same |].
    by rewrite Hredis.
  - by rewrite Houtcome.
Qed.

Lemma deactivate_no_reactivation id w : no_reactivation (db w) (db (deactivate id w)).
Proof.
  apply (no_reactivation_map
           (λ p, if bool_decide (player_id p = id)
                 then Prisma.player_set_isActive false p else p)); [reflexivity | |].
  - intros p. by case_bool_decide.
  - intros p. by case_bool_decide.
Qed.

Lemma deactivate_inactive id w p :
  p ∈ players (db (deactivate id w)) → player_id p = id → player_isActive p = false.
Proof.
  simpl. intros (p0 & -> & Hin)%list_elem_of_fmap.
  case_bool_decide; [done |]. intros Hid. done.
Qed.

Lemma length_one_or_less {A} (l : list A) :
  ¬ 1 < length l → l = [] ∨ ∃ x, l = [x].
Proof.
  destruct l as [| x [| y l]]; simpl; intros Hlen; [by left | right; by eexists | lia].
Qed.

Lemma resolveVotes_world_ok room w :
  world_ok w → world_ok (exec (resolveVotes room) w).
Proof.
  intros Hok.
  destruct (gameKeys (redis w) !! room) as [state |] eqn:Hstored.
  2: { unfold exec, resolveVotes, mbind, M_bind, getGameState, gets. by rewrite Hstored. }
  destruct (Hok room state Hstored) as [Hroom (Hcursor & Hpast & Hvotes & Hinactive)].
  destruct (decide (1 < length (topTargets (voteCounts (votes state))))) as [Hmany | Hfew].
  - rewrite (exec_congruence _ _ _ _ (resolveVotes_tie room w state Hstored Hmany)).
    apply (exec_bind_keeps world_ok); [by apply startNextRound_world_ok | done].
  - apply length_one_or_less in Hfew as [Hnil | [target Htops]].
    { unfold exec. by rewrite (resolveVotes_no_target room w state). }
    destruct (find (λ p, bool_decide (player_id p = target)) (players (db w)))
      as [player |] eqn:Hfound.
    2: { unfold exec. by rewrite (resolveVotes_unknown_target room w state target). }
    assert (phase state ≠ HINTING) as Hphase.
    { intros Hhinting. apply Hvotes in Hhinting.
      rewrite Hhinting, topTargets_empty in Htops. discriminate. }
    set (eliminated := set_eliminatedPlayers (eliminatedPlayers state ++ [target]) state).
    assert (eliminated_inactive (db (deactivate target w)) eliminated) as Hinactive1.
    { intros p Hin [Hold | Htarget%list_elem_of_singleton]%elem_of_app.
      - eapply eliminated_inactive_no_reactivation;
          [exact Hinactive | apply deactivate_no_reactivation | done | done].
      - by eapply deactivate_inactive. }
    assert (world_ok (deactivate target w)) as Hok1.
    { eapply world_ok_benign; [exact Hok |].
      split; [apply deactivate_no_reactivation | done]. }
    rewrite (exec_congruence _ _ _ _
               (resolveVotes_single_target room w state target player Hstored Htops Hfound)).
    fold eliminated. case_bool_decide as Hwhite.
    + destruct (white_hat_eliminated_returns room (set_phase GUESSING eliminated)
                  (deactivate target w)
                  {| eliminatedPlayerId := Some target;
                     eliminatedRole := player_role player; isWhiteHat := true;
                     rr_gameOver := false; rr_winner := None |})
        as (w' & Hrun & Hkey & Hplayers & _).
      unfold exec. rewrite Hrun. simpl.
      apply (world_ok_store (deactivate target w) w' (set_phase GUESSING eliminated));
        [exact Hok1 | by apply no_reactivation_same | | exact Hkey].
      split; [| split; [| split]].
      * intros id Hid. apply lookup_lt_Some in Hid. simpl in Hid.
        specialize (Hpast Hphase). exfalso. lia.
      * intros _. by apply Hpast.
      * simpl. discriminate.
      * intros p Hin. rewrite Hplayers in Hin. by apply Hinactive1.
    + apply (exec_bind_keeps world_ok).
      { erewrite (exec_congruence (checkWinConditions room (Some eliminated)));
          [| by apply (checkWinConditions_unfold room (Some eliminated) _ eliminated)].
        done. }
      intros winResult w1 Hwin Hok2.
      rewrite (checkWinConditions_unfold room (Some eliminated) _ eliminated) in Hwin by done.
      injection Hwin as <- <-.
      destruct (gameOver _).
      * apply (exec_bind_keeps world_ok); [by apply endGame_world_ok | done].
      * apply (exec_bind_keeps world_ok); [| done].
        by apply startNextRound_world_ok.
Qed.

(** ** Harmless calls *)

Lemma harmless_ret {A} (a : A) : harmless (mret a).
Proof. intros w. apply benign_refl. Qed.

Lemma harmless_throw {A} message : harmless (@throw A message).
Proof. intros w. apply benign_refl. Qed.

Lemma harmless_gets {A} (f : World → A) : harmless (gets f).
Proof. intros w. apply benign_refl. Qed.

Lemma harmless_bind {A B} (m : M A) (f : A → M B) :
  harmless m → (∀ a, harmless (f a)) → harmless (m ≫= f).
Proof.
  intros Hm Hf w. apply (exec_bind_keeps (benign w)); [apply Hm |].
  intros a w' _ Hbenign. eapply benign_trans; [exact Hbenign | apply Hf].
Qed.

Lemma harmless_returns {A} (m : M A) :
  (∀ w, returns m w (λ _ w', same_stores w w')) → harmless m.
Proof.
  intros Hm w. eapply exec_returns_keeps; [apply Hm |].
  intros a w' Hstores. by apply benign_same_stores.
Qed.

Lemma harmless_modify_db (f : Database → Database) :
  (∀ d, no_reactivation d (f d)) → harmless (Prisma.modify_db f).
Proof. intros Hf w. split; [apply Hf | done]. Qed.

Lemma harmless_modify_redis (f : Redis → Redis) :
  (∀ r, gameKeys (f r) = gameKeys r) → harmless (modify_redis f).
Proof. intros Hf w. split; [by apply no_reactivation_same | apply Hf]. Qed.

Lemma harmless_transaction {A} (body : M A) : harmless body → harmless (transaction body).
Proof.
  intros Hbody w. specialize (Hbody w). unfold exec, transaction in *.
  destruct (body w) as [[a | e] w']; [exact Hbody | apply benign_refl].
Qed.

Lemma harmless_Math_random : harmless Js.Math_random.
Proof.
  apply harmless_returns. intros w.
  eapply returns_weaken; [apply Math_random_returns |].
  by intros u w' (_ & ? & ? & ?).
Qed.

Lemma harmless_getRandomWordPair : harmless getRandomWordPair.
Proof.
  unfold getRandomWordPair. apply harmless_bind; [apply harmless_gets |].
  intros count. destruct (decide (count = 0)); [apply harmless_ret |].
  apply harmless_bind; [apply harmless_Math_random |].
  intros u. apply harmless_gets.
Qed.

Lemma harmless_assignRoles n : harmless (assignRoles n).
Proof.
  apply harmless_returns. intros w.
  eapply returns_weaken; [apply assignRoles_returns |].
  by intros roles w' (_ & ? & ? & ?).
Qed.

Lemma harmless_sort_by {A} (a : list A) : harmless (Js.sort_by Js.random_comparator a).
Proof.
  apply harmless_returns. intros w.
  eapply returns_weaken; [apply sort_by_returns |]. by intros sorted w' [_ ?].
Qed.

Lemma harmless_room_update id f : harmless (Prisma.room_update id f).
Proof.
  unfold Prisma.room_update. apply harmless_bind; [apply harmless_gets |].
  intros [found |]; [| apply harmless_throw].
  apply harmless_modify_db. intros d. by apply no_reactivation_same.
Qed.

Lemma harmless_player_set_role id role :
  harmless (Prisma.player_update id (Prisma.player_set_role role)).
Proof.
  unfold Prisma.player_update. apply harmless_bind; [apply harmless_gets |].
  intros [found |]; [| apply harmless_throw].
  apply harmless_modify_db. intros d.
  apply (no_reactivation_map
           (λ p, if bool_decide (player_id p = id)
                 then Prisma.player_set_role role p else p)); [reflexivity | |].
  - intros p. case_bool_decide; [| done]. by destruct role.
  - intros p. case_bool_decide; [| done]. by destruct role.
Qed.

Lemma harmless_update_roles i remaining roles : harmless (update_roles i remaining roles).
Proof.
  revert i. induction remaining as [| p rest IH]; intros i; simpl.
  - apply harmless_ret.
  - apply harmless_bind; [apply harmless_player_set_role |]. intros _. apply IH.
Qed.

Lemma harmless_round_create room n wordPairId ph :
  harmless (Prisma.round_create room n wordPairId ph).
Proof. apply harmless_modify_db. intros d. by apply no_reactivation_same. Qed.

Lemma harmless_setRoomState state : harmless (setRoomState state).
Proof. by apply harmless_modify_redis. Qed.

Lemma harmless_getRoomState room : harmless (getRoomState room).
Proof.
  unfold getRoomState. apply harmless_bind; [apply harmless_gets |].
  intros [state |]; [apply harmless_ret |].
  apply harmless_bind; [apply harmless_gets |].
  intros [found |]; [| apply harmless_ret].
  apply harmless_bind; [apply harmless_gets |]. intros ps.
  apply harmless_bind; [| intros _; apply harmless_ret].
  destruct (decide _); [by apply harmless_modify_redis | apply harmless_ret].
Qed.

(** ** Starting a game keeps the sessions well formed *)

Lemma harmless_world_ok {A} (m : M A) w : harmless m → world_ok w → world_ok (exec m w).
Proof. intros Hm Hok. eapply world_ok_benign; [exact Hok | apply Hm]. Qed.

Lemma startGame_world_ok room hostUserId w :
  world_ok w → world_ok (exec (startGame room hostUserId) w).
Proof.
  intros Hok. unfold startGame.
  apply (exec_bind_keeps world_ok); [done |].
  intros [found |] w0 _ Hok0; [| done].
  destruct (decide _); [done |]. destruct (decide _); [done |].
  apply (exec_bind_keeps world_ok); [done |].
  intros activePlayers w1 _ Hok1.
  destruct (decide _); [done |].
  apply (exec_bind_keeps world_ok);
    [by apply harmless_world_ok; [apply harmless_getRandomWordPair |] |].
  intros [wordPair |] w2 _ Hok2; [| done].
  apply (exec_bind_keeps world_ok);
    [by apply harmless_world_ok; [apply harmless_assignRoles |] |].
  intros roles w3 _ Hok3.
  apply (exec_bind_keeps world_ok).
  { apply harmless_world_ok; [| done]. apply harmless_transaction.
    apply harmless_bind; [apply harmless_room_update |]. intros _.
    apply harmless_bind; [apply harmless_update_roles |]. intros _.
    apply harmless_round_create. }
  intros _ w4 _ Hok4.
  apply (exec_bind_keeps world_ok);
    [by apply harmless_world_ok; [apply harmless_sort_by |] |].
  intros shuffled w5 _ Hok5.
  apply (exec_bind_keeps world_ok).
  { match goal with
    | |- world_ok (exec (setGameState ?s) _) =>
        apply (world_ok_store w5 _ s); [done | by apply no_reactivation_same | | done]
    end.
    split; [| split; [| split]]; simpl.
    - intros id _. apply not_elem_of_nil.
    - intros Hne. by destruct Hne.
    - done.
    - intros p _ Hin. by apply elem_of_nil in Hin. }
  intros _ w6 _ Hok6.
  apply (exec_bind_keeps world_ok);
    [by apply harmless_world_ok; [apply harmless_getRoomState |] |].
  intros roomState w7 _ Hok7.
  apply (exec_bind_keeps world_ok); [| done].
  destruct roomState; [| done].
  by apply harmless_world_ok; [apply harmless_setRoomState |].
Qed.

Lemma submitWhiteHatGuess_world_ok `{rt : Js.Runtime} room playerId guess w :
  world_ok w → world_ok (exec (submitWhiteHatGuess room playerId guess) w).
Proof.
  intros Hok.
  destruct (gameKeys (redis w) !! room) as [state |] eqn:Hstored.
  2: { unfold exec, submitWhiteHatGuess, mbind, M_bind, getGameState, gets.
       by rewrite Hstored. }
  destruct (decide (phase state = GUESSING)) as [Hphase | Hphase].
  2: { unfold exec, submitWhiteHatGuess, mbind, M_bind, getGameState, gets.
       rewrite Hstored. by destruct (decide _). }
  destruct (eval (Prisma.wordPair_findUnique (wordPairId state)) w) as [[wordPair |] | e]
    eqn:Hpair.
  - rewrite (exec_congruence _ _ _ _
               (submitWhiteHatGuess_unfold room playerId guess w state wordPair
                  Hstored Hphase Hpair)).
    pose proof (world_ok_eliminated_inactive w room state Hok Hstored) as Hinactive.
    case_bool_decide.
    + apply (exec_bind_keeps world_ok); [by apply endGame_world_ok | done].
    + simpl. destruct (gameOver _).
      * apply (exec_bind_keeps world_ok); [by apply endGame_world_ok | done].
      * apply (exec_bind_keeps world_ok); [by apply startNextRound_world_ok | done].
  - unfold eval, Prisma.wordPair_findUnique, gets in Hpair. simpl in Hpair.
    injection Hpair as Hpair.
    unfold exec, submitWhiteHatGuess, mbind, M_bind, getGameState,
      Prisma.wordPair_findUnique, gets.
    rewrite Hstored. destruct (decide _); [done |]. by rewrite Hpair.
  - unfold eval, Prisma.wordPair_findUnique, gets in Hpair. discriminate.
Qed.

(** ** Leaving a room keeps the sessions well formed *)

Lemma harmless_player_deactivate id :
  harmless (Prisma.player_update id (Prisma.player_set_isActive false)).
Proof.
  unfold Prisma.player_update. apply harmless_bind; [apply harmless_gets |].
  intros [found |]; [| apply harmless_throw].
  apply harmless_modify_db. intros d.
  apply (no_reactivation_map
           (λ p, if bool_decide (player_id p = id)
                 then Prisma.player_set_isActive false p else p)); [reflexivity | |].
  - intros p. by case_bool_decide.
  - intros p. by case_bool_decide.
Qed.

Lemma harmless_deleteRoomState room : harmless (deleteRoomState room).
Proof.
  unfold deleteRoomState.
  apply harmless_bind; [by apply harmless_modify_redis |].
  intros _. by apply harmless_modify_redis.
Qed.

Lemma harmless_deleteRoomCodeMapping `{casing : Js.Casing} code :
  harmless (deleteRoomCodeMapping code).
Proof. by apply harmless_modify_redis. Qed.

Lemma harmless_leave `{casing : Js.Casing} room userId :
  harmless (RoomRoutes.leave room userId).
Proof.
  unfold RoomRoutes.leave.
  apply harmless_bind; [apply harmless_gets |].
  intros [found |]; [| apply harmless_ret].
  apply harmless_bind; [apply harmless_gets |].
  intros [player |]; [| apply harmless_ret].
  apply harmless_bind; [apply harmless_player_deactivate |]. intros _.
  apply harmless_bind; [apply harmless_getRoomState |]. intros roomState.
  cbv zeta. destruct (decide _).
  - apply harmless_bind; [apply harmless_gets |].
    intros [nextPlayer |].
    + apply harmless_bind; [apply harmless_room_update |]. intros _.
      apply harmless_bind; [| intros _; apply harmless_ret].
      destruct roomState; [apply harmless_setRoomState | apply harmless_ret].
    + apply harmless_bind; [apply harmless_room_update |]. intros _.
      apply harmless_bind; [apply harmless_deleteRoomState |]. intros _.
      apply harmless_bind; [apply harmless_deleteRoomCodeMapping |]. intros _.
      apply harmless_ret.
  - apply harmless_bind; [| intros _; apply harmless_ret].
    destruct roomState; [apply harmless_setRoomState | apply harmless_ret].
Qed.

(** ** Every session reached by play is well formed *)

Lemma call_world_ok `{rt : Js.Runtime} w w' : call w w' → world_ok w → world_ok w'.
Proof.
  intros Hcall Hok. destruct Hcall.
  - by apply startGame_world_ok.
  - by apply submitClue_world_ok.
  - by apply submitVote_world_ok.
  - by apply resolveVotes_world_ok.
  - by apply submitWhiteHatGuess_world_ok.
Qed.

Lemma step_world_ok `{rt : Js.Runtime} w w' : step w w' → world_ok w → world_ok w'.
Proof.
  intros Hstep Hok. destruct Hstep.
  - by eapply call_world_ok.
  - by apply harmless_world_ok; [apply harmless_getRoomState |].
  - by apply harmless_world_ok; [apply harmless_leave |].
  - by apply environment_world_ok.
Qed.

Lemma reachable_world_ok `{rt : Js.Runtime} w : reachable w → world_ok w.
Proof.
  induction 1 as [w Hempty | w w' _ IH Hstep].
  - intros room state Hstored. by rewrite Hempty, lookup_empty in Hstored.
  - by eapply step_world_ok.
Qed.
(** ** The turn cursor (C5) *)

Lemma exec_bind_ret {A} (m : M A) w : exec (_ ← m; mret tt) w = exec m w.
Proof. unfold exec, mbind, M_bind. by destruct (m w) as [[a | e] w']. Qed.

Lemma second_round_world_reachable : @reachable Js.vietnamese_runtime second_round_world.
Proof.
  unfold second_round_world, calls_of_first_round. simpl. rewrite !exec_bind_ret.
  eapply reachable_step; [| apply step_call, call_resolveVotes].
  do 4 (eapply reachable_step; [| apply step_call, call_submitVote]).
  do 4 (eapply reachable_step; [| apply step_call, call_submitClue]).
  eapply reachable_step; [| apply step_call, call_startGame].
  by apply reachable_initial.
Qed.

(** C5.  In every world reached by play, the turn cursor of a stored
    session does not point at an eliminated player.  And in every world,
    reached by play or not, a successful [submitClue] on a stored session
    strictly increases the cursor; every index it passes over holds an
    eliminated player; and it either lands on a player of the turn order who
    is not eliminated, whose turn is announced while the phase stays
    HINTING, or leaves the turn order, in which case the phase becomes
    VOTING.  The session is written back under its own room id. *)
Theorem turn_cursor_invariant `{rt : Js.Runtime} (w : World) (room : Id) (state : GameState) :
  gameKeys (redis w) !! room = Some state →
  (reachable w → cursor_ok state) ∧
  ∀ playerId content result w',
    submitClue room playerId content w = (Returned result, w') →
    sc_success result = true →
    ∃ state',
      gameKeys (redis w') !! roomId state = Some state' ∧
      turnOrder state' = turnOrder state ∧
      eliminatedPlayers state' = eliminatedPlayers state ∧
      currentTurnIndex state < currentTurnIndex state' ∧
      (∀ k, currentTurnIndex state < k < currentTurnIndex state' →
            ∃ id, turnOrder state !! k = Some id ∧ id ∈ eliminatedPlayers state) ∧
      cursor_ok state' ∧
      ((currentTurnIndex state' = length (turnOrder state') ∧
        phase state' = VOTING ∧ sc_votingStarted result = Some true) ∨
       (∃ id, turnOrder state' !! currentTurnIndex state' = Some id ∧
              (id ∉ eliminatedPlayers state') ∧
              phase state' = HINTING ∧ sc_nextPlayerId result = Some id)).
Proof.
  intros Hstored. split.
  { intros Hreach.
    by destruct (reachable_world_ok w Hreach room state Hstored) as [_ (Hcursor & _)]. }
  intros playerId content result w' Hrun Hsuccess.
  destruct (submitClue_outcome room playerId content w)
    as [[message Hfail] | (state0 & clue & result0 & w0 & Hstored0 & Hphase & Hturn & Hrun0 &
                           _ & Hredis & _ & Hvoting & Hnext)].
  { rewrite Hfail in Hrun. injection Hrun as <- <-. discriminate. }
  rewrite Hrun0 in Hrun. injection Hrun as -> ->.
  rewrite Hstored in Hstored0. injection Hstored0 as <-.
  simpl in *.
  destruct (skipEliminated_spec (eliminatedPlayers state) (turnOrder state)
              (S (currentTurnIndex state))) as (Hle & Hskipped & Hstop).
  assert (skipEliminated (eliminatedPlayers state) (turnOrder state)
            (S (currentTurnIndex state)) ≤ length (turnOrder state)) as Hbound.
  { apply lookup_lt_Some in Hturn.
    pose proof (skipEliminated_le (eliminatedPlayers state) (turnOrder state)
                  (S (currentTurnIndex state))) as Hup. lia. }
  exists (state_after_clue state clue).
  split; [by rewrite Hredis; simpl; rewrite lookup_insert_eq |].
  split; [done |]. split; [done |]. simpl.
  split; [lia |].
  split; [intros k Hk; apply Hskipped; lia |].
  split; [exact Hstop |].
  destruct (decide (length (turnOrder state)
                    ≤ skipEliminated (eliminatedPlayers state) (turnOrder state)
                        (S (currentTurnIndex state)))) as [Hend | Hmore].
  - left. split; [lia | done].
  - right.
    destruct (lookup_lt_is_Some_2 (turnOrder state)
                (skipEliminated (eliminatedPlayers state) (turnOrder state)
                   (S (currentTurnIndex state)))) as [id Hid]; [lia |].
    exists id. split; [exact Hid |]. split; [by apply Hstop |].
    split; [exact Hphase | by rewrite Hnext].
Qed.

Lemma turn_cursor_invariant_witness :
  (* a world reached by play *)
  cursor_ok second_round_state ∧
  (* the cursor passes over the eliminated second player *)
  (∃ state',
     gameKeys (redis (exec (submitClue "room" "p1" a_clue)
                        (example_world skipping_state true))) !! "room" = Some state' ∧
     currentTurnIndex skipping_state = 0 ∧
     currentTurnIndex state' = 2 ∧
     turnOrder skipping_state !! 1 = Some "p2" ∧
     turnOrder state' !! currentTurnIndex state' = Some "p3" ∧
     phase state' = HINTING) ∧
  (* the cursor passes over the eliminated last players and the vote opens *)
  (∃ state',
     gameKeys (redis (exec (submitClue "room" "p4" a_clue)
                        (example_world closing_state true))) !! "room" = Some state' ∧
     currentTurnIndex closing_state = 2 ∧
     currentTurnIndex state' = 5 ∧
     phase state' = VOTING).
Proof.
  split; [| split].
  - destruct (@turn_cursor_invariant Js.vietnamese_runtime second_round_world "room"
                second_round_state) as [Hcursor _].
    { vm_compute. reflexivity. }
    exact (Hcursor second_round_world_reachable).
  - destruct (@turn_cursor_invariant Js.vietnamese_runtime
                (example_world skipping_state true) "room" skipping_state)
      as [_ Hclue]; [reflexivity |].
    destruct (Hclue "p1" a_clue
                {| sc_success := true; sc_message := None; sc_nextPlayerId := Some "p3";
                   sc_votingStarted := None |}
                (exec (submitClue "room" "p1" a_clue) (example_world skipping_state true)))
      as (state' & Hstored & _ & _ & _ & _ & _ &
          [(_ & _ & Habsurd) | (id & Hid & _ & Hphase & Hnext)]).
    { vm_compute. reflexivity. }
    { reflexivity. }
    { discriminate. }
    exists state'. split; [exact Hstored |]. split; [reflexivity |].
    split; [vm_compute in Hstored; by injection Hstored as <- |].
    split; [reflexivity |].
    split; [| exact Hphase]. simpl in Hnext. by rewrite Hid, Hnext.
  - destruct (@turn_cursor_invariant Js.vietnamese_runtime
                (example_world closing_state true) "room" closing_state)
      as [_ Hclue]; [reflexivity |].
    destruct (Hclue "p4" a_clue
                {| sc_success := true; sc_message := None; sc_nextPlayerId := None;
                   sc_votingStarted := Some true |}
                (exec (submitClue "room" "p4" a_clue) (example_world closing_state true)))
      as (state' & Hstored & _ & _ & _ & _ & _ &
          [(Hcursor & Hphase & _) | (id & _ & _ & _ & Habsurd)]).
    { vm_compute. reflexivity. }
    { reflexivity. }
    2: { discriminate. }
    exists state'. split; [exact Hstored |]. split; [reflexivity |].
    split; [| exact Hphase].
    vm_compute in Hstored. by injection Hstored as <-.
Defined.
(** * Further properties of the round engine *)

(** ** Game start *)

Lemma set_roles_ids i remaining roles rows :
  map player_id (set_roles i remaining roles rows) = map player_id rows.
Proof.
  revert i rows. induction remaining as [| p rest IH]; intros i rows; simpl; [done |].
  rewrite IH, map_map. apply map_ext. intros q.
  case_bool_decide; [| done]. by destruct (roles !! i).
Qed.

Lemma update_roles_returns i remaining roles w :
  (∀ p, p ∈ remaining → player_id p ∈ map player_id (players (db w))) →
  update_roles i remaining roles w
  = (Returned tt,
     with_db (Prisma.set_players (set_roles i remaining roles (players (db w))) (db w)) w).
Proof.
  revert i w. induction remaining as [| p rest IH]; intros i w Hknown; simpl.
  - by destruct w as [[] ? ? ?].
  - assert (is_Some (find (λ q, bool_decide (player_id q = player_id p)) (players (db w))))
      as [q Hq].
    { specialize (Hknown p (list_elem_of_here _ _)).
      apply list_elem_of_fmap in Hknown as (q & Heq & Hin).
      apply (find_is_Some _ _ q); [done |]. by apply bool_decide_eq_true_2. }
    erewrite bind_run; [| by eapply player_update_found].
    rewrite IH.
    + done.
    + intros p' Hin. simpl.
      rewrite map_map.
      erewrite map_ext; [apply Hknown; by right |].
      intros q'; simpl. case_bool_decide; [| done]. by destruct (roles !! i).
Qed.

Lemma room_update_found id f w r :
  find (λ r, bool_decide (room_id r = id)) (rooms (db w)) = Some r →
  Prisma.room_update id f w
  = (Returned tt,
     with_db (Prisma.set_rooms
                (map (λ r, if bool_decide (room_id r = id) then f r else r) (rooms (db w)))
                (db w)) w).
Proof.
  intros Hfound. unfold Prisma.room_update, Prisma.room_findUnique.
  unfold mbind, M_bind, gets. by rewrite Hfound.
Qed.

Lemma transaction_returned {A} (body : M A) w a w' :
  body w = (Returned a, w') → transaction body w = (Returned a, w').
Proof. intros Hbody. unfold transaction. by rewrite Hbody. Qed.

Lemma elem_of_filter_ids (P : Player → Prop) `{∀ p, Decision (P p)} rows p :
  p ∈ filter P rows → player_id p ∈ map player_id rows.
Proof.
  intros Hin. apply list_elem_of_fmap. exists p. split; [done |].
  by apply list_elem_of_filter in Hin as [_ Hin].
Qed.

(** The transaction of [startGame] commits. *)
Lemma startGame_transaction room wordPairId roles w r :
  find (λ r, bool_decide (room_id r = room)) (rooms (db w)) = Some r →
  transaction (
    _ ← Prisma.room_update room (Prisma.room_set_status IN_PROGRESS);
    _ ← update_roles 0 (activePlayersOf room w) roles;
    Prisma.round_create room 1 wordPairId HINTING) w
  = (Returned tt, with_db (db_after_start room wordPairId roles (db w)) w).
Proof.
  intros Hfound. apply transaction_returned.
  erewrite bind_run; [| by eapply room_update_found].
  erewrite bind_run; [| apply update_roles_returns].
  - done.
  - intros p Hin. simpl. by eapply elem_of_filter_ids.
Qed.

Lemma startGame_refused room hostUserId w :
  ¬ can_start room hostUserId w →
  ∃ message, startGame room hostUserId w = (Returned (startGame_failure message), w).
Proof.
  intros Hno. unfold startGame, Prisma.room_findUnique, Prisma.player_findMany_active.
  unfold mbind at 1, M_bind at 1, gets at 1.
  destruct (find _ _) as [r |] eqn:Hfound; [| by eexists].
  destruct (decide _) as [| Hhost]; [by eexists |].
  destruct (decide _) as [| Hstatus]; [by eexists |].
  unfold mbind at 1, M_bind at 1, gets at 1.
  destruct (decide _) as [| Hcount]; [by eexists |].
  destruct (decide (Prisma.wordPair_active w = [])) as [Hnone | Hsome].
  - erewrite bind_run; [| by apply getRandomWordPair_none]. by eexists.
  - destruct Hno. exists r. split; [done |].
    split; [by destruct (decide (room_hostId r = hostUserId)) |].
    split; [by destruct (decide (room_status r = WAITING)) |].
    split; [unfold activePlayersOf; lia | done].
Qed.

(** What [getRoomState] does: it answers [roomState_in], and warms the
    cache when it had to read the tables of a room that is not finished. *)
Lemma getRoomState_run room w :
  getRoomState room w
  = (Returned (roomState_in room w),
     match roomKeys (redis w) !! room, roomState_in room w with
     | None, Some rs =>
         if decide (rs_status rs ≠ FINISHED)
         then with_redis (set_roomKeys (<[room := rs]> (roomKeys (redis w))) (redis w)) w
         else w
     | _, _ => w
     end).
Proof.
  unfold getRoomState, roomState_in, Prisma.room_findUnique, Prisma.player_findMany_room.
  unfold mbind, M_bind, gets, mret, M_ret.
  destruct (roomKeys (redis w) !! room) as [rs |]; [done |].
  destruct (find _ _) as [r |]; [| done]. simpl.
  by destruct (decide (room_status r ≠ FINISHED)).
Qed.

Lemma startGame_started room hostUserId w :
  can_start room hostUserId w →
  returns (startGame room hostUserId) w (λ result w',
    ∃ wordPair roles order rs,
      wordPair ∈ Prisma.wordPair_active w ∧
      roles ≡ₚ roles_unshuffled (length (activePlayersOf room w)) ∧
      order ≡ₚ map player_id (activePlayersOf room w) ∧
      result = {| sg_success := true; sg_message := None;
                  sg_wordPairId := Some (wp_id wordPair) |} ∧
      db w' = db_after_start room (wp_id wordPair) roles (db w) ∧
      roomState_in room (with_db (db_after_start room (wp_id wordPair) roles (db w)) w)
      = Some rs ∧
      redis w'
      = {| roomKeys := <[rs_id rs := rs_set_status IN_PROGRESS rs]>
                         (<[room := rs]> (roomKeys (redis w)));
           gameKeys := <[room := first_round room (wp_id wordPair) order]>
                         (gameKeys (redis w));
           roomCodes := roomCodes (redis w); activeRooms := activeRooms (redis w) |} ∧
      clock w' = clock w).
Proof.
  intros (r & Hfound & Hhost & Hstatus & Hcount & Hsome).
  unfold startGame, Prisma.room_findUnique, Prisma.player_findMany_active.
  apply returns_bind, returns_gets. rewrite Hfound.
  destruct (decide _) as [Hne |]; [by destruct Hne |].
  destruct (decide _) as [Hne |]; [by destruct Hne |].
  apply returns_bind, returns_gets.
  fold (activePlayersOf room w).
  destruct (decide _) as [Hlt |]; [lia |].
  apply returns_bind.
  eapply returns_weaken; [by apply getRandomWordPair_some |].
  intros found w1 ((wordPair & -> & Hin) & Hdb1 & Hredis1 & Hclock1); simpl.
  apply returns_bind.
  eapply returns_weaken; [apply assignRoles_returns |].
  intros roles w2 (Hroles & Hdb2 & Hredis2 & Hclock2); simpl.
  assert (activePlayersOf room w = activePlayersOf room w2) as Hactive.
  { unfold activePlayersOf. by rewrite Hdb2, Hdb1. }
  rewrite Hactive.
  apply returns_bind.
  exists tt, (with_db (db_after_start room (wp_id wordPair) roles (db w2)) w2).
  split; [apply (startGame_transaction _ _ _ _ r); by rewrite Hdb2, Hdb1 |].
  apply returns_bind.
  eapply returns_weaken; [apply sort_by_returns |].
  intros shuffled w4 (Hperm & Hdb4 & Hredis4 & Hclock4); simpl.
  apply returns_bind, returns_modify.
  simpl in Hdb4, Hredis4, Hclock4.
  assert (∃ rs, roomState_in room (with_db (db_after_start room (wp_id wordPair) roles (db w)) w)
                = Some rs ∧
                (roomKeys (redis w) !! room = None → rs_id rs = room ∧ rs_status rs = IN_PROGRESS))
    as (rs & Hrs & Hbuilt).
  { unfold roomState_in. simpl.
    destruct (roomKeys (redis w) !! room) as [rs |]; [by exists rs |].
    destruct (find _ (map _ _)) as [r' |] eqn:Hfound'.
    - eexists. split; [done |]. intros _. simpl.
      apply find_some in Hfound' as [Hin' Hid'].
      apply bool_decide_eq_true_1 in Hid'. split; [done |].
      apply list_elem_of_In, list_elem_of_fmap in Hin' as (r0 & -> & _).
      case_bool_decide; [done |]. simpl in Hid'. congruence.
    - exfalso. apply find_some in Hfound as [Hin' Hid'].
      pose proof (find_none _ _ Hfound' (Prisma.room_set_status IN_PROGRESS r)) as Hnone.
      simpl in Hnone. rewrite Hid' in Hnone. enough (true = false) by done.
      apply Hnone, list_elem_of_In, list_elem_of_fmap. exists r.
      rewrite Hid'. split; [done |]. by apply list_elem_of_In. }
  match goal with
  | |- returns _ ?w5 _ =>
      assert (roomState_in room w5 = Some rs) as Hrs5;
        [| pose proof (getRoomState_run room w5) as Hrun ]
  end.
  { unfold roomState_in in *. simpl in *.
    rewrite Hdb4. simpl. rewrite Hredis4, Hdb2, Hdb1, Hredis2, Hredis1. exact Hrs. }
  rewrite Hrs5 in Hrun. simpl in Hrun.
  apply returns_bind.
  eexists _, _. split; [exact Hrun |]. simpl.
  apply returns_bind, returns_modify, returns_ret.
  exists wordPair, roles, (map player_id shuffled), rs.
  split; [done |]. split; [by rewrite <- Hactive |].
  split; [by rewrite Hperm, <- Hactive |]. split; [done |].
  rewrite Hredis4. simpl. rewrite Hredis2, Hredis1.
  destruct (roomKeys (redis w) !! room) as [cached |] eqn:Hcached; simpl.
  - split; [by rewrite Hdb4; simpl; rewrite Hdb2, Hdb1 |]. split; [done |].
    split; [| by rewrite Hclock4; simpl; rewrite Hclock2, Hclock1].
    unfold roomState_in in Hrs. simpl in Hrs. rewrite Hcached in Hrs.
    injection Hrs as <-. by rewrite (insert_id (roomKeys (redis w)) room cached).
  - destruct (Hbuilt eq_refl) as [Hid Hstarted].
    destruct (decide _) as [_ | Hfin]; [| by rewrite Hstarted in Hfin; destruct Hfin].
    simpl. split; [by rewrite Hdb4; simpl; rewrite Hdb2, Hdb1 |]. split; [done |].
    split; [| by rewrite Hclock4; simpl; rewrite Hclock2, Hclock1].
    done.
Qed.

(** *** The roles on the players table *)

Lemma set_roles_map i remaining roles rows :
  set_roles i remaining roles rows = map (role_after i remaining roles) rows.
Proof.
  revert i rows. induction remaining as [| p rest IH]; intros i rows; simpl.
  - by rewrite map_id.
  - by rewrite IH, map_map.
Qed.

Lemma player_set_role_seat role q :
  player_seat (Prisma.player_set_role role q) = player_seat q.
Proof. by destruct role. Qed.

Lemma role_after_seat i remaining roles q :
  player_seat (role_after i remaining roles q) = player_seat q.
Proof.
  revert i q. induction remaining as [| p rest IH]; intros i q; simpl; [done |].
  rewrite IH. case_bool_decide; [apply player_set_role_seat | done].
Qed.

Lemma seat_id p q : player_seat p = player_seat q → player_id p = player_id q.
Proof. unfold player_seat. congruence. Qed.

Lemma role_after_stranger i remaining roles q :
  player_id q ∉ map player_id remaining → role_after i remaining roles q = q.
Proof.
  revert i. induction remaining as [| p rest IH]; intros i Hnot; simpl; [done |].
  simpl in Hnot. apply not_elem_of_cons in Hnot as [Hne Hnot].
  rewrite bool_decide_eq_false_2 by done. by apply IH.
Qed.

Lemma role_after_member i remaining roles q k p :
  NoDup (map player_id remaining) →
  remaining !! k = Some p →
  player_id q = player_id p →
  role_after i remaining roles q = Prisma.player_set_role (roles !! (i + k)) q.
Proof.
  revert i k q. induction remaining as [| p0 rest IH]; intros i k q Hnodup Hk Hid; [done |].
  simpl in Hnodup. apply NoDup_cons in Hnodup as [Hfresh Hnodup].
  destruct k as [| k]; simpl in *.
  - injection Hk as ->. rewrite bool_decide_eq_true_2 by done.
    rewrite Nat.add_0_r. apply role_after_stranger.
    by rewrite (seat_id _ _ (player_set_role_seat _ _)), Hid.
  - rewrite bool_decide_eq_false_2.
    + rewrite (IH (S i) k q Hnodup Hk Hid). f_equal. f_equal. lia.
    + intros Heq. apply Hfresh. rewrite <- Heq, Hid.
      apply list_elem_of_fmap. exists p. split; [done |]. by eapply list_elem_of_lookup_2.
Qed.

Lemma filter_active_role_after room i remaining roles rows :
  filter (λ p, player_roomId p = room ∧ player_isActive p = true)
         (map (role_after i remaining roles) rows)
  = map (role_after i remaining roles)
        (filter (λ p, player_roomId p = room ∧ player_isActive p = true) rows).
Proof.
  induction rows as [| q rest IH]; [done |]. simpl.
  pose proof (role_after_seat i remaining roles q) as Hseat.
  unfold player_seat in Hseat.
  rewrite !filter_cons, IH.
  destruct (decide _) as [Hyes | Hno]; destruct (decide _) as [Hyes' | Hno']; try done.
  - destruct Hno'. destruct Hyes. split; congruence.
  - destruct Hno. destruct Hyes'. split; congruence.
Qed.

(** With ids that are keys, the active players of the room come out of the
    loop holding the roles in the order they were dealt. *)
Lemma set_roles_active room roles rows :
  NoDup (map player_id rows) →
  let active := filter (λ p, player_roomId p = room ∧ player_isActive p = true) rows in
  length roles = length active →
  map player_role
      (filter (λ p, player_roomId p = room ∧ player_isActive p = true)
              (set_roles 0 active roles rows))
  = map Some roles.
Proof.
  intros Hnodup active Hlen.
  rewrite set_roles_map, filter_active_role_after. fold active.
  assert (NoDup (map player_id active)) as Hactive.
  { apply (sublist_NoDup _ (map player_id rows)); [exact Hnodup |].
    apply (fmap_sublist player_id), sublist_filter. }
  apply list_eq. intros k.
  change (map ?f ?l) with (f <$> l). rewrite !list_lookup_fmap.
  destruct (active !! k) as [p |] eqn:Hk; simpl.
  - rewrite (role_after_member 0 active roles p k p Hactive Hk eq_refl). simpl.
    destruct (roles !! k) as [role |] eqn:Hrole; [done |].
    apply lookup_ge_None in Hrole. apply lookup_lt_Some in Hk. lia.
  - apply lookup_ge_None in Hk.
    rewrite (proj2 (lookup_ge_None roles k)); [done | lia].
Qed.

Lemma can_start_decide room hostUserId w :
  can_start room hostUserId w ∨ ¬ can_start room hostUserId w.
Proof.
  unfold can_start.
  destruct (find _ (rooms (db w))) as [r |]; [| right; by intros (r & Hr & _)].
  destruct (decide (room_hostId r = hostUserId));
    [| right; intros (r' & Hr & ? & _); congruence].
  destruct (decide (room_status r = WAITING));
    [| right; intros (r' & Hr & ? & ? & _); congruence].
  destruct (decide (GAME_CONFIG.MIN_PLAYERS ≤ length (activePlayersOf room w)));
    [| right; by intros (r' & Hr & ? & ? & ? & _)].
  destruct (decide (Prisma.wordPair_active w = []));
    [right; by intros (r' & Hr & ? & ? & ? & ?) |].
  left. by exists r.
Qed.

Lemma lobby_can_start : can_start "room" "p1" lobby_world.
Proof.
  eexists. split; [reflexivity |]. split; [reflexivity |]. split; [reflexivity |].
  split; [vm_compute; lia | by vm_compute].
Defined.

(** X1.  [startGame] never throws.  It reports success exactly when the
    room is on record, the caller is its host, the room is waiting, it has
    at least four active players and some word pair is active; when it
    refuses it gives a message and no word pair, and it leaves the world as
    it found it: no row, no key and no draw of [Math.random] is spent. *)
Theorem startGame_all_or_nothing (room hostUserId : Id) (w : World) :
  ∃ result w',
    startGame room hostUserId w = (Returned result, w') ∧
    (sg_success result = true ↔ can_start room hostUserId w) ∧
    (sg_success result = false →
       w' = w ∧ sg_wordPairId result = None ∧ is_Some (sg_message result)).
Proof.
  destruct (can_start_decide room hostUserId w) as [Hcan | Hcannot].
  - destruct (startGame_started room hostUserId w Hcan)
      as (result & w' & Hrun & wordPair & roles & order & rs & _ & _ & _ & -> & _).
    eexists. exists w'. split; [exact Hrun |]. split; [done |]. simpl. discriminate.
  - destruct (startGame_refused room hostUserId w Hcannot) as (message & Hrun).
    eexists. exists w. split; [exact Hrun |]. split; [split; [discriminate | done] |].
    intros _. split; [done |]. split; [done |]. by eexists.
Qed.

(** X2.  When the checks pass, [startGame] stores the session of the first
    round for the room and for no other: round 1 in HINTING, the cursor at
    0, no clue, no vote, nobody eliminated, the pair an active one, the turn
    order a permutation of the ids of the room's active players.  The room
    row is IN_PROGRESS, a round row is appended, and apart from the roles
    the players table is as before; so is the catalogue. *)
Theorem startGame_opens_first_round (room hostUserId : Id) (w : World) :
  can_start room hostUserId w →
  ∃ result w' wordPair state,
    startGame room hostUserId w = (Returned result, w') ∧
    sg_success result = true ∧
    sg_wordPairId result = Some (wp_id wordPair) ∧
    wordPair ∈ Prisma.wordPair_active w ∧
    gameKeys (redis w') = <[room := state]> (gameKeys (redis w)) ∧
    state = first_round room (wp_id wordPair) (turnOrder state) ∧
    turnOrder state ≡ₚ map player_id (activePlayersOf room w) ∧
    (∃ r, find (λ r, bool_decide (room_id r = room)) (rooms (db w')) = Some r ∧
          room_status r = IN_PROGRESS) ∧
    rounds (db w')
    = rounds (db w) ++ [{| round_id := nextRowId (db w); round_roomId := room;
                           round_roundNumber := 1; round_wordPairId := wp_id wordPair;
                           round_phase := HINTING; round_endedAt := None |}] ∧
    map player_seat (players (db w')) = map player_seat (players (db w)) ∧
    wordPairs (db w') = wordPairs (db w) ∧
    clueRows (db w') = clueRows (db w) ∧
    voteRows (db w') = voteRows (db w).
Proof.
  intros Hcan.
  destruct (startGame_started room hostUserId w Hcan)
    as (result & w' & Hrun & wordPair & roles & order & rs
        & Hin & _ & Horder & -> & Hdb & _ & Hredis & _).
  eexists. exists w', wordPair, (first_round room (wp_id wordPair) order).
  split; [exact Hrun |]. split; [done |]. split; [done |]. split; [done |].
  split; [by rewrite Hredis |]. split; [done |]. split; [done |].
  rewrite Hdb. simpl. split.
  - destruct Hcan as (r & Hfound & _).
    exists (Prisma.room_set_status IN_PROGRESS r). split; [| done].
    clear -Hfound. induction (rooms (db w)) as [| r0 rest IH]; [done |].
    simpl in *. destruct (bool_decide (room_id r0 = room)) eqn:Hid.
    + injection Hfound as ->. simpl. by rewrite Hid.
    + rewrite Hid. by apply IH.
  - split; [done |]. split; [| done].
    rewrite set_roles_map, map_map. apply map_ext. intros q. apply role_after_seat.
Qed.

Lemma startGame_opens_first_round_witness :
  ∃ result w' wordPair state,
    startGame "room" "p1" lobby_world = (Returned result, w') ∧
    sg_success result = true ∧
    sg_wordPairId result = Some (wp_id wordPair) ∧
    wordPair ∈ Prisma.wordPair_active lobby_world ∧
    gameKeys (redis w') = <["room" := state]> (gameKeys (redis lobby_world)) ∧
    state = first_round "room" (wp_id wordPair) (turnOrder state) ∧
    turnOrder state ≡ₚ map player_id (activePlayersOf "room" lobby_world) ∧
    (∃ r, find (λ r, bool_decide (room_id r = "room")) (rooms (db w')) = Some r ∧
          room_status r = IN_PROGRESS) ∧
    rounds (db w')
    = rounds (db lobby_world)
      ++ [{| round_id := nextRowId (db lobby_world); round_roomId := "room";
             round_roundNumber := 1; round_wordPairId := wp_id wordPair;
             round_phase := HINTING; round_endedAt := None |}] ∧
    map player_seat (players (db w')) = map player_seat (players (db lobby_world)) ∧
    wordPairs (db w') = wordPairs (db lobby_world) ∧
    clueRows (db w') = clueRows (db lobby_world) ∧
    voteRows (db w') = voteRows (db lobby_world).
Proof. apply (startGame_opens_first_round "room" "p1" lobby_world lobby_can_start). Defined.

Lemma elem_of_unique_id (rows : list Player) p q :
  NoDup (map player_id rows) → p ∈ rows → q ∈ rows → player_id p = player_id q → p = q.
Proof.
  induction rows as [| r rest IH]; intros Hnodup Hp Hq Hid; [by apply elem_of_nil in Hp |].
  simpl in Hnodup. apply NoDup_cons in Hnodup as [Hfresh Hnodup].
  apply elem_of_cons in Hp as [-> | Hp]; apply elem_of_cons in Hq as [-> | Hq].
  - done.
  - destruct Hfresh. rewrite Hid. apply list_elem_of_fmap. by exists q.
  - destruct Hfresh. rewrite <- Hid. apply list_elem_of_fmap. by exists p.
  - by apply IH.
Qed.

(** X3.  With player ids that are keys, a game that starts leaves the
    active players of the room holding, in table order, the roles that were
    dealt: one BLACK_HAT, one WHITE_HAT exactly when they are more than
    five, CIVILIAN for the rest.  The seats of the players do not change,
    and the rows of everybody else are untouched. *)
Theorem startGame_deals_roles (room hostUserId : Id) (w : World) :
  can_start room hostUserId w →
  unique_player_ids (db w) →
  ∃ result w' roles,
    startGame room hostUserId w = (Returned result, w') ∧
    map player_role (activePlayersOf room w') = map Some roles ∧
    role_distribution 5 (length (activePlayersOf room w)) roles ∧
    map player_seat (activePlayersOf room w') = map player_seat (activePlayersOf room w) ∧
    (∀ p, p ∈ players (db w) → p ∉ activePlayersOf room w → p ∈ players (db w')).
Proof.
  intros Hcan Hunique.
  destruct (startGame_started room hostUserId w Hcan)
    as (result & w' & Hrun & wordPair & roles & order & rs
        & _ & Hroles & _ & _ & Hdb & _).
  exists result, w', roles. split; [exact Hrun |].
  assert (length roles = length (activePlayersOf room w)) as Hlen.
  { rewrite Hroles. destruct Hcan as (_ & _ & _ & _ & Hcount & _).
    apply (roles_unshuffled_distribution (length (activePlayersOf room w))).
    unfold GAME_CONFIG.MIN_PLAYERS in Hcount. lia. }
  unfold activePlayersOf at 1 3. rewrite Hdb. simpl.
  split; [by apply set_roles_active |]. split.
  { rewrite Hroles. apply roles_unshuffled_distribution.
    destruct Hcan as (_ & _ & _ & _ & Hcount & _).
    unfold GAME_CONFIG.MIN_PLAYERS in Hcount. lia. }
  rewrite set_roles_map. split.
  - rewrite filter_active_role_after, map_map. apply map_ext. intros q.
    apply role_after_seat.
  - intros p Hin Hnot. apply list_elem_of_fmap. exists p. split; [| done].
    symmetry. apply role_after_stranger. intros Hid.
    apply list_elem_of_fmap in Hid as (q & Hid & Hq). apply Hnot.
    assert (p = q) as ->; [| exact Hq].
    apply (elem_of_unique_id (players (db w))); [done | done | | done].
    by apply list_elem_of_filter in Hq as [_ Hq].
Qed.

Lemma startGame_deals_roles_witness :
  ∃ result w' roles,
    startGame "room" "p1" lobby_world = (Returned result, w') ∧
    map player_role (activePlayersOf "room" w') = map Some roles ∧
    role_distribution 5 (length (activePlayersOf "room" lobby_world)) roles ∧
    map player_seat (activePlayersOf "room" w')
    = map player_seat (activePlayersOf "room" lobby_world) ∧
    (∀ p, p ∈ players (db lobby_world) → p ∉ activePlayersOf "room" lobby_world →
          p ∈ players (db w')).
Proof.
  apply (startGame_deals_roles "room" "p1" lobby_world lobby_can_start).
  unfold unique_player_ids. compute_done.
Defined.

(** ** Clue submission *)

Lemma submitClue_accepted room playerId content w state round player :
  gameKeys (redis w) !! room = Some state →
  phase state = HINTING →
  turnOrder state !! currentTurnIndex state = Some playerId →
  find (λ r, bool_decide (round_roomId r = room ∧ round_roundNumber r = roundNumber state))
       (rounds (db w)) = Some round →
  find (λ p, bool_decide (player_id p = playerId)) (players (db w)) = Some player →
  submitClue room playerId content w
  = (Returned (clue_accepted state), world_after_clue state round player content w).
Proof.
  intros Hstored Hphase Hturn Hround Hplayer.
  assert (player_id player = playerId) as Hid.
  { apply find_some in Hplayer as [_ Hid]. by apply bool_decide_eq_true_1 in Hid. }
  unfold submitClue, getGameState, Prisma.round_findFirst, Prisma.player_findUnique,
    Prisma.clue_create, Prisma.round_update, Prisma.modify_db, setGameState, modify_redis.
  unfold mbind, M_bind, modify, gets, mret, M_ret.
  cbn beta. rewrite Hstored.
  destruct (decide (phase state ≠ HINTING)) as [Hne |]; [by destruct Hne |].
  destruct (decide (turnOrder state !! currentTurnIndex state ≠ Some playerId))
    as [Hne |]; [by destruct Hne |].
  rewrite Hround, Hplayer.
  unfold world_after_clue, clue_accepted, state_after_clue, clue_of. simpl.
  rewrite Hid.
  destruct (decide (length (turnOrder state)
                    ≤ skipEliminated (eliminatedPlayers state) (turnOrder state)
                        (S (currentTurnIndex state)))) as [Hend | Hmore].
  - destruct (find_is_Some (λ r, bool_decide (round_id r = round_id round))
                (rounds (db w)) round) as [r0 Hr0].
    { apply list_elem_of_In. by eapply find_some. }
    { by apply bool_decide_eq_true. }
    unfold with_db, with_redis. simpl. by rewrite Hr0.
  - done.
Qed.

Lemma submitClue_rejected room playerId content w :
  ¬ clue_due room playerId w →
  ∃ message, submitClue room playerId content w = (Returned (submitClue_failure message), w).
Proof.
  intros Hnot.
  unfold submitClue, getGameState, Prisma.round_findFirst, Prisma.player_findUnique.
  unfold mbind at 1, M_bind at 1, gets at 1.
  destruct (gameKeys (redis w) !! room) as [state |] eqn:Hstored; [| by eexists].
  destruct (decide (phase state ≠ HINTING)) as [| Hphase]; [by eexists |].
  apply dec_stable in Hphase.
  destruct (decide (turnOrder state !! currentTurnIndex state ≠ Some playerId))
    as [| Hturn]; [by eexists |].
  apply dec_stable in Hturn.
  unfold mbind at 1, M_bind at 1, gets at 1.
  destruct (find _ (rounds (db w))) as [round |] eqn:Hround; [| by eexists].
  unfold mbind at 1, M_bind at 1, gets at 1.
  destruct (find _ (players (db w))) as [player |] eqn:Hplayer; [| by eexists].
  destruct Hnot. by exists state, round, player.
Qed.

Lemma clue_due_decide room playerId w : clue_due room playerId w ∨ ¬ clue_due room playerId w.
Proof.
  unfold clue_due.
  destruct (gameKeys (redis w) !! room) as [state |];
    [| right; by intros (? & ? & ? & ? & _)].
  destruct (decide (phase state = HINTING));
    [| right; intros (? & ? & ? & [= <-] & ? & _); done].
  destruct (decide (turnOrder state !! currentTurnIndex state = Some playerId));
    [| right; intros (? & ? & ? & [= <-] & ? & ? & _); done].
  destruct (find (λ r, bool_decide (round_roomId r = room
                                    ∧ round_roundNumber r = roundNumber state))
                 (rounds (db w))) as [round |] eqn:Hround;
    [| right; intros (? & ? & ? & [= <-] & ? & ? & Hr & _); congruence].
  destruct (find (λ p, bool_decide (player_id p = playerId)) (players (db w)))
    as [player |];
    [| right; intros (? & ? & ? & _ & _ & _ & _ & ?); done].
  left. by exists state, round, player.
Qed.

(** X4.  [submitClue] never throws.  It accepts a clue exactly when the
    room has a session in HINTING whose cursor is on the player and the
    round and the player are on record; a clue it refuses leaves the world
    as it was.  An accepted clue is appended to the clues of the session,
    under the name and the time of the submission, with one row of history;
    the round, the turn order, the votes, the eliminated players and the
    word pair of the session stay, and so do all tables but the history,
    except that the round row turns to VOTING when the session does. *)
Theorem submitClue_all_or_nothing (room playerId : Id) (content : Text) (w : World) :
  ∃ result w',
    submitClue room playerId content w = (Returned result, w') ∧
    (sc_success result = true ↔ clue_due room playerId w) ∧
    (sc_success result = false → w' = w ∧ is_Some (sc_message result)) ∧
    (sc_success result = true →
       ∃ state state' round player,
         gameKeys (redis w) !! room = Some state ∧
         find (λ r, bool_decide (round_roomId r = room
                                 ∧ round_roundNumber r = roundNumber state))
              (rounds (db w)) = Some round ∧
         find (λ p, bool_decide (player_id p = playerId)) (players (db w)) = Some player ∧
         redis w' = set_gameKeys (<[roomId state := state']> (gameKeys (redis w))) (redis w) ∧
         clues state'
         = clues state ++ [{| clue_playerId := playerId;
                              clue_displayName := player_displayName player;
                              clue_content := content; clue_createdAt := clock w |}] ∧
         clueRows (db w')
         = clueRows (db w) ++ [{| cr_roundId := round_id round; cr_playerId := playerId;
                                  cr_content := content |}] ∧
         roomId state' = roomId state ∧
         roundNumber state' = roundNumber state ∧
         turnOrder state' = turnOrder state ∧
         votes state' = votes state ∧
         eliminatedPlayers state' = eliminatedPlayers state ∧
         wordPairId state' = wordPairId state ∧
         (phase state' = VOTING ∨ phase state' = HINTING) ∧
         (phase state' = VOTING ↔ sc_votingStarted result = Some true) ∧
         rounds (db w')
         = (if decide (phase state' = VOTING)
            then map (λ r, if bool_decide (round_id r = round_id round)
                           then Prisma.round_set_phase VOTING r else r) (rounds (db w))
            else rounds (db w)) ∧
         rooms (db w') = rooms (db w) ∧
         players (db w') = players (db w) ∧
         wordPairs (db w') = wordPairs (db w) ∧
         voteRows (db w') = voteRows (db w)).
Proof.
  destruct (clue_due_decide room playerId w)
    as [(state & round & player & Hstored & Hphase & Hturn & Hround & Hplayer) | Hnot].
  - pose proof (submitClue_accepted room playerId content w state round player
                  Hstored Hphase Hturn Hround Hplayer) as Hrun.
    assert (player_id player = playerId) as Hid.
    { apply find_some in Hplayer as [_ Hid]. by apply bool_decide_eq_true_1 in Hid. }
    eexists _, _. split; [exact Hrun |].
    assert (sc_success (clue_accepted state) = true) as Hsuccess.
    { unfold clue_accepted. by destruct (decide _). }
    split; [split; [intros _; by exists state, round, player | done] |].
    split; [intros Hfalse; congruence |].
    intros _.
    exists state, (state_after_clue state (clue_of player content w)), round, player.
    unfold world_after_clue, clue_accepted, state_after_clue, clue_of. simpl.
    rewrite Hid, Hphase.
    destruct (decide (length (turnOrder state)
                      ≤ skipEliminated (eliminatedPlayers state) (turnOrder state)
                          (S (currentTurnIndex state)))) as [Hend | Hmore]; simpl.
    + repeat (split; [done |]). split; [by left |]. split; [done |].
      destruct (decide (VOTING = VOTING)); done.
    + repeat (split; [done |]). split; [by right |].
      split; [split; discriminate |].
      destruct (decide (HINTING = VOTING)); done.
  - destruct (submitClue_rejected room playerId content w Hnot) as [message Hrun].
    eexists _, _. split; [exact Hrun |]. simpl.
    split; [split; [discriminate | done] |].
    split; [intros _; split; [done | by eexists] | discriminate].
Qed.

(** *** A whole round of hints *)

Lemma skipEliminated_none_eliminated eliminated order i :
  (∀ id, id ∈ order → id ∉ eliminated) → skipEliminated eliminated order i = i.
Proof.
  intros Hclean. unfold skipEliminated.
  destruct (drop i order) as [| p rest] eqn:Hdrop; [done |]. simpl.
  unfold includes. rewrite bool_decide_eq_false_2; [done |].
  apply Hclean. apply (list_elem_of_lookup_2 _ i).
  rewrite <- (Nat.add_0_r i), <- lookup_drop, Hdrop. done.
Qed.

Lemma state_after_clue_clean state clue :
  (∀ id, id ∈ turnOrder state → id ∉ eliminatedPlayers state) →
  state_after_clue state clue
  = {| roomId := roomId state; roundNumber := roundNumber state;
       phase := if decide (length (turnOrder state) ≤ S (currentTurnIndex state))
                then VOTING else phase state;
       turnOrder := turnOrder state; currentTurnIndex := S (currentTurnIndex state);
       clues := clues state ++ [clue]; votes := votes state;
       eliminatedPlayers := eliminatedPlayers state; wordPairId := wordPairId state |}.
Proof.
  intros Hclean. unfold state_after_clue.
  by rewrite skipEliminated_none_eliminated.
Qed.

Lemma give_clues_run room contents : ∀ w state round,
  gameKeys (redis w) !! room = Some state →
  roomId state = room →
  phase state = HINTING →
  currentTurnIndex state < length (turnOrder state) →
  (∀ id, id ∈ turnOrder state → id ∉ eliminatedPlayers state) →
  (∀ id, id ∈ turnOrder state →
         is_Some (find (λ p, bool_decide (player_id p = id)) (players (db w)))) →
  find (λ r, bool_decide (round_roomId r = room ∧ round_roundNumber r = roundNumber state))
       (rounds (db w)) = Some round →
  length contents = length (turnOrder state) - currentTurnIndex state →
  let turns := zip (drop (currentTurnIndex state) (turnOrder state)) contents in
  let w' := give_clues room turns w in
  ∃ state',
    gameKeys (redis w') = <[room := state']> (gameKeys (redis w)) ∧
    phase state' = VOTING ∧
    currentTurnIndex state' = length (turnOrder state) ∧
    map clue_playerId (clues state') = map clue_playerId (clues state) ++ turns.*1 ∧
    map clue_content (clues state') = map clue_content (clues state) ++ turns.*2 ∧
    roundNumber state' = roundNumber state ∧
    turnOrder state' = turnOrder state ∧
    votes state' = votes state ∧
    eliminatedPlayers state' = eliminatedPlayers state ∧
    wordPairId state' = wordPairId state ∧
    clueRows (db w')
    = clueRows (db w)
      ++ map (λ turn, {| cr_roundId := round_id round; cr_playerId := turn.1;
                         cr_content := turn.2 |}) turns ∧
    rounds (db w')
    = map (λ r, if bool_decide (round_id r = round_id round)
                then Prisma.round_set_phase VOTING r else r) (rounds (db w)) ∧
    players (db w') = players (db w).
Proof.
  induction contents as [| content rest IH];
    intros w state round Hstored Hroom Hphase Hcursor Hclean Hplayers Hround Hlen;
    simpl in Hlen; [lia |].
  destruct (lookup_lt_is_Some_2 (turnOrder state) (currentTurnIndex state) Hcursor)
    as [playerId Hturn].
  destruct (Hplayers playerId (list_elem_of_lookup_2 _ _ _ Hturn)) as [player Hplayer].
  assert (player_id player = playerId) as Hid.
  { apply find_some in Hplayer as [_ Hid]. by apply bool_decide_eq_true_1 in Hid. }
  rewrite (drop_S _ _ _ Hturn). simpl.
  unfold exec.
  rewrite (submitClue_accepted room playerId content w state round player
             Hstored Hphase Hturn Hround Hplayer).
  unfold world_after_clue. rewrite (state_after_clue_clean _ _ Hclean).
  unfold clue_of. simpl. rewrite Hid, Hphase, Hroom.
  destruct (decide (length (turnOrder state) ≤ S (currentTurnIndex state))) as [Hend | Hmore].
  - assert (rest = []) as -> by (apply nil_length_inv; lia).
    rewrite zip_with_nil_r. simpl.
    eexists. split; [reflexivity |]. simpl.
    split; [done |]. split; [lia |].
    rewrite !map_app. done.
  - match goal with
    | |- context [give_clues room _ ?w1] =>
        match w1 with
        | context [<[room := ?state1]> _] =>
            destruct (IH w1 state1 round)
              as (state' & Hredis & Hvoting & Hfinal & Hauthors & Hcontents & Hnumber
                  & Horder & Hvotes & Heliminated & Hpair & Hrows & Hrounds & Hsame)
        end
    end; simpl.
    + by rewrite lookup_insert_eq.
    + done.
    + done.
    + lia.
    + done.
    + done.
    + exact Hround.
    + lia.
    + simpl in *.
      exists state'. rewrite Hredis, Hrows, Hrounds, Hsame.
      split; [by rewrite insert_insert_eq |].
      split; [done |]. split; [done |].
      rewrite Hauthors, Hcontents. rewrite !map_app. simpl.
      rewrite <- !(assoc_L (++)). simpl.
      repeat (split; [done |]). done.
Qed.

(** X5.  A round of hints runs to its end.  In a session that is HINTING,
    none of whose players is eliminated and all of whom are on record, let
    the players from the cursor on give their clues one after the other, in
    the turn order.  Every clue is accepted; the session ends up in VOTING
    with the cursor past the turn order, the clues recorded in the order
    and with the contents they were given, one row of history each, and
    the round row in VOTING; nothing else of the session has changed.
    From then on every clue is refused. *)
Theorem hinting_round_completes
    (room : Id) (contents : list Text) (w : World) (state : GameState) (round : Round) :
  gameKeys (redis w) !! room = Some state →
  roomId state = room →
  phase state = HINTING →
  currentTurnIndex state < length (turnOrder state) →
  (∀ id, id ∈ turnOrder state → id ∉ eliminatedPlayers state) →
  (∀ id, id ∈ turnOrder state →
         is_Some (find (λ p, bool_decide (player_id p = id)) (players (db w)))) →
  find (λ r, bool_decide (round_roomId r = room ∧ round_roundNumber r = roundNumber state))
       (rounds (db w)) = Some round →
  length contents = length (turnOrder state) - currentTurnIndex state →
  let turns := zip (drop (currentTurnIndex state) (turnOrder state)) contents in
  let w' := give_clues room turns w in
  ∃ state',
    gameKeys (redis w') = <[room := state']> (gameKeys (redis w)) ∧
    phase state' = VOTING ∧
    currentTurnIndex state' = length (turnOrder state) ∧
    map clue_playerId (clues state')
    = map clue_playerId (clues state) ++ drop (currentTurnIndex state) (turnOrder state) ∧
    map clue_content (clues state') = map clue_content (clues state) ++ contents ∧
    roundNumber state' = roundNumber state ∧
    turnOrder state' = turnOrder state ∧
    votes state' = votes state ∧
    eliminatedPlayers state' = eliminatedPlayers state ∧
    wordPairId state' = wordPairId state ∧
    clueRows (db w')
    = clueRows (db w)
      ++ map (λ turn, {| cr_roundId := round_id round; cr_playerId := turn.1;
                         cr_content := turn.2 |}) turns ∧
    rounds (db w')
    = map (λ r, if bool_decide (round_id r = round_id round)
                then Prisma.round_set_phase VOTING r else r) (rounds (db w)) ∧
    (∀ playerId content,
       ∃ message,
         submitClue room playerId content w' = (Returned (submitClue_failure message), w')).
Proof.
  intros Hstored Hroom Hphase Hcursor Hclean Hplayers Hround Hlen turns w'.
  destruct (give_clues_run room contents w state round
              Hstored Hroom Hphase Hcursor Hclean Hplayers Hround Hlen)
    as (state' & Hredis & Hvoting & Hfinal & Hauthors & Hcontents & Hnumber
        & Horder & Hvotes & Heliminated & Hpair & Hrows & Hrounds & _).
  fold turns in Hredis, Hauthors, Hcontents, Hrows, Hrounds. fold w' in Hredis, Hrows, Hrounds.
  assert (length (drop (currentTurnIndex state) (turnOrder state)) = length contents)
    as Hsame by (rewrite length_drop; lia).
  exists state'. split; [exact Hredis |]. split; [exact Hvoting |]. split; [exact Hfinal |].
  split; [by rewrite Hauthors; unfold turns; rewrite fst_zip by lia |].
  split; [by rewrite Hcontents; unfold turns; rewrite snd_zip by lia |].
  repeat (split; [done |]).
  intros playerId content. apply submitClue_rejected.
  intros (state0 & _ & _ & Hstored0 & Hphase0 & _).
  rewrite Hredis, lookup_insert_eq in Hstored0. injection Hstored0 as <-. congruence.
Qed.

Lemma hinting_round_completes_witness :
  let state := first_round "room" "wp" ["p2"; "p1"; "p4"; "p3"] in
  let round := {| round_id := 0; round_roomId := "room"; round_roundNumber := 1;
                  round_wordPairId := "wp"; round_phase := HINTING;
                  round_endedAt := None |} in
  let contents := [a_clue; Meo; Cho; a_clue] in
  let turns := zip (drop (currentTurnIndex state) (turnOrder state)) contents in
  let w' := give_clues "room" turns started_world in
  ∃ state',
    gameKeys (redis w') = <["room" := state']> (gameKeys (redis started_world)) ∧
    phase state' = VOTING ∧
    currentTurnIndex state' = length (turnOrder state) ∧
    map clue_playerId (clues state')
    = map clue_playerId (clues state) ++ drop (currentTurnIndex state) (turnOrder state) ∧
    map clue_content (clues state') = map clue_content (clues state) ++ contents ∧
    roundNumber state' = roundNumber state ∧
    turnOrder state' = turnOrder state ∧
    votes state' = votes state ∧
    eliminatedPlayers state' = eliminatedPlayers state ∧
    wordPairId state' = wordPairId state ∧
    clueRows (db w')
    = clueRows (db started_world)
      ++ map (λ turn, {| cr_roundId := round_id round; cr_playerId := turn.1;
                         cr_content := turn.2 |}) turns ∧
    rounds (db w')
    = map (λ r, if bool_decide (round_id r = round_id round)
                then Prisma.round_set_phase VOTING r else r) (rounds (db started_world)) ∧
    (∀ playerId content,
       ∃ message,
         submitClue "room" playerId content w'
         = (Returned (submitClue_failure message), w')).
Proof.
  apply (hinting_round_completes "room" [a_clue; Meo; Cho; a_clue] started_world
           (first_round "room" "wp" ["p2"; "p1"; "p4"; "p3"])
           {| round_id := 0; round_roomId := "room"; round_roundNumber := 1;
              round_wordPairId := "wp"; round_phase := HINTING; round_endedAt := None |}).
  - vm_compute. reflexivity.
  - reflexivity.
  - reflexivity.
  - simpl. lia.
  - intros id _. apply not_elem_of_nil.
  - intros id Hin. apply list_elem_of_In in Hin. simpl in Hin.
    destruct Hin as [<- | [<- | [<- | [<- | []]]]]; vm_compute; eauto.
  - vm_compute. reflexivity.
  - reflexivity.
Defined.

(** ** Voting *)

Lemma submitVote_accepted room voterId targetId w state round :
  gameKeys (redis w) !! room = Some state →
  phase state = VOTING →
  voterId ∉ eliminatedPlayers state →
  ¬ reads_as_cast (votes state) voterId →
  find (λ r, bool_decide (round_roomId r = room ∧ round_roundNumber r = roundNumber state))
       (rounds (db w)) = Some round →
  submitVote room voterId targetId w
  = (Returned {| sv_success := true; sv_message := None;
                 sv_allVoted :=
                   Some (forallb (λ id, truthy_member
                                          (Js.get (<[voterId := targetId]> (votes state)) id))
                           (filter (λ id, includes (eliminatedPlayers state) id = false)
                                   (turnOrder state))) |},
     world_after_vote state round voterId targetId w).
Proof.
  intros Hstored Hphase Hin Hvoted Hround.
  unfold submitVote, getGameState, Prisma.round_findFirst, Prisma.vote_create,
    Prisma.modify_db, setGameState, modify_redis.
  unfold mbind, M_bind, modify, gets, mret, M_ret.
  cbn beta. rewrite Hstored.
  destruct (decide (phase state ≠ VOTING)) as [Hne |]; [by destruct Hne |].
  unfold includes at 1. rewrite bool_decide_eq_false_2 by done.
  apply truthy_member_false in Hvoted as Hread. rewrite Hread, Hround.
  by rewrite (put_unread _ _ targetId Hvoted).
Qed.

Lemma submitVote_rejected room voterId targetId w :
  ¬ vote_due room voterId w →
  ∃ message, submitVote room voterId targetId w = (Returned (submitVote_failure message), w).
Proof.
  intros Hnot.
  unfold submitVote, getGameState, Prisma.round_findFirst.
  unfold mbind at 1, M_bind at 1, gets at 1.
  destruct (gameKeys (redis w) !! room) as [state |] eqn:Hstored; [| by eexists].
  destruct (decide (phase state ≠ VOTING)) as [| Hphase]; [by eexists |].
  apply dec_stable in Hphase.
  unfold includes at 1. case_bool_decide as Heliminated; [by eexists |].
  destruct (truthy_member (Js.get (votes state) voterId)) eqn:Hvoted; [by eexists |].
  apply truthy_member_false in Hvoted.
  unfold mbind at 1, M_bind at 1, gets at 1.
  destruct (find _ (rounds (db w))) as [round |] eqn:Hround; [| by eexists].
  destruct Hnot. by exists state, round.
Qed.

Lemma vote_due_decide room voterId w : vote_due room voterId w ∨ ¬ vote_due room voterId w.
Proof.
  unfold vote_due.
  destruct (gameKeys (redis w) !! room) as [state |];
    [| right; by intros (? & ? & ? & _)].
  destruct (decide (phase state = VOTING));
    [| right; intros (? & ? & [= <-] & ? & _); done].
  destruct (decide (voterId ∈ eliminatedPlayers state));
    [right; intros (? & ? & [= <-] & ? & ? & _); done |].
  destruct (decide (reads_as_cast (votes state) voterId));
    [right; intros (? & ? & [= <-] & ? & ? & ? & _); done |].
  destruct (find (λ r, bool_decide (round_roomId r = room
                                    ∧ round_roundNumber r = roundNumber state))
                 (rounds (db w))) as [round |] eqn:Hround;
    [| right; intros (? & ? & [= <-] & ? & ? & ? & ?); congruence].
  left. by exists state, round.
Qed.

Lemma all_voted_spec state :
  forallb (λ id, truthy_member (Js.get (votes state) id))
          (filter (λ id, includes (eliminatedPlayers state) id = false) (turnOrder state))
  = true ↔ all_voted state.
Proof.
  rewrite forallb_forall. unfold all_voted. split.
  - intros Hall id Hin Hnot.
    apply truthy_member_spec, Hall, list_elem_of_In, list_elem_of_filter.
    split; [| done]. unfold includes. by apply bool_decide_eq_false_2.
  - intros Hall id Hin. apply list_elem_of_In, list_elem_of_filter in Hin as [Hnot Hin].
    apply truthy_member_spec, Hall; [done |]. unfold includes in Hnot.
    by apply bool_decide_eq_false_1 in Hnot.
Qed.

(** X6.  [submitVote] never throws.  It accepts a vote exactly when the
    room has a session in VOTING, the voter is not eliminated and has no
    vote that reads as cast, and the round is on record: neither the voter
    nor the target has to be a player of the game.  [votes[id]] reads as a
    vote that was cast when the id has a target on record that is not the
    empty string, and also when it has none and is the name of a member
    that objects inherit, [constructor] for one: such a voter is refused
    without having voted.  A vote it refuses leaves the world as it was.  An
    accepted vote is recorded in the session and in one row of history and
    changes nothing else; and [allVoted] is reported exactly when, with this
    vote, every player of the turn order who is not eliminated has a vote
    that reads as cast. *)
Theorem submitVote_all_or_nothing (room voterId targetId : Id) (w : World) :
  ∃ result w',
    submitVote room voterId targetId w = (Returned result, w') ∧
    (sv_success result = true ↔ vote_due room voterId w) ∧
    (sv_success result = false →
       w' = w ∧ is_Some (sv_message result) ∧ sv_allVoted result = None) ∧
    (sv_success result = true →
       ∃ state state' round,
         gameKeys (redis w) !! room = Some state ∧
         find (λ r, bool_decide (round_roomId r = room
                                 ∧ round_roundNumber r = roundNumber state))
              (rounds (db w)) = Some round ∧
         state' = set_votes (<[voterId := targetId]> (votes state)) state ∧
         redis w' = set_gameKeys (<[roomId state := state']> (gameKeys (redis w))) (redis w) ∧
         voteRows (db w')
         = voteRows (db w) ++ [{| vr_roundId := round_id round; vr_voterId := voterId;
                                  vr_targetId := targetId |}] ∧
         rooms (db w') = rooms (db w) ∧
         players (db w') = players (db w) ∧
         wordPairs (db w') = wordPairs (db w) ∧
         rounds (db w') = rounds (db w) ∧
         clueRows (db w') = clueRows (db w) ∧
         ∃ allVoted, sv_allVoted result = Some allVoted ∧
                     (allVoted = true ↔ all_voted state')).
Proof.
  destruct (vote_due_decide room voterId w)
    as [(state & round & Hstored & Hphase & Hin & Hvoted & Hround) | Hnot].
  - eexists _, _.
    split; [exact (submitVote_accepted room voterId targetId w state round
                     Hstored Hphase Hin Hvoted Hround) |]. simpl.
    split; [split; [intros _; by exists state, round | done] |].
    split; [discriminate |]. intros _.
    exists state, (set_votes (<[voterId := targetId]> (votes state)) state), round.
    repeat (split; [done |]).
    eexists. split; [reflexivity |].
    exact (all_voted_spec (set_votes (<[voterId := targetId]> (votes state)) state)).
  - destruct (submitVote_rejected room voterId targetId w Hnot) as [message Hrun].
    eexists _, _. split; [exact Hrun |]. simpl.
    split; [split; [discriminate | done] |].
    split; [intros _; split; [done | split; [by eexists | done]] | discriminate].
Qed.

(** A voter whose id is [constructor] is told that the vote was cast
    already, and nothing is written. *)
Example submitVote_inherited_name :
  submitVote "room" "constructor" "p1" (example_world voting_state true)
  = (Returned (submitVote_failure "Bạn đã bỏ phiếu rồi."), example_world voting_state true).
Proof. reflexivity. Qed.

(** ** Vote resolution *)

Lemma resolveVotes_no_session room w :
  gameKeys (redis w) !! room = None →
  resolveVotes room w = (Thrown "Game state not found", w).
Proof.
  intros Hnone. unfold resolveVotes, getGameState.
  unfold mbind, M_bind, gets. by rewrite Hnone.
Qed.

(** The branch of [resolveVotes] that follows the elimination of a player
    who is not the white hat. *)
Lemma deactivate_rooms target w : rooms (db (deactivate target w)) = rooms (db w).
Proof. done. Qed.

Lemma deactivate_redis target w : redis (deactivate target w) = redis w.
Proof. done. Qed.

Lemma resolveVotes_thrown room w message w' :
  resolveVotes room w = (Thrown message, w') → resolve_failure room w message w'.
Proof.
  intros Hrun.
  destruct (gameKeys (redis w) !! room) as [state |] eqn:Hstored.
  2: { rewrite resolveVotes_no_session in Hrun by done. injection Hrun as <- <-.
       by apply failure_no_session. }
  destruct (decide (1 < length (topTargets (voteCounts (votes state))))) as [Htie | Hone].
  { rewrite (resolveVotes_tie room w state Hstored Htie) in Hrun.
    destruct (startNextRound_players room state w) as (w1 & Hnext & _).
    erewrite bind_run in Hrun; [| exact Hnext]. discriminate. }
  destruct (length_one_or_less _ Hone) as [Hnil | [target Htop]].
  { rewrite (resolveVotes_no_target room w state Hstored Hnil) in Hrun.
    injection Hrun as <- <-. apply topTargets_nil_iff in Hnil.
    by eapply failure_no_target. }
  destruct (find (λ p, bool_decide (player_id p = target)) (players (db w)))
    as [player |] eqn:Hplayer.
  2: { rewrite (resolveVotes_unknown_target room w state target Hstored Htop Hplayer)
         in Hrun.
       injection Hrun as <- <-. by eapply failure_unknown_target. }
  rewrite (resolveVotes_single_target room w state target player Hstored Htop Hplayer)
    in Hrun.
  case_bool_decide as Hwhite.
  { match type of Hrun with
    | (_ ← Prisma.round_findFirst _ (roundNumber ?s); _) _ = _ =>
        destruct (white_hat_eliminated_returns room s (deactivate target w)
                    {| eliminatedPlayerId := Some target;
                       eliminatedRole := player_role player; isWhiteHat := true;
                       rr_gameOver := false; rr_winner := None |})
          as (w1 & Hwhite_run & _)
    end.
    simpl in Hwhite_run, Hrun. rewrite Hwhite_run in Hrun. discriminate. }
  pose proof (elimination_outcome room
                (set_eliminatedPlayers (eliminatedPlayers state ++ [target]) state)
                target (player_role player) (deactivate target w)) as Hout.
  simpl in Hout.
  destruct (gameOver (winReturn_result (winReturn (activePlayersOf room
                                                    (deactivate target w))))) eqn:Hover.
  + destruct (find (λ r, bool_decide (room_id r = room)) (rooms (db w)))
      as [r |] eqn:Hroom.
    * destruct Hout as (w1 & Hreturned & _). rewrite Hreturned in Hrun. discriminate.
    * rewrite Hout in Hrun. injection Hrun as <- <-.
      by eapply failure_room_missing.
  + destruct Hout as (w1 & Hreturned & _). rewrite Hreturned in Hrun. discriminate.
Qed.

Lemma resolve_failure_thrown room w message w' :
  resolve_failure room w message w' → resolveVotes room w = (Thrown message, w').
Proof.
  intros [Hnone | state Hstored Hvotes | state target Hstored Htop Hplayer
          | state target player Hstored Htop Hplayer Hwhite Hover Hroom].
  + by apply resolveVotes_no_session.
  + apply (resolveVotes_no_target room w state); [done |]. by apply topTargets_nil_iff.
  + by apply (resolveVotes_unknown_target room w state target).
  + rewrite (resolveVotes_single_target room w state target player Hstored Htop Hplayer).
    rewrite bool_decide_eq_false_2 by done.
    pose proof (elimination_outcome room
                  (set_eliminatedPlayers (eliminatedPlayers state ++ [target]) state)
                  target (player_role player) (deactivate target w)) as Hout.
    simpl in Hout. rewrite Hover in Hout. simpl in Hroom. rewrite Hroom in Hout.
    exact Hout.
Qed.

(** X7.  [resolveVotes] throws in four situations and in no other: the
    room has no session; the tally has no top target, which is so when
    nobody has voted, when every vote names [__proto__], and when some vote
    names another member that objects inherit, [constructor] for one; the
    single top target is not a player; or the elimination ends the game of a
    room that the rooms table does not know.  In the first three nothing has
    been written; in the last the player has been marked inactive
    already. *)
Theorem resolveVotes_failures (room : Id) (w : World) (message : string) (w' : World) :
  resolveVotes room w = (Thrown message, w') ↔ resolve_failure room w message w'.
Proof. split; [apply resolveVotes_thrown | apply resolve_failure_thrown]. Qed.

Lemma resolveVotes_failures_witness :
  resolveVotes "room" orphan_world = (Thrown Prisma.P2025, deactivate "p1" orphan_world) ∧
  deactivate "p1" orphan_world ≠ orphan_world ∧
  resolveVotes "room" (example_world spoiled_state true)
  = (Thrown Prisma.VALIDATION, example_world spoiled_state true).
Proof.
  split; [| split; [by vm_compute |]].
  - apply (proj2 (resolveVotes_failures "room" orphan_world Prisma.P2025
                    (deactivate "p1" orphan_world))).
    apply (failure_room_missing "room" orphan_world (accusing_state "p1") "p1"
             (player_of "p1" "room" true BLACK_HAT)).
    + vm_compute. reflexivity.
    + vm_compute. reflexivity.
    + vm_compute. reflexivity.
    + discriminate.
    + vm_compute. reflexivity.
    + vm_compute. reflexivity.
  - apply (proj2 (resolveVotes_failures "room" (example_world spoiled_state true)
                    Prisma.VALIDATION (example_world spoiled_state true))).
    apply (failure_no_target "room" _ spoiled_state); [reflexivity |].
    left. exists "p5", "constructor". split; [reflexivity |].
    split; [| discriminate]. unfold Js.Object_prototype. apply list_elem_of_here.
Defined.

Lemma white_hat_run room (state : GameState) w (resolution : RoundResolution) :
  ∃ w',
    (round ← Prisma.round_findFirst room (roundNumber state);
     _ ← match round with
         | Some round => Prisma.round_update (round_id round) (Prisma.round_set_phase GUESSING)
         | None => mret tt
         end;
     _ ← setGameState state;
     mret resolution) w = (Returned resolution, w') ∧
    redis w' = set_gameKeys (<[roomId state := state]> (gameKeys (redis w))) (redis w) ∧
    players (db w') = players (db w) ∧
    rooms (db w') = rooms (db w).
Proof.
  unfold setGameState, modify_redis, modify.
  unfold mbind, M_bind, Prisma.round_findFirst, gets.
  destruct (find _ (rounds (db w))) as [round |] eqn:Hround.
  - unfold Prisma.round_update, mbind, M_bind, gets.
    destruct (find_is_Some (λ r, bool_decide (round_id r = round_id round))
                (rounds (db w)) round) as [r0 Hr0].
    { apply list_elem_of_In. by eapply find_some. }
    { by apply bool_decide_eq_true. }
    rewrite Hr0. eexists. split; [reflexivity |]. done.
  - eexists. split; [reflexivity |]. done.
Qed.

(** What a call of [resolveVotes] that returns has done: it found a tie
    and went on to the next round; or it marked the single top target
    inactive and then kept the session for the guess of the white hat,
    ended the game, or went on to the next round. *)
Lemma resolveVotes_returned room w resolution w' :
  resolveVotes room w = (Returned resolution, w') →
  ∃ state,
    gameKeys (redis w) !! room = Some state ∧
    ((1 < length (topTargets (voteCounts (votes state))) ∧
      resolution = {| eliminatedPlayerId := None; eliminatedRole := None;
                      isWhiteHat := false; rr_gameOver := false; rr_winner := None |} ∧
      startNextRound room state w = (Returned tt, w')) ∨
     (∃ target player,
        topTargets (voteCounts (votes state)) = [target] ∧
        find (λ p, bool_decide (player_id p = target)) (players (db w)) = Some player ∧
        let eliminated := set_eliminatedPlayers (eliminatedPlayers state ++ [target]) state in
        let verdict :=
          winReturn_result (winReturn (activePlayersOf room (deactivate target w))) in
        ((player_role player = Some WHITE_HAT ∧
          resolution = {| eliminatedPlayerId := Some target;
                          eliminatedRole := player_role player; isWhiteHat := true;
                          rr_gameOver := false; rr_winner := None |} ∧
          redis w'
          = set_gameKeys (<[roomId state := set_phase GUESSING eliminated]>
                            (gameKeys (redis w))) (redis w) ∧
          players (db w') = players (db (deactivate target w)) ∧
          rooms (db w') = rooms (db w)) ∨
         (player_role player ≠ Some WHITE_HAT ∧ gameOver verdict = true ∧
          resolution = {| eliminatedPlayerId := Some target;
                          eliminatedRole := player_role player; isWhiteHat := false;
                          rr_gameOver := true; rr_winner := winner verdict |} ∧
          redis w' = redis_after_endGame room (redis w) ∧
          players (db w') = players (db (deactivate target w)) ∧
          wordPairs (db w') = wordPairs (db w) ∧
          rooms (db w')
          = map (λ r, if bool_decide (room_id r = room)
                      then Prisma.room_set_status FINISHED r else r) (rooms (db w))) ∨
         (player_role player ≠ Some WHITE_HAT ∧ gameOver verdict = false ∧
          resolution = {| eliminatedPlayerId := Some target;
                          eliminatedRole := player_role player; isWhiteHat := false;
                          rr_gameOver := false; rr_winner := None |} ∧
          startNextRound room eliminated (deactivate target w) = (Returned tt, w'))))).
Proof.
  intros Hrun.
  destruct (gameKeys (redis w) !! room) as [state |] eqn:Hstored.
  2: { by rewrite resolveVotes_no_session in Hrun. }
  exists state. split; [done |].
  destruct (decide (1 < length (topTargets (voteCounts (votes state))))) as [Htie | Hone].
  { left. rewrite (resolveVotes_tie room w state Hstored Htie) in Hrun.
    destruct (startNextRound_players room state w) as (w1 & Hnext & _).
    erewrite bind_run in Hrun; [| exact Hnext]. injection Hrun as <- <-. done. }
  right.
  destruct (length_one_or_less _ Hone) as [Hnil | [target Htop]].
  { by rewrite (resolveVotes_no_target room w state Hstored Hnil) in Hrun. }
  destruct (find (λ p, bool_decide (player_id p = target)) (players (db w)))
    as [player |] eqn:Hplayer.
  2: { by rewrite (resolveVotes_unknown_target room w state target Hstored Htop Hplayer)
         in Hrun. }
  exists target, player. split; [done |]. split; [done |].
  rewrite (resolveVotes_single_target room w state target player Hstored Htop Hplayer)
    in Hrun.
  case_bool_decide as Hwhite.
  { left.
    match type of Hrun with
    | (_ ← Prisma.round_findFirst _ (roundNumber ?s); _) _ = _ =>
        destruct (white_hat_run room s (deactivate target w)
                    {| eliminatedPlayerId := Some target;
                       eliminatedRole := player_role player; isWhiteHat := true;
                       rr_gameOver := false; rr_winner := None |})
          as (w1 & Hwhite_run & Hkeys & Hplayers & Hrooms)
    end.
    simpl in Hwhite_run, Hrun. rewrite Hwhite_run in Hrun. injection Hrun as <- <-.
    done. }
  right.
  pose proof (elimination_outcome room
                (set_eliminatedPlayers (eliminatedPlayers state ++ [target]) state)
                target (player_role player) (deactivate target w)) as Hout.
  simpl in Hout. simpl.
  destruct (gameOver (winReturn_result (winReturn (activePlayersOf room
                                                    (deactivate target w))))) eqn:Hover.
  - left. destruct (find (λ r, bool_decide (room_id r = room)) (rooms (db w))) as [r |].
    + destruct Hout as (w1 & Hreturned & Hfacts). rewrite Hreturned in Hrun.
      injection Hrun as <- <-. done.
    + by rewrite Hout in Hrun.
  - right. destruct Hout as (w1 & Hreturned & Hnext). rewrite Hreturned in Hrun.
    injection Hrun as <- <-. done.
Qed.

Lemma winReturn_winner active :
  let verdict := winReturn_result (winReturn active) in
  if gameOver verdict
  then winner verdict = Some BLACK_HAT ∨ winner verdict = Some CIVILIAN
  else winner verdict = None.
Proof. simpl. destruct (winReturn active); simpl; auto. Qed.

Lemma finished_rooms room (table : list Room) r :
  r ∈ map (λ r, if bool_decide (room_id r = room)
                then Prisma.room_set_status FINISHED r else r) table →
  room_id r = room → room_status r = FINISHED.
Proof.
  intros Hin Hid. apply list_elem_of_fmap in Hin as (r0 & -> & _).
  case_bool_decide as Hid0; [done |]. done.
Qed.

(** X8.  What a resolution that [resolveVotes] returns says, and what it
    has done.  Nobody is named exactly when the vote was tied, and then no
    player row changed.  A player who is named was the single top target,
    is reported with the role of the row, and is inactive from then on.
    The white hat is announced exactly when the role is WHITE_HAT; the game
    is then not over and the session waits in GUESSING with the player
    among the eliminated.  A game that is reported over is won by the black
    hat or by the civilians, never by the white hat; its session and its
    cached room are gone and its room row is FINISHED.  A game that is not
    over has no winner.  The top targets are those of the tally as the code
    keeps it: votes for [__proto__] are not counted, so that two players
    with one vote each are tied although two votes name [__proto__]. *)
Theorem resolveVotes_verdict (room : Id) (w : World) (resolution : RoundResolution)
    (w' : World) :
  resolveVotes room w = (Returned resolution, w') →
  ∃ state,
    gameKeys (redis w) !! room = Some state ∧
    (eliminatedPlayerId resolution = None ↔
       1 < length (topTargets (voteCounts (votes state)))) ∧
    (eliminatedPlayerId resolution = None →
       players (db w') = players (db w) ∧ rooms (db w') = rooms (db w)) ∧
    (∀ target, eliminatedPlayerId resolution = Some target →
       topTargets (voteCounts (votes state)) = [target] ∧
       (∃ player,
          find (λ p, bool_decide (player_id p = target)) (players (db w)) = Some player ∧
          eliminatedRole resolution = player_role player) ∧
       players (db w') = players (db (deactivate target w)) ∧
       (∀ p, p ∈ players (db w') → player_id p = target → player_isActive p = false)) ∧
    (isWhiteHat resolution = true ↔ eliminatedRole resolution = Some WHITE_HAT) ∧
    (isWhiteHat resolution = true →
       rr_gameOver resolution = false ∧
       ∃ target state',
         eliminatedPlayerId resolution = Some target ∧
         gameKeys (redis w') !! roomId state = Some state' ∧
         phase state' = GUESSING ∧
         eliminatedPlayers state' = eliminatedPlayers state ++ [target]) ∧
    (rr_gameOver resolution = true →
       (rr_winner resolution = Some BLACK_HAT ∨ rr_winner resolution = Some CIVILIAN) ∧
       gameKeys (redis w') !! room = None ∧
       roomKeys (redis w') !! room = None ∧
       activeRooms (redis w') !! room = None ∧
       (∀ r, r ∈ rooms (db w') → room_id r = room → room_status r = FINISHED)) ∧
    (rr_gameOver resolution = false → rr_winner resolution = None).
Proof.
  intros Hrun.
  destruct (resolveVotes_returned room w resolution w' Hrun)
    as (state & Hstored & [(Htie & -> & Hnext) | (target & player & Htop & Hplayer & Hcases)]).
  - exists state. split; [done |]. simpl.
    destruct (startNextRound_players room state w) as (w1 & Hnext' & Hplayers & _).
    rewrite Hnext in Hnext'. injection Hnext' as <-.
    split; [done |]. split.
    { intros _. split; [done |].
      destruct (decide (Prisma.wordPair_active w = [])) as [Hnone | Hsome].
      - unfold startNextRound in Hnext.
        erewrite bind_run in Hnext; [| by apply getRandomWordPair_none].
        by injection Hnext as <-.
      - destruct (startNextRound_advances room state w Hsome)
          as (u & w1 & Hnext' & pair & order & _ & _ & _ & Hdb & _).
        assert (w1 = w') as -> by congruence. by rewrite Hdb. }
    split; [done |]. split; [done |]. split; [done |]. split; done.
  - exists state. split; [done |].
    pose proof (winReturn_winner (activePlayersOf room (deactivate target w))) as Hwinner.
    simpl in Hcases, Hwinner.
    assert (players (db w') = players (db (deactivate target w))) as Hplayers.
    { destruct Hcases as [(_ & _ & _ & Hplayers & _)
                         | [(_ & _ & _ & _ & Hplayers & _) | (_ & _ & _ & Hnext)]];
        [done | done |].
      destruct (startNextRound_players room
                  (set_eliminatedPlayers (eliminatedPlayers state ++ [target]) state)
                  (deactivate target w)) as (w1 & Hnext' & Hplayers & _).
      assert (w1 = w') as -> by congruence. done. }
    assert (eliminatedPlayerId resolution = Some target
            ∧ eliminatedRole resolution = player_role player) as [Hnamed Hrole].
    { by destruct Hcases as [(_ & -> & _) | [(_ & _ & -> & _) | (_ & _ & -> & _)]]. }
    split.
    { rewrite Hnamed, Htop. simpl. split; [done | lia]. }
    split; [by rewrite Hnamed |].
    split.
    { intros target' Heq. rewrite Hnamed in Heq. injection Heq as <-.
      split; [done |]. split; [by exists player |]. split; [done |].
      intros p Hin Hid. rewrite Hplayers in Hin. by eapply deactivate_inactive. }
    rewrite Hrole.
    destruct Hcases as [(Hwhite & -> & Hkeys & _)
                       | [(Hwhite & Hover & -> & Hredis & _ & _ & Hrooms)
                         | (Hwhite & Hover & -> & Hnext)]]; simpl.
    + split; [done |]. split.
      { intros _. split; [done |]. eexists target, _. split; [done |].
        rewrite Hkeys. simpl. rewrite lookup_insert_eq. done. }
      split; done.
    + rewrite Hover in Hwinner.
      split; [split; [done | by intros ?] |]. split; [done |]. split; [| done].
      intros _. split; [done |]. rewrite Hredis. simpl. rewrite !lookup_delete_eq.
      repeat (split; [done |]). intros r Hin. rewrite Hrooms in Hin.
      by apply (finished_rooms room (rooms (db w))).
    + split; [split; [done | by intros ?] |]. split; [done |]. split; done.
Qed.

Lemma resolveVotes_verdict_witness :
  let w := example_world (accusing_state "p1") true in
  let resolution :=
    {| eliminatedPlayerId := Some "p1"; eliminatedRole := Some BLACK_HAT;
       isWhiteHat := false; rr_gameOver := true; rr_winner := Some CIVILIAN |} in
  let w' := exec (resolveVotes "room") w in
  ∃ state,
    gameKeys (redis w) !! "room" = Some state ∧
    (eliminatedPlayerId resolution = None ↔
       1 < length (topTargets (voteCounts (votes state)))) ∧
    (eliminatedPlayerId resolution = None →
       players (db w') = players (db w) ∧ rooms (db w') = rooms (db w)) ∧
    (∀ target, eliminatedPlayerId resolution = Some target →
       topTargets (voteCounts (votes state)) = [target] ∧
       (∃ player,
          find (λ p, bool_decide (player_id p = target)) (players (db w)) = Some player ∧
          eliminatedRole resolution = player_role player) ∧
       players (db w') = players (db (deactivate target w)) ∧
       (∀ p, p ∈ players (db w') → player_id p = target → player_isActive p = false)) ∧
    (isWhiteHat resolution = true ↔ eliminatedRole resolution = Some WHITE_HAT) ∧
    (isWhiteHat resolution = true →
       rr_gameOver resolution = false ∧
       ∃ target state',
         eliminatedPlayerId resolution = Some target ∧
         gameKeys (redis w') !! roomId state = Some state' ∧
         phase state' = GUESSING ∧
         eliminatedPlayers state' = eliminatedPlayers state ++ [target]) ∧
    (rr_gameOver resolution = true →
       (rr_winner resolution = Some BLACK_HAT ∨ rr_winner resolution = Some CIVILIAN) ∧
       gameKeys (redis w') !! "room" = None ∧
       roomKeys (redis w') !! "room" = None ∧
       activeRooms (redis w') !! "room" = None ∧
       (∀ r, r ∈ rooms (db w') → room_id r = "room" → room_status r = FINISHED)) ∧
    (rr_gameOver resolution = false → rr_winner resolution = None).
Proof.
  apply (resolveVotes_verdict "room" (example_world (accusing_state "p1") true)).
  vm_compute. reflexivity.
Defined.

(** Two votes for [__proto__] are not counted: the two players with one
    vote each are tied and nobody goes. *)
Example resolveVotes_uncounted_votes :
  votes_for "__proto__" (votes proto_tie_state) = 2 ∧
  length (topTargets (voteCounts (votes proto_tie_state))) = 2 ∧
  eval (resolveVotes "room") (example_world proto_tie_state true)
  = Returned {| eliminatedPlayerId := None; eliminatedRole := None; isWhiteHat := false;
                rr_gameOver := false; rr_winner := None |}.
Proof. split; [reflexivity |]. split; [reflexivity |]. vm_compute. reflexivity. Qed.

(** *** A majority *)

Lemma filter_disjoint_length {A} (P Q : A → Prop)
    `{∀ x, Decision (P x)} `{∀ x, Decision (Q x)} (l : list A) :
  (∀ x, P x → Q x → False) →
  length (filter P l) + length (filter Q l) ≤ length l.
Proof.
  intros Hdisjoint. induction l as [| x l IH]; [done |].
  rewrite !filter_cons.
  destruct (decide (P x)) as [HP |]; destruct (decide (Q x)) as [HQ |]; simpl; try lia.
  destruct (Hdisjoint x HP HQ).
Qed.

Lemma votes_for_disjoint votes target other :
  target ≠ other → votes_for target votes + votes_for other votes ≤ size votes.
Proof.
  intros Hne. unfold votes_for. rewrite <- (length_map_to_list votes).
  apply filter_disjoint_length. intros entry Ht Ho. congruence.
Qed.

Lemma singleton_of_NoDup {A} (l : list A) a :
  NoDup l → a ∈ l → (∀ x, x ∈ l → x = a) → l = [a].
Proof.
  intros Hnodup Hin Hall. destruct l as [| x [| y rest]].
  - by apply elem_of_nil in Hin.
  - by rewrite (Hall x (list_elem_of_here _ _)).
  - apply NoDup_cons in Hnodup as [Hfresh _]. destruct Hfresh.
    rewrite (Hall x), <- (Hall y); [apply list_elem_of_here | | apply list_elem_of_here].
    apply elem_of_cons. right. apply list_elem_of_here.
Qed.

Lemma majority_topTargets votes target :
  ¬ spoiled votes → counted target →
  size votes < 2 * votes_for target votes →
  topTargets (voteCounts votes) = [target].
Proof.
  intros Hclean Hcounted Hmajority.
  assert (∀ other, other ≠ target → votes_for other votes < votes_for target votes)
    as Hless.
  { intros other Hne. pose proof (votes_for_disjoint votes target other (not_eq_sym Hne)). lia. }
  apply singleton_of_NoDup; [apply NoDup_topTargets | |].
  - apply topTargets_spec. split; [done |]. split; [done |]. split; [lia |].
    intros other _.
    destruct (decide (other = target)) as [-> | Hne]; [done |].
    specialize (Hless other Hne). lia.
  - intros other Hin. apply topTargets_spec in Hin as (_ & _ & _ & Hmax).
    destruct (decide (other = target)) as [| Hne]; [done |].
    specialize (Hless other Hne). specialize (Hmax target Hcounted). lia.
Qed.

(** X9.  A player named by more than half of the votes on record is the
    one who goes, as long as the tally is in order: when no vote names a
    member that objects inherit, other than [__proto__], when the player is
    not called [__proto__], and when the room and the player are on record,
    [resolveVotes] returns, names that player with the role of the row, and
    leaves the player inactive. *)
Theorem majority_is_eliminated
    (room : Id) (w : World) (state : GameState) (target : Id) (player : Player) :
  gameKeys (redis w) !! room = Some state →
  ¬ spoiled (votes state) →
  counted target →
  size (votes state) < 2 * votes_for target (votes state) →
  find (λ p, bool_decide (player_id p = target)) (players (db w)) = Some player →
  room_known room w →
  ∃ resolution w',
    resolveVotes room w = (Returned resolution, w') ∧
    eliminatedPlayerId resolution = Some target ∧
    eliminatedRole resolution = player_role player ∧
    (∀ p, p ∈ players (db w') → player_id p = target → player_isActive p = false).
Proof.
  intros Hstored Hclean Hcounted Hmajority Hplayer [r Hroom].
  pose proof (majority_topTargets _ _ Hclean Hcounted Hmajority) as Htop.
  assert (∃ resolution w',
            resolveVotes room w = (Returned resolution, w') ∧
            eliminatedPlayerId resolution = Some target ∧
            eliminatedRole resolution = player_role player) as (resolution & w' & Hrun & Hnamed).
  { rewrite (resolveVotes_single_target room w state target player Hstored Htop Hplayer).
    case_bool_decide as Hwhite.
    - match goal with
      | |- context [Prisma.round_findFirst _ (roundNumber ?s)] =>
          destruct (white_hat_eliminated_returns room s (deactivate target w)
                      {| eliminatedPlayerId := Some target;
                         eliminatedRole := player_role player; isWhiteHat := true;
                         rr_gameOver := false; rr_winner := None |})
            as (w1 & Hwhite_run & _)
      end.
      simpl in Hwhite_run. eexists _, w1. split; [exact Hwhite_run | done].
    - pose proof (elimination_outcome room
                    (set_eliminatedPlayers (eliminatedPlayers state ++ [target]) state)
                    target (player_role player) (deactivate target w)) as Hout.
      simpl in Hout. rewrite Hroom in Hout.
      destruct (gameOver _);
        destruct Hout as (w1 & Hreturned & _); eexists _, w1; split; done. }
  exists resolution, w'. split; [exact Hrun |].
  destruct Hnamed as [Hnamed Hrole]. split; [done |]. split; [done |].
  destruct (resolveVotes_returned room w resolution w' Hrun)
    as (state0 & Hstored0 & [(_ & -> & _) | (target0 & player0 & _ & _ & Hcases)]);
    [done |].
  assert (eliminatedPlayerId resolution = Some target0) as Hnamed0.
  { by destruct Hcases as [(_ & -> & _) | [(_ & _ & -> & _) | (_ & _ & -> & _)]]. }
  assert (target0 = target) as -> by congruence.
  assert (players (db w') = players (db (deactivate target w))) as Hplayers.
  { destruct Hcases as [(_ & _ & _ & Hplayers & _)
                       | [(_ & _ & _ & _ & Hplayers & _) | (_ & _ & _ & Hnext)]];
      [done | done |].
    destruct (startNextRound_players room
                (set_eliminatedPlayers (eliminatedPlayers state0 ++ [target]) state0)
                (deactivate target w)) as (w1 & Hnext' & Hplayers & _).
    assert (w1 = w') as -> by congruence. done. }
  intros p Hin Hid. rewrite Hplayers in Hin. by eapply deactivate_inactive.
Qed.

Lemma majority_is_eliminated_witness :
  ∃ resolution w',
    resolveVotes "room" (example_world (accusing_state "p3") true)
    = (Returned resolution, w') ∧
    eliminatedPlayerId resolution = Some "p3" ∧
    eliminatedRole resolution = player_role (player_of "p3" "room" true CIVILIAN) ∧
    (∀ p, p ∈ players (db w') → player_id p = "p3" → player_isActive p = false).
Proof.
  apply (majority_is_eliminated "room" (example_world (accusing_state "p3") true)
           (accusing_state "p3") "p3" (player_of "p3" "room" true CIVILIAN)).
  - vm_compute. reflexivity.
  - intros (voter & named & Hvote & Hin & _).
    assert (named = "p3" ∨ named = "p1") as [-> | ->].
    { unfold accusing_state in Hvote. simpl in Hvote.
      repeat (apply lookup_insert_Some in Hvote as [[_ <-] | [_ Hvote]]; [by auto |]).
      apply lookup_singleton_Some in Hvote as [_ <-]. by auto. }
    + apply (bool_decide_eq_false_1 ("p3" ∈ Js.Object_prototype)); [reflexivity | done].
    + apply (bool_decide_eq_false_1 ("p1" ∈ Js.Object_prototype)); [reflexivity | done].
  - discriminate.
  - vm_compute. lia.
  - vm_compute. reflexivity.
  - vm_compute. eauto.
Defined.

(** ** The end of the game *)

Lemma round_latest_elem room table round :
  round_latest room table = Some round → round ∈ table.
Proof.
  intros Hlatest.
  apply (round_findLatest_elem room
           {| db := Prisma.set_rounds table empty_database; redis := empty_redis;
              entropy := []; clock := 0 |}).
  unfold eval, Prisma.round_findLatest, gets. simpl. by f_equal.
Qed.

Lemma endGame_run room state win w r :
  find (λ r, bool_decide (room_id r = room)) (rooms (db w)) = Some r →
  endGame room state win w = (Returned tt, world_after_endGame room w).
Proof.
  intros Hroom.
  unfold endGame, Prisma.room_update, Prisma.room_findUnique, Prisma.round_findLatest,
    Prisma.round_update, Prisma.modify_db, deleteGameState, deleteRoomState, modify_redis.
  unfold mbind, M_bind, modify, gets, mret, M_ret. cbn beta.
  rewrite Hroom. unfold world_after_endGame, with_db, with_redis. simpl.
  fold (round_latest room (rounds (db w))).
  destruct (round_latest room (rounds (db w))) as [round |] eqn:Hlatest; [| done].
  destruct (find_is_Some (λ r0, bool_decide (round_id r0 = round_id round))
              (rounds (db w)) round) as [r0 Hr0].
  { by eapply round_latest_elem. }
  { by apply bool_decide_eq_true. }
  cbn. by rewrite Hr0.
Qed.

Lemma endGame_unknown_room room state win w :
  find (λ r, bool_decide (room_id r = room)) (rooms (db w)) = None →
  endGame room state win w = (Thrown Prisma.P2025, w).
Proof.
  intros Hroom. pose proof (endGame_outcome room state win w) as Hout.
  by rewrite Hroom in Hout.
Qed.

Lemma find_finished room (table : list Room) r :
  find (λ r, bool_decide (room_id r = room)) table = Some r →
  find (λ r, bool_decide (room_id r = room))
       (map (λ r, if bool_decide (room_id r = room)
                  then Prisma.room_set_status FINISHED r else r) table)
  = Some (Prisma.room_set_status FINISHED r).
Proof.
  induction table as [| r0 rest IH]; [done |]. simpl.
  destruct (bool_decide (room_id r0 = room)) eqn:Hid; simpl; rewrite Hid.
  - by intros [= ->].
  - exact IH.
Qed.

Lemma submitClue_no_session room playerId content w :
  gameKeys (redis w) !! room = None →
  submitClue room playerId content w
  = (Returned (submitClue_failure "Trò chơi chưa bắt đầu."), w).
Proof.
  intros Hnone. unfold submitClue, getGameState, mbind, M_bind, gets. by rewrite Hnone.
Qed.

Lemma submitVote_no_session room voterId targetId w :
  gameKeys (redis w) !! room = None →
  submitVote room voterId targetId w
  = (Returned (submitVote_failure "Trò chơi chưa bắt đầu."), w).
Proof.
  intros Hnone. unfold submitVote, getGameState, mbind, M_bind, gets. by rewrite Hnone.
Qed.

Lemma submitWhiteHatGuess_rejected `{rt : Js.Runtime} room playerId guess w :
  ¬ guess_due room w →
  submitWhiteHatGuess room playerId guess w = (Returned guess_failure, w).
Proof.
  intros Hnot. unfold submitWhiteHatGuess, getGameState, Prisma.wordPair_findUnique.
  unfold mbind at 1, M_bind at 1, gets at 1.
  destruct (gameKeys (redis w) !! room) as [state |] eqn:Hstored; [| done].
  destruct (decide (phase state ≠ GUESSING)) as [| Hphase]; [done |].
  apply dec_stable in Hphase.
  unfold mbind at 1, M_bind at 1, gets at 1.
  destruct (find _ (wordPairs (db w))) as [wordPair |] eqn:Hpair; [| done].
  destruct Hnot. by exists state, wordPair.
Qed.

(** X10.  Once [endGame] has returned, the room is closed for good: its
    room row is FINISHED, the latest round of the room is closed with the
    time of the call, and the session, the cached room and the entry in the
    set of active rooms are gone; the players and the catalogue are as they
    were.  Every clue, vote and guess for the room is refused from then on,
    [resolveVotes] finds no session, and nobody can start the room again,
    each of these calls leaving the world as it is. *)
Theorem endGame_closes_room `{rt : Js.Runtime}
    (room : Id) (state : GameState) (win : option Winner) (w w' : World) :
  endGame room state win w = (Returned tt, w') →
  w' = world_after_endGame room w ∧
  (∀ r, r ∈ rooms (db w') → room_id r = room → room_status r = FINISHED) ∧
  (∀ round, round_latest room (rounds (db w)) = Some round →
     ∃ closed, closed ∈ rounds (db w') ∧ round_id closed = round_id round ∧
               round_phase closed = RESULT ∧ round_endedAt closed = Some (clock w)) ∧
  gameKeys (redis w') !! room = None ∧
  roomKeys (redis w') !! room = None ∧
  activeRooms (redis w') !! room = None ∧
  (∀ playerId content,
     submitClue room playerId content w'
     = (Returned (submitClue_failure "Trò chơi chưa bắt đầu."), w')) ∧
  (∀ voterId targetId,
     submitVote room voterId targetId w'
     = (Returned (submitVote_failure "Trò chơi chưa bắt đầu."), w')) ∧
  (∀ playerId guess,
     submitWhiteHatGuess room playerId guess w' = (Returned guess_failure, w')) ∧
  resolveVotes room w' = (Thrown "Game state not found", w') ∧
  (∀ hostUserId,
     ∃ message, startGame room hostUserId w' = (Returned (startGame_failure message), w')).
Proof.
  intros Hrun.
  destruct (find (λ r, bool_decide (room_id r = room)) (rooms (db w))) as [r |] eqn:Hroom.
  2: { by rewrite endGame_unknown_room in Hrun. }
  rewrite (endGame_run room state win w r Hroom) in Hrun. injection Hrun as <-.
  assert (gameKeys (redis (world_after_endGame room w)) !! room = None) as Hgone.
  { simpl. apply lookup_delete_eq. }
  split; [done |]. split.
  { intros r' Hin. by apply (finished_rooms room (rooms (db w))). }
  split.
  { intros round Hlatest. simpl. rewrite Hlatest.
    exists (Prisma.round_set_endedAt (clock w) (Prisma.round_set_phase RESULT round)).
    split; [| done].
    apply list_elem_of_fmap. exists round.
    split; [by rewrite bool_decide_eq_true_2 | by eapply round_latest_elem]. }
  split; [done |].
  split; [simpl; apply lookup_delete_eq |].
  split; [simpl; apply lookup_delete_eq |].
  split; [intros; by apply submitClue_no_session |].
  split; [intros; by apply submitVote_no_session |].
  split.
  { intros playerId guess. apply submitWhiteHatGuess_rejected.
    intros (state0 & pair & Hstored & _). congruence. }
  split; [by apply resolveVotes_no_session |].
  intros hostUserId. apply startGame_refused.
  intros (r' & Hfound & _ & Hstatus & _).
  simpl in Hfound. rewrite (find_finished room _ r Hroom) in Hfound.
  injection Hfound as <-. discriminate.
Qed.

Lemma endGame_closes_room_witness :
  let w := example_world (accusing_state "p1") true in
  let w' := exec (endGame "room" (accusing_state "p1") (Some CIVILIAN)) w in
  w' = world_after_endGame "room" w ∧
  (∀ r, r ∈ rooms (db w') → room_id r = "room" → room_status r = FINISHED) ∧
  (∀ round, round_latest "room" (rounds (db w)) = Some round →
     ∃ closed, closed ∈ rounds (db w') ∧ round_id closed = round_id round ∧
               round_phase closed = RESULT ∧ round_endedAt closed = Some (clock w)) ∧
  gameKeys (redis w') !! "room" = None ∧
  roomKeys (redis w') !! "room" = None ∧
  activeRooms (redis w') !! "room" = None ∧
  (∀ playerId content,
     submitClue "room" playerId content w'
     = (Returned (submitClue_failure "Trò chơi chưa bắt đầu."), w')) ∧
  (∀ voterId targetId,
     submitVote "room" voterId targetId w'
     = (Returned (submitVote_failure "Trò chơi chưa bắt đầu."), w')) ∧
  (∀ playerId guess,
     @submitWhiteHatGuess Js.vietnamese_runtime "room" playerId guess w'
     = (Returned guess_failure, w')) ∧
  resolveVotes "room" w' = (Thrown "Game state not found", w') ∧
  (∀ hostUserId,
     ∃ message, startGame "room" hostUserId w' = (Returned (startGame_failure message), w')).
Proof.
  apply (@endGame_closes_room Js.vietnamese_runtime "room" (accusing_state "p1")
           (Some CIVILIAN) (example_world (accusing_state "p1") true)).
  vm_compute. reflexivity.
Defined.

(** ** The guess of the white hat *)

Lemma submitWhiteHatGuess_judged `{rt : Js.Runtime}
    (room playerId : Id) (guess : Text) (w : World) :
  guess_due room w → room_known room w →
  ∃ response w',
    submitWhiteHatGuess room playerId guess w = (Returned response, w') ∧
    gr_success response = true ∧
    players (db w') = players (db w) ∧
    (gr_gameOver response = Some true ∨ gr_gameOver response = Some false) ∧
    (gr_gameOver response = Some true →
       w' = world_after_endGame room w ∧
       is_Some (gr_winner response) ∧
       (gr_winner response = Some WHITE_HAT ↔ correct response = true)) ∧
    (gr_gameOver response = Some false →
       correct response = false ∧
       gr_winner response = None ∧
       ∃ state, gameKeys (redis w) !! room = Some state ∧
                w' = exec (startNextRound room state) w).
Proof.
  intros (state & wordPair & Hstored & Hphase & Hpair) [r Hroom].
  rewrite (submitWhiteHatGuess_unfold room playerId guess w state wordPair Hstored Hphase).
  2: { unfold eval, Prisma.wordPair_findUnique, gets. simpl. by rewrite Hpair. }
  case_bool_decide as Hmatch.
  - erewrite bind_run; [| by apply (endGame_run room state _ w r)].
    eexists _, _. split; [reflexivity |]. simpl.
    split; [done |]. split; [done |]. split; [by left |].
    split; [| discriminate]. intros _. split; [done |]. split; [by eexists | done].
  - simpl.
    pose proof (winReturn_winner (activePlayersOf room w)) as Hwinner. simpl in Hwinner.
    destruct (gameOver (winReturn_result (winReturn (activePlayersOf room w)))).
    + erewrite bind_run; [| by apply (endGame_run room state _ w r)].
      eexists _, _. split; [reflexivity |]. simpl.
      split; [done |]. split; [done |]. split; [by left |].
      split; [| discriminate]. intros _. split; [done |].
      destruct Hwinner as [-> | ->]; (split; [by eexists | split; discriminate]).
    + destruct (startNextRound_players room state w) as (w1 & Hnext & Hplayers & _).
      erewrite bind_run; [| exact Hnext].
      eexists _, _. split; [reflexivity |]. simpl.
      split; [done |]. split; [done |]. split; [by right |].
      split; [discriminate |]. intros _. split; [done |]. split; [done |].
      exists state. split; [done |]. unfold exec. by rewrite Hnext.
Qed.

(** X11.  [submitWhiteHatGuess] does not look at who guesses: the answer
    and the world are the same whoever the player is said to be.  It
    refuses, leaving the world as it was, unless the room has a session in
    GUESSING whose word pair is on record.  Otherwise, the room being on
    record, it returns a success; no player row changes; the game is over
    or it is not; when it is over, the room is closed as [endGame] closes
    it and there is a winner, who is the white hat exactly when the guess
    is judged correct; when it is not over, the guess was wrong, there is
    no winner, and the world is the one [startNextRound] leaves. *)
Theorem submitWhiteHatGuess_outcome `{rt : Js.Runtime}
    (room playerId : Id) (guess : Text) (w : World) :
  (∀ other,
     submitWhiteHatGuess room other guess w = submitWhiteHatGuess room playerId guess w) ∧
  (¬ guess_due room w →
     submitWhiteHatGuess room playerId guess w = (Returned guess_failure, w)) ∧
  (guess_due room w → room_known room w →
     ∃ response w',
       submitWhiteHatGuess room playerId guess w = (Returned response, w') ∧
       gr_success response = true ∧
       players (db w') = players (db w) ∧
       (gr_gameOver response = Some true ∨ gr_gameOver response = Some false) ∧
       (gr_gameOver response = Some true →
          w' = world_after_endGame room w ∧
          is_Some (gr_winner response) ∧
          (gr_winner response = Some WHITE_HAT ↔ correct response = true)) ∧
       (gr_gameOver response = Some false →
          correct response = false ∧
          gr_winner response = None ∧
          ∃ state, gameKeys (redis w) !! room = Some state ∧
                   w' = exec (startNextRound room state) w)).
Proof.
  split; [done |]. split; [apply submitWhiteHatGuess_rejected |].
  apply submitWhiteHatGuess_judged.
Qed.

Lemma guessing_world_due : guess_due "room" (guessing_world true).
Proof. exists guessing_state, (example_pair true). by vm_compute. Defined.

Lemma guessing_world_room_known : room_known "room" (guessing_world true).
Proof. vm_compute. eauto. Defined.

Lemma submitWhiteHatGuess_outcome_witness :
  let w := guessing_world true in
  ∃ response w',
    @submitWhiteHatGuess Js.vietnamese_runtime "room" "p5" Cho w = (Returned response, w') ∧
    gr_success response = true ∧
    players (db w') = players (db w) ∧
    (gr_gameOver response = Some true ∨ gr_gameOver response = Some false) ∧
    (gr_gameOver response = Some true →
       w' = world_after_endGame "room" w ∧
       is_Some (gr_winner response) ∧
       (gr_winner response = Some WHITE_HAT ↔ correct response = true)) ∧
    (gr_gameOver response = Some false →
       correct response = false ∧
       gr_winner response = None ∧
       ∃ state, gameKeys (redis w) !! "room" = Some state ∧
                w' = exec (startNextRound "room" state) w).
Proof.
  exact (proj2 (proj2 (@submitWhiteHatGuess_outcome Js.vietnamese_runtime "room" "p5" Cho
                         (guessing_world true)))
           guessing_world_due guessing_world_room_known).
Defined.

(** ** The word-pair source *)

(** The least outcome whose product with [n] reaches [k]. *)
Lemma ceil_quotient (k n : N) :
  (0 < n)%N → (k < n)%N → (n ≤ Js.RANDOM_DENOMINATOR)%N →
  let u := ((k * Js.RANDOM_DENOMINATOR + n - 1) / n)%N in
  (u < Js.RANDOM_DENOMINATOR)%N ∧
  (k * Js.RANDOM_DENOMINATOR ≤ u * n)%N ∧ (u * n < k * Js.RANDOM_DENOMINATOR + n)%N.
Proof.
  intros Hn Hk Hle.
  pose proof RANDOM_DENOMINATOR_pos as HD.
  generalize dependent Js.RANDOM_DENOMINATOR. intros D Hle HD. simpl.
  pose proof (N.div_mod (k * D + n - 1) n ltac:(lia)) as Hdiv.
  pose proof (N.mod_lt (k * D + n - 1) n ltac:(lia)) as Hmod.
  remember ((k * D + n - 1) / n)%N as u eqn:Hu.
  remember ((k * D + n - 1) mod n)%N as r eqn:Hr.
  pose proof (N.mul_le_mono_r (k + 1) n D ltac:(lia)) as Hnext.
  assert (k * D ≤ n * u)%N as Hlow by lia.
  assert (n * u < k * D + n)%N as Hhigh by lia.
  split; [| lia].
  assert (n * u < n * D)%N as Hlt by lia.
  by apply N.mul_lt_mono_pos_l in Hlt.
Qed.

(** Rounding does not take a product below a whole number it has
    reached. *)
Lemma round53_ge_whole (p k : N) :
  (p < 2 ^ 106)%N → (k * 2 ^ 53 ≤ p)%N → (k * 2 ^ 53 ≤ Js.round53 p)%N.
Proof.
  intros Hp Hk. unfold Js.round53.
  destruct (N.leb_spec (N.size p) 53) as [Hsmall | Hlarge]; [done |].
  cbv zeta.
  assert (N.size p ≤ 106)%N as Hsize.
  { destruct (decide (p = 0%N)) as [-> | Hpos]; [done |].
    rewrite N.size_log2 by done.
    apply N.le_succ_l, N.log2_lt_pow2; [lia | done]. }
  remember (N.size p - 53)%N as s eqn:Hs.
  assert (2 ^ 53 = 2 ^ (53 - s) * 2 ^ s)%N as Hsplit.
  { rewrite <- N.pow_add_r. f_equal. lia. }
  assert (0 < 2 ^ s)%N as Hunit by (apply N.neq_0_lt_0, N.pow_nonzero; lia).
  assert (k * 2 ^ (53 - s) ≤ p / 2 ^ s)%N as Hq.
  { apply N.div_le_lower_bound; [lia |]. rewrite Hsplit in Hk. lia. }
  assert (k * 2 ^ 53 ≤ p / 2 ^ s * 2 ^ s)%N as Hlow.
  { rewrite Hsplit. nia. }
  remember (2 ^ s)%N as b. remember (p / b)%N as q. clear Heqq Hq.
  repeat destruct (_ <? _)%N; try destruct (N.even _); nia.
Qed.

(** Every index below a count of no more than [2^52] is what
    [Math.floor(Math.random() * count)] gives for some outcome. *)
Lemma floor_times_reaches (k n : nat) :
  k < n → (N.of_nat n ≤ 2 ^ 52)%N →
  ∃ u, (u < Js.RANDOM_DENOMINATOR)%N ∧ Js.floor_times u n = k.
Proof.
  intros Hk Hn.
  destruct (ceil_quotient (N.of_nat k) (N.of_nat n)) as (Hu & Hlow & Hhigh);
    [lia | lia | unfold Js.RANDOM_DENOMINATOR; lia |].
  cbv zeta in *.
  remember ((N.of_nat k * Js.RANDOM_DENOMINATOR + N.of_nat n - 1) / N.of_nat n)%N as u.
  exists u. split; [exact Hu |]. unfold Js.floor_times.
  unfold Js.RANDOM_DENOMINATOR in *.
  assert (u * N.of_nat n < 2 ^ 106)%N as Hp.
  { change (2 ^ 106)%N with (2 ^ 53 * (2 * 2 ^ 52))%N. nia. }
  pose proof (round53_ge_whole _ _ Hp Hlow) as Hfloor.
  assert (Js.round53 (u * N.of_nat n) < N.of_nat k * 2 ^ 53 + 2 ^ 53)%N as Hceil.
  { destruct (N.leb_spec (N.size (u * N.of_nat n)) 53) as [Hsmall | Hlarge].
    - unfold Js.round53. rewrite (proj2 (N.leb_le _ _)) by exact Hsmall.
      change (2 ^ 53)%N with (2 * 2 ^ 52)%N at 2. lia.
    - destruct (round53_near _ Hlarge) as [Hnear Hworth]. cbv zeta in *.
      assert (2 ^ (N.size (u * N.of_nat n) - 54) < N.of_nat n)%N as Hhalf.
      { apply (N.mul_lt_mono_pos_r (2 ^ 53)); [done |]. nia. }
      change (2 ^ 53)%N with (2 * 2 ^ 52)%N at 2. lia. }
  assert (Js.round53 (u * N.of_nat n) / 2 ^ 53 = N.of_nat k)%N as ->;
    [| apply Nat2N.id].
  symmetry.
  apply (N.div_unique _ _ _ (Js.round53 (u * N.of_nat n) - N.of_nat k * 2 ^ 53)); lia.
Qed.

Lemma getRandomWordPair_run w :
  Prisma.wordPair_active w ≠ [] →
  getRandomWordPair w
  = (Returned (Prisma.wordPair_active w
                 !! Js.floor_times (default 0%N (head (entropy w)) mod Js.RANDOM_DENOMINATOR)
                                   (length (Prisma.wordPair_active w))),
     with_entropy (tail (entropy w)) w).
Proof.
  intros Hsome. unfold getRandomWordPair, Prisma.wordPair_count_active,
    Prisma.wordPair_findFirst_active, Js.Math_random.
  unfold mbind, M_bind, gets, mret, M_ret. cbn beta.
  destruct (decide (length (Prisma.wordPair_active w) = 0)) as [Hzero |].
  { by apply nil_length_inv in Hzero. }
  destruct (entropy w) as [| r rest] eqn:Hentropy; simpl.
  - unfold with_entropy. rewrite <- Hentropy. by destruct w.
  - done.
Qed.

Lemma getRandomWordPair_single u w :
  Prisma.wordPair_active w ≠ [] →
  (u < Js.RANDOM_DENOMINATOR)%N →
  eval getRandomWordPair (with_entropy [u] w)
  = Returned (Prisma.wordPair_active w
                !! Js.floor_times u (length (Prisma.wordPair_active w))).
Proof.
  intros Hsome Hu. unfold eval. rewrite getRandomWordPair_run by done.
  cbn [fst entropy with_entropy head default].
  by rewrite N.mod_small by exact Hu.
Qed.

(** X12.  [getRandomWordPair] never throws and touches neither the tables
    nor Redis.  It answers [null] exactly when no pair is active, without
    calling [Math.random]; otherwise it spends one outcome of [Math.random]
    and answers a pair of the catalogue that is active.  Every active pair
    is the answer for some outcome of [Math.random], as long as there are no
    more than [2^52] active pairs, so that the rounding of the product does
    not get in the way. *)
Theorem getRandomWordPair_draws (w : World) :
  (∃ found w',
     getRandomWordPair w = (Returned found, w') ∧
     same_stores w w' ∧
     (found = None ↔ Prisma.wordPair_active w = []) ∧
     (∀ pair, found = Some pair → pair ∈ wordPairs (db w) ∧ wp_isActive pair = true) ∧
     entropy w' = (if decide (Prisma.wordPair_active w = []) then entropy w
                   else tail (entropy w))) ∧
  ((N.of_nat (length (Prisma.wordPair_active w)) ≤ 2 ^ 52)%N →
   ∀ pair, pair ∈ Prisma.wordPair_active w →
     ∃ u, (u < Js.RANDOM_DENOMINATOR)%N ∧
          eval getRandomWordPair (with_entropy [u] w) = Returned (Some pair)).
Proof.
  split.
  - destruct (decide (Prisma.wordPair_active w = [])) as [Hnone | Hsome].
    + exists None, w. split; [by apply getRandomWordPair_none |].
      split; [done |]. split; [done |]. split; done.
    + rewrite (getRandomWordPair_run w Hsome).
      eexists _, _. split; [reflexivity |]. split; [done |].
      assert (Js.floor_times (default 0%N (head (entropy w)) mod Js.RANDOM_DENOMINATOR)
                (length (Prisma.wordPair_active w))
              < length (Prisma.wordPair_active w)) as Hlt.
      { apply floor_times_lt.
        - apply N.mod_lt. pose proof RANDOM_DENOMINATOR_pos. lia.
        - destruct (Prisma.wordPair_active w); [done | simpl; lia]. }
      destruct (lookup_lt_is_Some_2 _ _ Hlt) as [pair Hpair]. rewrite Hpair.
      split; [done |]. split; [| done].
      intros pair' [= <-]. apply list_elem_of_lookup_2 in Hpair.
      by apply list_elem_of_filter in Hpair as [Hactive Hin].
  - intros Hcount pair Hin.
    apply list_elem_of_lookup_1 in Hin as [k Hk].
    pose proof (lookup_lt_Some _ _ _ Hk) as Hlt.
    destruct (floor_times_reaches k (length (Prisma.wordPair_active w)) Hlt Hcount)
      as (u & Hu & Hfloor).
    exists u. split; [exact Hu |]. rewrite getRandomWordPair_single; [| | exact Hu].
    + by rewrite Hfloor, Hk.
    + intros Hnil. rewrite Hnil in Hlt. simpl in Hlt. lia.
Qed.

Lemma getRandomWordPair_draws_witness :
  ∃ u, (u < Js.RANDOM_DENOMINATOR)%N ∧
       eval getRandomWordPair (with_entropy [u] lobby_world)
       = Returned (Some (example_pair true)).
Proof.
  apply (proj2 (getRandomWordPair_draws lobby_world)).
  - vm_compute. discriminate.
  - apply list_elem_of_In. vm_compute. tauto.
Defined.

(** With three active pairs the outcome [6004799503160661 / 2^53] draws the
    third one: the product is just below 2 and rounds to 2. *)
Example floor_times_rounds :
  Js.floor_times 6004799503160661 3 = 2 ∧
  (6004799503160661 * 3 / Js.RANDOM_DENOMINATOR = 1)%N.
Proof. split; reflexivity. Qed.

Lemma find_unique {A} (key : A → string) (l : list A) x :
  NoDup (map key l) → x ∈ l → find (λ y, bool_decide (key y = key x)) l = Some x.
Proof.
  induction l as [| y rest IH]; intros Hnodup Hin; [by apply elem_of_nil in Hin |].
  simpl in *. apply NoDup_cons in Hnodup as [Hfresh Hnodup].
  apply elem_of_cons in Hin as [-> | Hin].
  - by rewrite bool_decide_eq_true_2.
  - rewrite bool_decide_eq_false_2; [by apply IH |].
    intros Heq. apply Hfresh. rewrite Heq. apply list_elem_of_fmap. by exists x.
Qed.

(** X13.  The words of a game that has started.  With pair ids that are
    keys, the pair whose id [startGame] hands back is an active pair of the
    catalogue, and [getWordForPlayer] gives a civilian its first word, the
    black hat its second word and the white hat no word. *)
Theorem startGame_hands_out_words (room hostUserId : Id) (w : World) :
  can_start room hostUserId w →
  NoDup (map wp_id (wordPairs (db w))) →
  ∃ result w' wordPair,
    startGame room hostUserId w = (Returned result, w') ∧
    sg_wordPairId result = Some (wp_id wordPair) ∧
    wordPair ∈ Prisma.wordPair_active w ∧
    getWordForPlayer (wp_id wordPair) CIVILIAN w' = (Returned (Some (wp_wordA wordPair)), w') ∧
    getWordForPlayer (wp_id wordPair) BLACK_HAT w' = (Returned (Some (wp_wordB wordPair)), w') ∧
    getWordForPlayer (wp_id wordPair) WHITE_HAT w' = (Returned None, w').
Proof.
  intros Hcan Hnodup.
  destruct (startGame_started room hostUserId w Hcan)
    as (result & w' & Hrun & wordPair & roles & order & rs
        & Hin & _ & _ & -> & Hdb & _).
  eexists _, w', wordPair. split; [exact Hrun |]. split; [done |]. split; [done |].
  assert (find (λ p, bool_decide (wp_id p = wp_id wordPair)) (wordPairs (db w'))
          = Some wordPair) as Hfound.
  { rewrite Hdb. simpl. apply (find_unique wp_id); [done |].
    by apply list_elem_of_filter in Hin as [_ Hin]. }
  unfold getWordForPlayer, Prisma.wordPair_findUnique, mbind, M_bind, gets.
  by rewrite Hfound.
Qed.

Lemma startGame_hands_out_words_witness :
  ∃ result w' wordPair,
    startGame "room" "p1" lobby_world = (Returned result, w') ∧
    sg_wordPairId result = Some (wp_id wordPair) ∧
    wordPair ∈ Prisma.wordPair_active lobby_world ∧
    getWordForPlayer (wp_id wordPair) CIVILIAN w' = (Returned (Some (wp_wordA wordPair)), w') ∧
    getWordForPlayer (wp_id wordPair) BLACK_HAT w' = (Returned (Some (wp_wordB wordPair)), w') ∧
    getWordForPlayer (wp_id wordPair) WHITE_HAT w' = (Returned None, w').
Proof.
  apply (startGame_hands_out_words "room" "p1" lobby_world lobby_can_start).
  compute_done.
Defined.

(** ** The word routes *)

Lemma find_withdrawn id (table : list WordPair) pair :
  find (λ p, bool_decide (wp_id p = id)) table = Some pair →
  find (λ p, bool_decide (wp_id p = id))
       (map (λ p, if bool_decide (wp_id p = id)
                  then WordRoutes.wordPair_set_isActive false p else p) table)
  = Some (WordRoutes.wordPair_set_isActive false pair).
Proof.
  induction table as [| p rest IH]; [done |]. simpl.
  destruct (bool_decide (wp_id p = id)) eqn:Hid; simpl; rewrite Hid.
  - by intros [= ->].
  - exact IH.
Qed.

(** X14.  [DELETE /words/:id] never throws.  It answers 404 and changes
    nothing when no pair has the id.  Otherwise it answers 200 and withdraws
    the pair without removing it: the pair is no longer among the active
    pairs, so that [getRandomWordPair] cannot draw it, and every other pair
    is as active as before; yet it is still found by its id with its two
    words, so that a game that is played with it goes on handing out its
    words.  The other tables and Redis are left alone. *)
Theorem delete_word_withdraws (id : Id) (w : World) :
  ∃ response w',
    WordRoutes.delete_word id w = (Returned response, w') ∧
    (WordRoutes.status response = 404 ∨ WordRoutes.status response = 200) ∧
    (WordRoutes.status response = 404 ↔
       find (λ p, bool_decide (wp_id p = id)) (wordPairs (db w)) = None) ∧
    (WordRoutes.status response = 404 → w' = w) ∧
    (∀ pair, pair ∈ Prisma.wordPair_active w' ↔
             pair ∈ Prisma.wordPair_active w ∧ wp_id pair ≠ id) ∧
    (∀ found w'', getRandomWordPair w' = (Returned (Some found), w'') → wp_id found ≠ id) ∧
    (∀ role, eval (getWordForPlayer id role) w' = eval (getWordForPlayer id role) w) ∧
    rooms (db w') = rooms (db w) ∧ players (db w') = players (db w) ∧
    rounds (db w') = rounds (db w) ∧ clueRows (db w') = clueRows (db w) ∧
    voteRows (db w') = voteRows (db w) ∧ redis w' = redis w.
Proof.
  assert (∀ w' : World,
            (∀ pair, pair ∈ Prisma.wordPair_active w' → wp_id pair ≠ id) →
            ∀ found w'', getRandomWordPair w' = (Returned (Some found), w'') →
                         wp_id found ≠ id) as Hdraw.
  { intros w' Hactive found w'' Hrun. apply Hactive.
    destruct (decide (Prisma.wordPair_active w' = [])) as [Hnone | Hsome].
    - by rewrite getRandomWordPair_none in Hrun.
    - destruct (getRandomWordPair_some w' Hsome)
        as (found' & w1 & Hrun' & (pair & -> & Hin) & _).
      rewrite Hrun in Hrun'. by injection Hrun' as -> _. }
  unfold WordRoutes.delete_word, WordRoutes.wordPair_update, Prisma.wordPair_findUnique,
    Prisma.modify_db.
  unfold mbind, M_bind, modify, gets, mret, M_ret. cbn beta.
  destruct (find (λ p, bool_decide (wp_id p = id)) (wordPairs (db w))) as [pair |] eqn:Hfound.
  - cbn beta iota. rewrite Hfound.
    eexists _, _. split; [reflexivity |]. simpl.
    split; [by right |]. split; [split; discriminate |]. split; [discriminate |].
    assert (∀ pair0,
              pair0 ∈ filter (λ p, wp_isActive p = true)
                        (map (λ p, if bool_decide (wp_id p = id)
                                   then WordRoutes.wordPair_set_isActive false p else p)
                             (wordPairs (db w)))
              ↔ pair0 ∈ Prisma.wordPair_active w ∧ wp_id pair0 ≠ id) as Hactive.
    { intros pair0. unfold Prisma.wordPair_active.
      rewrite !list_elem_of_filter, list_elem_of_fmap. split.
      - intros [Hon (p & -> & Hin)].
        case_bool_decide as Hid; [done |]. done.
      - intros [[Hon Hin] Hid]. split; [done |]. exists pair0.
        by rewrite bool_decide_eq_false_2. }
    split; [exact Hactive |].
    split.
    { apply Hdraw. intros pair0 Hin. by apply Hactive in Hin as [_ Hid]. }
    split; [| done].
    intros role. unfold eval, getWordForPlayer, Prisma.wordPair_findUnique.
    unfold mbind, M_bind, gets. simpl.
    rewrite (find_withdrawn id _ pair Hfound), Hfound. simpl.
    by destruct (decide (role = CIVILIAN)), (decide (role = BLACK_HAT)).
  - eexists _, _. split; [reflexivity |]. simpl.
    split; [by left |]. split; [done |]. split; [done |].
    split.
    { intros pair. split; [| by intros [? _]]. intros Hin. split; [done |].
      intros Hid. apply list_elem_of_filter in Hin as [_ Hin].
      apply list_elem_of_In in Hin.
      pose proof (find_none _ _ Hfound pair Hin) as Hno. simpl in Hno.
      by rewrite bool_decide_eq_true_2 in Hno. }
    split; [| done].
    apply Hdraw. intros pair Hin Hid. apply list_elem_of_filter in Hin as [_ Hin].
    apply list_elem_of_In in Hin.
    pose proof (find_none _ _ Hfound pair Hin) as Hno. simpl in Hno.
    by rewrite bool_decide_eq_true_2 in Hno.
Qed.

(** ** Keys in Redis *)

(** X15.  Join codes are registered and looked up without regard to case:
    after [setRoomCodeMapping] a lookup under any spelling with the same
    upper-case form finds the room, after [deleteRoomCodeMapping] it finds
    nothing, and the codes with another upper-case form are looked up as
    before.  Neither call touches the tables, the sessions, the cached rooms
    or the set of active rooms. *)
Theorem room_code_round_trip `{casing : Js.Casing} (code other roomId : Id) (w : World) :
  let registered := exec (setRoomCodeMapping code roomId) w in
  let dropped := exec (deleteRoomCodeMapping code) registered in
  (Js.toUpperCase other = Js.toUpperCase code →
     getRoomIdByCode other registered = (Returned (Some roomId), registered) ∧
     getRoomIdByCode other dropped = (Returned None, dropped)) ∧
  (Js.toUpperCase other ≠ Js.toUpperCase code →
     eval (getRoomIdByCode other) registered = eval (getRoomIdByCode other) w ∧
     eval (getRoomIdByCode other) dropped = eval (getRoomIdByCode other) w) ∧
  db dropped = db w ∧ db registered = db w ∧
  gameKeys (redis dropped) = gameKeys (redis w) ∧
  gameKeys (redis registered) = gameKeys (redis w) ∧
  roomKeys (redis dropped) = roomKeys (redis w) ∧
  roomKeys (redis registered) = roomKeys (redis w) ∧
  activeRooms (redis dropped) = activeRooms (redis w) ∧
  activeRooms (redis registered) = activeRooms (redis w).
Proof.
  unfold getRoomIdByCode, setRoomCodeMapping, deleteRoomCodeMapping, modify_redis,
    eval, exec, modify, gets. simpl.
  split.
  { intros ->. by rewrite lookup_insert_eq, lookup_delete_eq. }
  split; [| done].
  intros Hne. by rewrite lookup_delete_ne, lookup_insert_ne.
Qed.

Lemma room_code_round_trip_witness :
  let registered := exec (@setRoomCodeMapping Js.latin_casing "abc123" "room") empty_world in
  let dropped := exec (@deleteRoomCodeMapping Js.latin_casing "Abc123") registered in
  @getRoomIdByCode Js.latin_casing "ABC123" registered = (Returned (Some "room"), registered) ∧
  @getRoomIdByCode Js.latin_casing "aBc123" dropped = (Returned None, dropped).
Proof.
  pose proof (@room_code_round_trip Js.latin_casing "abc123" "ABC123" "room" empty_world)
    as [Hsame _].
  split; [by apply Hsame |].
  by vm_compute.
Defined.

(** X16.  A session is kept under the room id it carries: after
    [setGameState], [getGameState] of that room answers the session, and
    after [deleteGameState] it answers nothing, while the sessions of the
    other rooms are read as before; the three calls never throw and touch
    nothing but the session key. *)
Theorem game_state_round_trip (state : GameState) (other : Id) (w : World) :
  let stored := exec (setGameState state) w in
  let dropped := exec (deleteGameState (roomId state)) stored in
  getGameState (roomId state) stored = (Returned (Some state), stored) ∧
  getGameState (roomId state) dropped = (Returned None, dropped) ∧
  (other ≠ roomId state →
     eval (getGameState other) stored = eval (getGameState other) w ∧
     eval (getGameState other) dropped = eval (getGameState other) w) ∧
  db stored = db w ∧ db dropped = db w ∧
  roomKeys (redis stored) = roomKeys (redis w) ∧
  roomKeys (redis dropped) = roomKeys (redis w) ∧
  roomCodes (redis stored) = roomCodes (redis w) ∧
  roomCodes (redis dropped) = roomCodes (redis w) ∧
  activeRooms (redis stored) = activeRooms (redis w) ∧
  activeRooms (redis dropped) = activeRooms (redis w).
Proof.
  unfold getGameState, setGameState, deleteGameState, modify_redis,
    eval, exec, modify, gets. simpl.
  rewrite lookup_insert_eq, lookup_delete_eq.
  split; [done |]. split; [done |]. split; [| done].
  intros Hne. by rewrite lookup_delete_ne, lookup_insert_ne.
Qed.

(** X17.  The set of active rooms.  [trackActiveRoom] makes the room a
    member, with the time of the call as its score, and the count grows by
    one exactly when the room was not a member; [deleteRoomState] takes the
    room out again together with its cached state, and the count is then
    what it was without the room.  The memberships of the other rooms do
    not change. *)
Theorem active_rooms_tracking (room other : Id) (w : World) :
  let tracked := exec (trackActiveRoom room) w in
  let dropped := exec (deleteRoomState room) tracked in
  activeRooms (redis tracked) !! room = Some (clock w) ∧
  eval getActiveRoomCount tracked
  = Returned (if decide (is_Some (activeRooms (redis w) !! room))
              then size (activeRooms (redis w)) else S (size (activeRooms (redis w)))) ∧
  activeRooms (redis dropped) !! room = None ∧
  roomKeys (redis dropped) !! room = None ∧
  eval getActiveRoomCount dropped = Returned (size (delete room (activeRooms (redis w)))) ∧
  (other ≠ room →
     activeRooms (redis tracked) !! other = activeRooms (redis w) !! other ∧
     activeRooms (redis dropped) !! other = activeRooms (redis w) !! other ∧
     roomKeys (redis dropped) !! other = roomKeys (redis w) !! other) ∧
  gameKeys (redis dropped) = gameKeys (redis w) ∧ db dropped = db w.
Proof.
  unfold trackActiveRoom, deleteRoomState, getActiveRoomCount, modify_redis,
    eval, exec, mbind, M_bind, modify, gets. simpl.
  rewrite lookup_insert_eq, !lookup_delete_eq, delete_insert_eq.
  split; [done |]. split.
  { f_equal. destruct (decide _) as [Hsome | Hnone].
    - by apply map_size_insert_Some.
    - apply map_size_insert_None. by apply eq_None_not_Some. }
  split; [done |]. split; [done |]. split; [done |]. split; [| done].
  intros Hne. by rewrite !lookup_delete_ne, lookup_insert_ne.
Qed.

(** ** The cached room state *)

(** X18.  [getRoomState] reads through a cache.  It never throws and never
    touches the tables, the sessions, the join codes or the set of active
    rooms.  When the room is cached it answers the cached state and writes
    nothing, whatever the tables hold.  When it is not, it answers nothing
    for a room the tables do not know, and otherwise the state built from
    the room row and from all the players of the room, active or not, in
    table order, the host flagged by the user id; that state is cached
    unless the room is FINISHED.  Asking again gives the same answer and
    writes nothing. *)
Theorem getRoomState_cache_aside (room : Id) (w : World) :
  ∃ w',
    getRoomState room w = (Returned (roomState_in room w), w') ∧
    getRoomState room w' = (Returned (roomState_in room w), w') ∧
    db w' = db w ∧
    gameKeys (redis w') = gameKeys (redis w) ∧
    roomCodes (redis w') = roomCodes (redis w) ∧
    activeRooms (redis w') = activeRooms (redis w) ∧
    (∀ rs, roomKeys (redis w) !! room = Some rs →
       w' = w ∧ ∀ d, eval (getRoomState room) (with_db d w) = Returned (Some rs)) ∧
    (roomKeys (redis w) !! room = None →
       match find (λ r, bool_decide (room_id r = room)) (rooms (db w)) with
       | None => roomState_in room w = None ∧ w' = w
       | Some r =>
           let rs := roomState_of r (filter (λ p, player_roomId p = room) (players (db w))) in
           roomState_in room w = Some rs ∧
           rs_id rs = room ∧
           rs_status rs = room_status r ∧
           map rp_id (rs_players rs)
           = map player_id (filter (λ p, player_roomId p = room) (players (db w))) ∧
           (∀ rp, rp ∈ rs_players rs → rp_isHost rp = true ↔ rp_userId rp = room_hostId r) ∧
           (room_status r ≠ FINISHED →
              redis w' = set_roomKeys (<[room := rs]> (roomKeys (redis w))) (redis w)) ∧
           (room_status r = FINISHED → w' = w)
       end).
Proof.
  pose proof (getRoomState_run room w) as Hrun.
  eexists. split; [exact Hrun |].
  unfold roomState_in in *.
  destruct (roomKeys (redis w) !! room) as [cached |] eqn:Hcached.
  { split; [rewrite getRoomState_run; unfold roomState_in; by rewrite Hcached |].
    repeat (split; [done |]). split; [| done].
    intros rs [= <-]. split; [done |]. intros d.
    unfold eval. rewrite getRoomState_run. unfold roomState_in. simpl. by rewrite Hcached. }
  destruct (find (λ r, bool_decide (room_id r = room)) (rooms (db w))) as [r |] eqn:Hroom.
  2: { split; [rewrite getRoomState_run; unfold roomState_in; by rewrite Hcached, Hroom |].
       repeat (split; [done |]); try done. }
  assert (room_id r = room) as Hid.
  { apply find_some in Hroom as [_ Hid]. by apply bool_decide_eq_true_1 in Hid. }
  simpl. destruct (decide (room_status r ≠ FINISHED)) as [Hopen | Hclosed].
  - split.
    { rewrite getRoomState_run. unfold roomState_in. simpl. by rewrite lookup_insert_eq. }
    repeat (split; [done |]).
    split; [by rewrite !map_map |].
    split; [| done].
    intros rp Hin. apply list_elem_of_fmap in Hin as (p & -> & _). simpl.
    apply bool_decide_eq_true.
  - apply dec_stable in Hclosed.
    split.
    { rewrite getRoomState_run. unfold roomState_in. rewrite Hcached, Hroom. simpl.
      rewrite Hclosed. by destruct (decide _). }
    repeat (split; [done |]).
    split; [by rewrite !map_map |].
    split; [| split; [by intros ? | done]].
    intros rp Hin. apply list_elem_of_fmap in Hin as (p & -> & _). simpl.
    apply bool_decide_eq_true.
Qed.

(** ** The moves of a session *)

Lemma startNextRound_run room state w :
  ∃ w',
    startNextRound room state w = (Returned tt, w') ∧
    rooms (db w') = rooms (db w) ∧
    players (db w') = players (db w) ∧
    roomKeys (redis w') = roomKeys (redis w) ∧
    (w' = w ∨
     ∃ wordPairId order,
       order ≡ₚ map player_id (activePlayersOf room w) ∧
       gameKeys (redis w')
       = <[roomId state := next_round state (eliminatedPlayers state) wordPairId order]>
           (gameKeys (redis w))).
Proof.
  destruct (decide (Prisma.wordPair_active w = [])) as [Hnone | Hsome].
  - exists w. split; [| by repeat split; try left].
    unfold startNextRound, mbind, M_bind. by rewrite getRandomWordPair_none.
  - destruct (startNextRound_advances room state w Hsome)
      as ([] & w' & Hrun & wordPair & order & _ & Hperm & Hredis & Hdb & _).
    exists w'. split; [exact Hrun |]. rewrite Hdb, Hredis. simpl.
    split; [done |]. split; [done |]. split; [done |].
    right. by exists (wp_id wordPair), order.
Qed.

Lemma find_other_room (s : RoomStatus) room other (table : list Room) :
  other ≠ room →
  find (λ r, bool_decide (room_id r = other))
       (map (λ r, if bool_decide (room_id r = room)
                  then Prisma.room_set_status s r else r) table)
  = find (λ r, bool_decide (room_id r = other)) table.
Proof.
  intros Hne. induction table as [| r rest IH]; [done |]. simpl.
  destruct (decide (room_id r = room)) as [Hid | Hid].
  - rewrite (bool_decide_eq_true_2 _ Hid). simpl.
    rewrite !bool_decide_eq_false_2 by congruence. exact IH.
  - rewrite (bool_decide_eq_false_2 _ Hid). by rewrite IH.
Qed.

Lemma find_same_room (s : RoomStatus) room (table : list Room) r :
  find (λ r, bool_decide (room_id r = room)) table = Some r →
  find (λ r, bool_decide (room_id r = room))
       (map (λ r, if bool_decide (room_id r = room)
                  then Prisma.room_set_status s r else r) table)
  = Some (Prisma.room_set_status s r).
Proof.
  induction table as [| r0 rest IH]; [done |]. simpl.
  destruct (bool_decide (room_id r0 = room)) eqn:Hid; simpl; rewrite Hid.
  - by intros [= ->].
  - exact IH.
Qed.

Lemma stay_moves room w w' :
  rooms (db w') = rooms (db w) →
  redis w' = redis w →
  moves_at room w w'.
Proof.
  intros Hrooms Hredis. split; [by rewrite Hredis |].
  rewrite Hredis. apply move_stay; [done | by rewrite Hredis].
Qed.

Lemma started_active_ids room wordPairId roles (d : Database) :
  map player_id (filter (λ p, player_roomId p = room ∧ player_isActive p = true)
                        (players (db_after_start room wordPairId roles d)))
  = map player_id (filter (λ p, player_roomId p = room ∧ player_isActive p = true)
                          (players d)).
Proof.
  simpl. rewrite set_roles_map, filter_active_role_after, map_map.
  apply map_ext. intros q. apply seat_id, role_after_seat.
Qed.

Lemma startGame_moves room hostUserId w :
  sessions_running w → moves_at room w (exec (startGame room hostUserId) w).
Proof.
  intros Hrunning. unfold exec.
  destruct (can_start_decide room hostUserId w) as [Hcan | Hcannot].
  - destruct (startGame_started room hostUserId w Hcan)
      as (result & w' & -> & wordPair & roles & order & rs
          & _ & _ & Horder & _ & Hdb & _ & Hredis & _).
    simpl.
    assert (gameKeys (redis w) !! room = None) as Hnone.
    { destruct (gameKeys (redis w) !! room) as [state |] eqn:Hstored; [| done].
      destruct (Hrunning room state Hstored) as (r' & Hfound' & Hstatus').
      destruct Hcan as (r & Hfound & _ & Hstatus & _). congruence. }
    split.
    + intros other Hne. rewrite Hredis. simpl. by rewrite lookup_insert_ne.
    + rewrite Hnone, Hredis. simpl. rewrite lookup_insert_eq.
      apply (move_start w w' room hostUserId); [done | | by rewrite Hdb].
      rewrite Horder. unfold activePlayersOf. rewrite Hdb.
      symmetry. by rewrite started_active_ids.
  - destruct (startGame_refused room hostUserId w Hcannot) as [message ->].
    by apply stay_moves.
Qed.

Lemma submitClue_moves room playerId content w :
  world_ok w → moves_at room w (exec (submitClue room playerId content) w).
Proof.
  intros Hok. unfold exec.
  destruct (clue_due_decide room playerId w)
    as [(state & round & player & Hstored & Hphase & Hturn & Hround & Hplayer) | Hnot].
  - rewrite (submitClue_accepted room playerId content w state round player
               Hstored Hphase Hturn Hround Hplayer).
    destruct (Hok room state Hstored) as [Hroom _].
    assert (player_id player = playerId) as Hid.
    { apply find_some in Hplayer as [_ Hid]. by apply bool_decide_eq_true_1 in Hid. }
    unfold world_after_clue. simpl. rewrite Hroom. split.
    + intros other Hne. simpl. by rewrite lookup_insert_ne.
    + simpl. rewrite Hstored, lookup_insert_eq.
      apply move_clue; [done | by simpl; rewrite Hid | | done].
      simpl. by destruct (decide _).
  - destruct (submitClue_rejected room playerId content w Hnot) as [message ->].
    by apply stay_moves.
Qed.

Lemma submitVote_moves room voterId targetId w :
  world_ok w → moves_at room w (exec (submitVote room voterId targetId) w).
Proof.
  intros Hok. unfold exec.
  destruct (vote_due_decide room voterId w)
    as [(state & round & Hstored & Hphase & Hin & Hvoted & Hround) | Hnot].
  - rewrite (submitVote_accepted room voterId targetId w state round
               Hstored Hphase Hin Hvoted Hround).
    destruct (Hok room state Hstored) as [Hroom _].
    unfold world_after_vote. simpl. rewrite Hroom. split.
    + intros other Hne. simpl. by rewrite lookup_insert_ne.
    + simpl. rewrite Hstored, lookup_insert_eq. by apply move_vote.
  - destruct (submitVote_rejected room voterId targetId w Hnot) as [message ->].
    by apply stay_moves.
Qed.

(** The next round, begun after the session [state] of [room] in [w0], the
    tables having moved on to [w] in the meantime. *)
Lemma startNextRound_moves room state eliminated w0 w :
  gameKeys (redis w0) !! room = Some state →
  roomId state = room →
  phase state ≠ HINTING →
  eliminated = eliminatedPlayers state
  ∨ (∃ target, eliminated = eliminatedPlayers state ++ [target]) →
  rooms (db w) = rooms (db w0) →
  redis w = redis w0 →
  moves_at room w0 (exec (startNextRound room (set_eliminatedPlayers eliminated state)) w).
Proof.
  intros Hstored Hroom Hphase Heliminated Hrooms Hredis. unfold exec.
  destruct (startNextRound_run room (set_eliminatedPlayers eliminated state) w)
    as (w' & -> & Hrooms' & Hplayers & Hcache & [-> | (pair & order & Horder & Hkeys)]).
  { apply stay_moves; [done | done]. }
  simpl in *. rewrite Hroom in Hkeys. split.
  - intros other Hne. rewrite Hkeys, lookup_insert_ne by done. by rewrite Hredis.
  - rewrite Hstored, Hkeys, lookup_insert_eq.
    apply (move_next w0 w' room state eliminated pair order); try done.
    + rewrite Horder. unfold activePlayersOf. by rewrite Hplayers.
    + by rewrite Hrooms'.
    + by rewrite Hcache, Hredis.
Qed.

Lemma endGame_moves room state0 state win w0 w :
  gameKeys (redis w0) !! room = Some state0 →
  phase state0 ≠ HINTING →
  rooms (db w) = rooms (db w0) →
  redis w = redis w0 →
  moves_at room w0 (exec (endGame room state win) w).
Proof.
  intros Hstored Hphase Hrooms Hredis. unfold exec.
  destruct (find (λ r, bool_decide (room_id r = room)) (rooms (db w))) as [r |] eqn:Hroom.
  - rewrite (endGame_run room state win w r Hroom). simpl. split.
    + intros other Hne. simpl. rewrite lookup_delete_ne by done. by rewrite Hredis.
    + simpl. rewrite Hstored, lookup_delete_eq.
      apply move_over; [done | by simpl; rewrite Hrooms | by simpl; rewrite Hredis].
  - rewrite (endGame_unknown_room room state win w Hroom). by apply stay_moves.
Qed.

Lemma tops_votes_nonempty (state : GameState) :
  topTargets (voteCounts (votes state)) ≠ [] → votes state ≠ ∅.
Proof. intros Htops Hempty. apply Htops. rewrite Hempty. apply topTargets_empty. Qed.

Lemma voted_not_hinting w room state :
  world_ok w →
  gameKeys (redis w) !! room = Some state →
  topTargets (voteCounts (votes state)) ≠ [] →
  phase state ≠ HINTING.
Proof.
  intros Hok Hstored Htops Hphase.
  destruct (Hok room state Hstored) as [_ (_ & _ & Hvotes & _)].
  by apply (tops_votes_nonempty state Htops), Hvotes.
Qed.

Lemma resolveVotes_moves room w :
  world_ok w → moves_at room w (exec (resolveVotes room) w).
Proof.
  intros Hok. unfold exec.
  destruct (resolveVotes room w) as [[resolution | message] w'] eqn:Hrun; simpl.
  - destruct (resolveVotes_returned room w resolution w' Hrun)
      as (state & Hstored & [(Htie & _ & Hnext) | (target & player & Htop & _ & Hcases)]).
    + destruct (Hok room state Hstored) as [Hroom _].
      assert (phase state ≠ HINTING) as Hphase.
      { apply (voted_not_hinting w room state Hok Hstored).
        intros Hnil. rewrite Hnil in Htie. simpl in Htie. lia. }
      pose proof (startNextRound_moves room state (eliminatedPlayers state) w w
                    Hstored Hroom Hphase (or_introl eq_refl) eq_refl eq_refl) as Hmoves.
      unfold exec in Hmoves.
      replace (set_eliminatedPlayers (eliminatedPlayers state) state) with state in Hmoves
        by by destruct state.
      by rewrite Hnext in Hmoves.
    + destruct (Hok room state Hstored) as [Hroom _].
      assert (phase state ≠ HINTING) as Hphase.
      { apply (voted_not_hinting w room state Hok Hstored). by rewrite Htop. }
      simpl in Hcases.
      destruct Hcases as [(_ & _ & Hredis & _ & Hrooms)
                         | [(_ & _ & _ & Hredis & _ & _ & Hrooms) | (_ & _ & _ & Hnext)]].
      * rewrite Hroom in Hredis. split.
        -- intros other Hne. rewrite Hredis. simpl. by rewrite lookup_insert_ne.
        -- rewrite Hstored, Hredis. simpl. rewrite lookup_insert_eq.
           apply move_white_hat; [done | done | done | by rewrite Hredis].
      * split.
        -- intros other Hne. rewrite Hredis. simpl. by rewrite lookup_delete_ne.
        -- rewrite Hstored, Hredis. simpl. rewrite lookup_delete_eq.
           apply move_over; [done | done | by rewrite Hredis].
      * pose proof (startNextRound_moves room state (eliminatedPlayers state ++ [target])
                      w (deactivate target w) Hstored Hroom Hphase
                      (or_intror (ex_intro _ target eq_refl)) eq_refl eq_refl) as Hmoves.
        unfold exec in Hmoves. by rewrite Hnext in Hmoves.
  - apply resolveVotes_thrown in Hrun.
    destruct Hrun; by apply stay_moves.
Qed.

Lemma submitWhiteHatGuess_moves `{rt : Js.Runtime} room playerId guess w :
  world_ok w → moves_at room w (exec (submitWhiteHatGuess room playerId guess) w).
Proof.
  intros Hok. unfold exec.
  destruct (gameKeys (redis w) !! room) as [state |] eqn:Hstored.
  2: { rewrite submitWhiteHatGuess_rejected; [by apply stay_moves |].
       intros (state & pair & Hstored' & _). congruence. }
  destruct (decide (phase state = GUESSING)) as [Hphase | Hphase].
  2: { rewrite submitWhiteHatGuess_rejected; [by apply stay_moves |].
       intros (state' & pair & Hstored' & Hphase' & _).
       assert (state' = state) as -> by congruence. done. }
  destruct (find (λ p, bool_decide (wp_id p = wordPairId state)) (wordPairs (db w)))
    as [wordPair |] eqn:Hpair.
  2: { rewrite submitWhiteHatGuess_rejected; [by apply stay_moves |].
       intros (state' & pair & Hstored' & _ & Hpair').
       assert (state' = state) as -> by congruence. congruence. }
  destruct (Hok room state Hstored) as [Hroom _].
  assert (phase state ≠ HINTING) as Hnot by congruence.
  rewrite (submitWhiteHatGuess_unfold room playerId guess w state wordPair Hstored Hphase).
  2: { unfold eval, Prisma.wordPair_findUnique, gets. simpl. by rewrite Hpair. }
  assert (∀ win (response : GuessResult),
            moves_at room w (snd ((_ ← endGame room state win; mret response) w)))
    as Hend.
  { intros win response.
    pose proof (endGame_moves room state state win w w Hstored Hnot eq_refl eq_refl)
      as Hmoves.
    unfold exec, mbind, M_bind in *.
    by destruct (endGame room state win w) as [[[] | e] w1]. }
  case_bool_decide as Hmatch; [apply Hend |].
  simpl. destruct (gameOver _); [apply Hend |].
  pose proof (startNextRound_moves room state (eliminatedPlayers state) w w
                Hstored Hroom Hnot (or_introl eq_refl) eq_refl eq_refl) as Hmoves.
  replace (set_eliminatedPlayers (eliminatedPlayers state) state) with state in Hmoves
    by by destruct state.
  unfold exec, mbind, M_bind in *.
  by destruct (startNextRound room state w) as [[[] | e] w1].
Qed.

(** Every call moves the session of one room at most, in one of the ways
    of [move]. *)
Lemma call_moves `{rt : Js.Runtime} w w' :
  world_ok w → sessions_running w → call w w' → ∃ room, moves_at room w w'.
Proof.
  intros Hok Hrunning Hcall.
  destruct Hcall as [room host w | room playerId content w | room voterId targetId w
                    | room w | room playerId guess w].
  - exists room. by apply startGame_moves.
  - exists room. by apply submitClue_moves.
  - exists room. by apply submitVote_moves.
  - exists room. by apply resolveVotes_moves.
  - exists room. by apply submitWhiteHatGuess_moves.
Qed.

(** ** Steps that are no call of the round engine *)

Lemma getRoomState_offstage room w : offstage w (exec (getRoomState room) w).
Proof.
  unfold exec. rewrite getRoomState_run. simpl.
  destruct (roomKeys (redis w) !! room); [by split; [| apply lobby_stay] |].
  destruct (roomState_in room w); [| by split; [| apply lobby_stay]].
  destruct (decide _); by split; [| apply lobby_stay].
Qed.

Lemma player_update_quiet id (f : Player → Player) w :
  let w' := exec (Prisma.player_update id f) w in
  rooms (db w') = rooms (db w) ∧ redis w' = redis w.
Proof.
  cbv zeta. unfold Prisma.player_update, Prisma.player_findUnique, Prisma.modify_db.
  unfold exec, mbind, M_bind, gets, throw, modify. cbn beta.
  by destruct (find _ (players (db w))).
Qed.

Lemma getRoomState_quiet room w :
  let w' := exec (getRoomState room) w in
  db w' = db w ∧ gameKeys (redis w') = gameKeys (redis w).
Proof.
  cbv zeta. unfold exec. rewrite getRoomState_run. simpl.
  destruct (roomKeys (redis w) !! room); [done |].
  destruct (roomState_in room w); [| done]. by destruct (decide _).
Qed.

Lemma leave_offstage `{casing : Js.Casing} room userId w :
  offstage w (exec (RoomRoutes.leave room userId) w).
Proof.
  unfold RoomRoutes.leave, Prisma.room_findUnique, RoomRoutes.player_findByUserAndRoom.
  unfold exec. unfold mbind at 1, M_bind at 1, gets at 1.
  destruct (find (λ r, bool_decide (room_id r = room)) (rooms (db w))) as [r |] eqn:Hfound;
    [| by split; [| apply lobby_stay]].
  assert (room_id r = room) as Hid.
  { apply find_some in Hfound as [_ Hid]. by apply bool_decide_eq_true_1 in Hid. }
  unfold mbind at 1, M_bind at 1, gets at 1.
  destruct (find _ (players (db w))) as [player |]; [| by split; [| apply lobby_stay]].
  pose proof (player_update_quiet (player_id player) (Prisma.player_set_isActive false) w)
    as [Hrooms1 Hredis1].
  unfold exec in Hrooms1, Hredis1. unfold mbind at 1, M_bind at 1.
  destruct (Prisma.player_update (player_id player) (Prisma.player_set_isActive false) w)
    as [[[] | e] w1]; cbn [snd] in *;
    [| split; [by rewrite Hredis1 | by apply lobby_stay]].
  pose proof (getRoomState_quiet (room_id r) w1) as [Hdb2 Hkeys2].
  unfold exec in Hdb2, Hkeys2. unfold mbind at 1, M_bind at 1.
  destruct (getRoomState (room_id r) w1) as [[roomState | e] w2]; cbn [snd] in *;
    [| split; [by rewrite Hkeys2, Hredis1 | apply lobby_stay; by rewrite Hdb2]].
  assert (rooms (db w2) = rooms (db w)) as Hrooms by by rewrite Hdb2.
  assert (gameKeys (redis w2) = gameKeys (redis w)) as Hkeys by by rewrite Hkeys2, Hredis1.
  clear Hrooms1 Hredis1 Hdb2 Hkeys2.
  destruct (decide (room_hostId r = userId ∧ room_status r = WAITING)) as [[_ Hwaiting] |].
  - unfold RoomRoutes.player_findFirst_otherActive, Prisma.room_update,
      Prisma.room_findUnique, Prisma.modify_db, setRoomState, deleteRoomState,
      deleteRoomCodeMapping, modify_redis.
    unfold mbind, M_bind, gets, modify, mret, M_ret. cbn beta.
    destruct (find _ (players (db w2))) as [nextPlayer |]; cbn beta;
      rewrite Hrooms, Hid, Hfound.
    + destruct roomState; simpl; (split; [done |]);
        apply (lobby_host w _ room r (player_userId nextPlayer)); try done;
        simpl; by rewrite Hrooms.
    + simpl. split; [done |].
      apply (lobby_close w _ room r); try done. simpl. by rewrite Hrooms.
  - unfold setRoomState, modify_redis, mbind, M_bind, modify, mret, M_ret.
    destruct roomState; simpl; by split; [| apply lobby_stay].
Qed.

Lemma step_offstage `{rt : Js.Runtime} w w' : step w w' → call w w' ∨ offstage w w'.
Proof.
  intros [w0 w1 Hcall | room w0 | casing room userId w0 | pairs e c w0].
  - by left.
  - right. apply getRoomState_offstage.
  - right. apply leave_offstage.
  - right. by split; [| apply lobby_stay].
Qed.

Lemma find_room_updated (f : Room → Room) room other (table : list Room) :
  (∀ r, room_id (f r) = room_id r) →
  other ≠ room →
  find (λ r, bool_decide (room_id r = other))
       (map (λ r, if bool_decide (room_id r = room) then f r else r) table)
  = find (λ r, bool_decide (room_id r = other)) table.
Proof.
  intros Hf Hne. induction table as [| r rest IH]; [done |]. simpl.
  destruct (decide (room_id r = room)) as [Hid | Hid].
  - rewrite (bool_decide_eq_true_2 _ Hid). simpl. rewrite Hf.
    rewrite !bool_decide_eq_false_2 by congruence. exact IH.
  - rewrite (bool_decide_eq_false_2 _ Hid). by rewrite IH.
Qed.

(** A room whose game is running is not touched behind the scenes. *)
Lemma lobby_move_running w w' room :
  lobby_move w w' → running (db w) room → running (db w') room.
Proof.
  intros Hlobby (r & Hfound & Hstatus). unfold running.
  destruct Hlobby as [Hrooms | left r0 host Hfound0 Hwaiting Hrooms
                     | left r0 Hfound0 Hwaiting Hrooms].
  - exists r. by rewrite Hrooms.
  - destruct (decide (room = left)) as [-> | Hne]; [congruence |].
    exists r. by rewrite Hrooms, find_room_updated.
  - destruct (decide (room = left)) as [-> | Hne]; [congruence |].
    exists r. by rewrite Hrooms, find_room_updated.
Qed.

(** ** What holds of the sessions reached by play *)

Lemma move_rooms w w' room old new :
  move w w' room old new →
  rooms (db w') = rooms (db w) ∨
  ∃ s, rooms (db w')
       = map (λ r, if bool_decide (room_id r = room)
                   then Prisma.room_set_status s r else r) (rooms (db w)).
Proof. intros []; eauto. Qed.

Lemma running_other_room w w' room other old new :
  move w w' room old new → other ≠ room → running (db w) other → running (db w') other.
Proof.
  intros Hmove Hne (r & Hfound & Hstatus). unfold running.
  destruct (move_rooms _ _ _ _ _ Hmove) as [-> | [s ->]]; [by exists r |].
  exists r. by rewrite find_other_room.
Qed.

Lemma move_to_session w w' room old state' :
  move w w' room old (Some state') →
  (old = Some state' ∧ rooms (db w') = rooms (db w)) ∨
  (old = None ∧
   ∃ hostUserId wordPairId order,
     can_start room hostUserId w ∧
     order ≡ₚ map player_id (activePlayersOf room w') ∧
     rooms (db w')
     = map (λ r, if bool_decide (room_id r = room)
                 then Prisma.room_set_status IN_PROGRESS r else r) (rooms (db w)) ∧
     state' = first_round room wordPairId order) ∨
  (∃ state,
     old = Some state ∧ rooms (db w') = rooms (db w) ∧
     ((∃ clue, phase state = HINTING ∧
               turnOrder state !! currentTurnIndex state = Some (clue_playerId clue) ∧
               state' = state_after_clue state clue) ∨
      (∃ voterId targetId,
         phase state = VOTING ∧
         state' = set_votes (<[voterId := targetId]> (votes state)) state) ∨
      (∃ target,
         phase state ≠ HINTING ∧
         state' = set_phase GUESSING
                    (set_eliminatedPlayers (eliminatedPlayers state ++ [target]) state)) ∨
      (∃ eliminated wordPairId order,
         phase state ≠ HINTING ∧
         order ≡ₚ map player_id (activePlayersOf room w') ∧
         state' = next_round state eliminated wordPairId order))).
Proof.
  intros Hmove. remember (Some state') as new eqn:Hnew.
  destruct Hmove as [old Hrooms _ | host pair order Hcan Horder Hrooms
                    | state clue Hphase Hturn Hrooms _ | state voter target Hphase _ Hrooms _
                    | state target Hphase _ Hrooms _
                    | state eliminated pair order Hphase _ Horder Hrooms _
                    | state _ _ _]; try discriminate.
  - left. by subst.
  - right. left. injection Hnew as <-. split; [done |]. by exists host, pair, order.
  - right. right. injection Hnew as <-. exists state. split; [done |]. split; [done |].
    left. by exists clue.
  - right. right. injection Hnew as <-. exists state. split; [done |]. split; [done |].
    right. left. by exists voter, target.
  - right. right. injection Hnew as <-. exists state. split; [done |]. split; [done |].
    right. right. left. by exists target.
  - right. right. injection Hnew as <-. exists state. split; [done |]. split; [done |].
    right. right. right. by exists eliminated, pair, order.
Qed.

Lemma moves_running room w w' :
  sessions_running w → moves_at room w w' → sessions_running w'.
Proof.
  intros Hrunning [Hothers Hmove] room' state' Hstored'.
  destruct (decide (room' = room)) as [-> | Hne].
  2: { apply (running_other_room w w' room room' _ _ Hmove Hne).
       apply (Hrunning room' state'). by rewrite <- Hothers. }
  rewrite Hstored' in Hmove. unfold running.
  destruct (move_to_session _ _ _ _ _ Hmove)
    as [[Hold Hrooms] | [(Hold & host & pair & order & Hcan & _ & Hrooms & _)
                        | (state & Hold & Hrooms & _)]].
  - destruct (Hrunning room state' Hold) as (r & Hfound & Hstatus).
    exists r. by rewrite Hrooms.
  - destruct Hcan as (r & Hfound & _).
    exists (Prisma.room_set_status IN_PROGRESS r). split; [| done].
    rewrite Hrooms. by apply find_same_room.
  - destruct (Hrunning room state Hold) as (r & Hfound & Hstatus).
    exists r. by rewrite Hrooms.
Qed.

Lemma active_not_eliminated w room (state : GameState) order :
  eliminated_inactive (db w) state →
  order ≡ₚ map player_id (activePlayersOf room w) →
  ∀ id, id ∈ order → id ∉ eliminatedPlayers state.
Proof.
  intros Hinactive Hperm id Hin Heliminated. rewrite Hperm in Hin.
  apply list_elem_of_fmap in Hin as (p & -> & Hp).
  apply list_elem_of_filter in Hp as [[_ Hactive] Hin].
  rewrite (Hinactive p Hin Heliminated) in Hactive. discriminate.
Qed.

Lemma round_ok_after_clue state clue :
  round_ok state →
  phase state = HINTING →
  turnOrder state !! currentTurnIndex state = Some (clue_playerId clue) →
  round_ok (state_after_clue state clue).
Proof.
  intros (Hclean & Hauthors & Hresult & Hnumber) Hphase Hturn.
  rewrite (state_after_clue_clean state clue (Hclean Hphase)).
  split; [| split; [| split]]; simpl.
  - intros _. by apply Hclean.
  - rewrite map_app, Hauthors. simpl. by rewrite (take_S_r _ _ _ Hturn).
  - destruct (decide _); [done | by rewrite Hphase].
  - done.
Qed.

Lemma moves_rounds_ok room w w' :
  world_ok w' → rounds_ok w → moves_at room w w' → rounds_ok w'.
Proof.
  intros Hok' Hrounds [Hothers Hmove] room' state' Hstored'.
  destruct (decide (room' = room)) as [-> | Hne].
  2: { apply (Hrounds room' state'). by rewrite <- Hothers. }
  pose proof (Hok' room state' Hstored') as [_ (_ & _ & _ & Hinactive)].
  rewrite Hstored' in Hmove.
  destruct (move_to_session _ _ _ _ _ Hmove)
    as [[Hold _] | [(_ & host & pair & order & _ & _ & _ & ->)
                   | (state & Hold & _ & [(clue & Hphase & Hturn & ->)
                                         | [(voter & target & Hphase & ->)
                                           | [(target & Hphase & ->)
                                             | (eliminated & pair & order & Hphase
                                                & Horder & Hnext)]]])]].
  - by apply (Hrounds room state').
  - split; [| split; [| split]]; simpl; try done.
    intros _ id _. apply not_elem_of_nil.
  - apply round_ok_after_clue; [by apply (Hrounds room) | done | done].
  - destruct (Hrounds room state Hold) as (Hclean & Hauthors & Hresult & Hn).
    split; [| split; [| split]]; simpl; try done;
      try (intros Hhinting; congruence).
  - destruct (Hrounds room state Hold) as (Hclean & Hauthors & Hresult & Hn).
    split; [| split; [| split]]; simpl; try done;
      try (intros Hhinting; congruence).
  - destruct (Hrounds room state Hold) as (Hclean & Hauthors & Hresult & Hn).
    pose proof (active_not_eliminated w' room state' order Hinactive Horder) as Hfresh.
    subst state'.
    split; [| split; [| split]]; simpl; try done; lia.
Qed.

Lemma reachable_game_ok `{rt : Js.Runtime} w :
  reachable w → world_ok w ∧ sessions_running w ∧ rounds_ok w.
Proof.
  intros Hreach. induction Hreach as [w Hempty | w w' Hreach (Hok & Hrunning & Hrounds) Hstep].
  - split; [by apply reachable_world_ok, reachable_initial |].
    split; intros room state Hstored; by rewrite Hempty in Hstored.
  - assert (world_ok w') as Hok'
      by (apply reachable_world_ok; by eapply reachable_step).
    split; [done |].
    destruct (step_offstage w w' Hstep) as [Hcall | [Hkeys Hlobby]].
    + destruct (call_moves w w' Hok Hrunning Hcall) as [room Hmoves].
      split; [by eapply moves_running | by eapply moves_rounds_ok].
    + split.
      * intros room state Hstored. rewrite Hkeys in Hstored.
        apply (lobby_move_running w w' room Hlobby). by eapply Hrunning.
      * intros room state Hstored. rewrite Hkeys in Hstored. by eapply Hrounds.
Qed.
(** ** Play, step by step *)

Lemma started_world_reachable : @reachable Js.vietnamese_runtime started_world.
Proof.
  apply (@reachable_step Js.vietnamese_runtime lobby_world);
    [by apply reachable_initial | apply step_call, call_startGame].
Defined.





(** X21.  What a call can leave behind in a world reached by play.
    [resolveVotes] throws only when the room has no session, when the tally
    has no top target or when the single top target is not a player, and
    then it has written nothing: it cannot fail on a room that is not on
    record.  [submitWhiteHatGuess] never throws.  A room with a session
    cannot be started again: [startGame] refuses and writes nothing.  But a
    call that returns may have done half of its work: when no word pair is
    active and [resolveVotes] votes out a player who is not the white hat
    without ending the game, the player has been marked inactive and every
    session is as it was: the one of the room still holds the votes, and
    its list of eliminated players has not grown. *)
Theorem reachable_call_outcomes `{rt : Js.Runtime} (w : World) (room : Id) :
  reachable w →
  (∀ message w',
     resolveVotes room w = (Thrown message, w') →
     w' = w ∧
     ((message = "Game state not found" ∧ gameKeys (redis w) !! room = None) ∨
      (message = Prisma.VALIDATION ∧
       ∃ state, gameKeys (redis w) !! room = Some state ∧ no_top_target (votes state)) ∨
      (message = "Eliminated player not found" ∧
       ∃ state target,
         gameKeys (redis w) !! room = Some state ∧
         topTargets (voteCounts (votes state)) = [target] ∧
         find (λ p, bool_decide (player_id p = target)) (players (db w)) = None))) ∧
  (∀ playerId guess,
     ∃ response w', submitWhiteHatGuess room playerId guess w = (Returned response, w')) ∧
  (∀ state hostUserId,
     gameKeys (redis w) !! room = Some state →
     ∃ message, startGame room hostUserId w = (Returned (startGame_failure message), w)) ∧
  (∀ resolution w' target,
     Prisma.wordPair_active w = [] →
     resolveVotes room w = (Returned resolution, w') →
     eliminatedPlayerId resolution = Some target →
     isWhiteHat resolution = false →
     rr_gameOver resolution = false →
     w' = deactivate target w ∧
     gameKeys (redis w') = gameKeys (redis w) ∧
     ∃ state, gameKeys (redis w') !! room = Some state ∧
              topTargets (voteCounts (votes state)) = [target]).
Proof.
  intros Hreach.
  destruct (reachable_game_ok w Hreach) as (Hok & Hrunning & _).
  split; [| split; [| split]].
  - intros message w' Hrun. apply resolveVotes_thrown in Hrun.
    destruct Hrun as [Hnone | state Hstored Hvotes | state target Hstored Htop Hplayer
                     | state target player Hstored _ _ _ _ Hroom].
    + split; [done |]. by left.
    + split; [done |]. right. left. split; [done |]. by exists state.
    + split; [done |]. right. right. split; [done |]. by exists state, target.
    + destruct (Hrunning room state Hstored) as (r & Hfound & _). congruence.
  - intros playerId guess.
    destruct (gameKeys (redis w) !! room) as [state |] eqn:Hstored.
    2: { eexists _, _. apply submitWhiteHatGuess_rejected.
         intros (state & pair & Hstored' & _). congruence. }
    destruct (decide (phase state = GUESSING)) as [Hphase | Hphase].
    2: { eexists _, _. apply submitWhiteHatGuess_rejected.
         intros (state' & pair & Hstored' & Hphase' & _).
         assert (state' = state) as -> by congruence. done. }
    destruct (find (λ p, bool_decide (wp_id p = wordPairId state)) (wordPairs (db w)))
      as [wordPair |] eqn:Hpair.
    2: { eexists _, _. apply submitWhiteHatGuess_rejected.
         intros (state' & pair & Hstored' & _ & Hpair').
         assert (state' = state) as -> by congruence. congruence. }
    destruct (submitWhiteHatGuess_judged room playerId guess w)
      as (response & w' & Hrun & _).
    + by exists state, wordPair.
    + destruct (Hrunning room state Hstored) as (r & Hfound & _). by exists r.
    + by exists response, w'.
  - intros state hostUserId Hstored. apply startGame_refused.
    intros (r & Hfound & _ & Hstatus & _).
    destruct (Hrunning room state Hstored) as (r' & Hfound' & Hstatus'). congruence.
  - intros resolution w' target Hnone Hrun Hnamed Hwhite Hgoes.
    destruct (resolveVotes_returned room w resolution w' Hrun)
      as (state & Hstored & [(_ & -> & _) | (target0 & player & Htop & Hplayer & Hcases)]);
      [done |].
    simpl in Hcases.
    destruct Hcases as [(_ & -> & _) | [(_ & _ & -> & _) | (_ & _ & -> & Hnext)]];
      [done | done |].
    simpl in Hnamed. injection Hnamed as ->.
    assert (w' = deactivate target w) as ->.
    { unfold startNextRound in Hnext.
      erewrite bind_run in Hnext; [| by apply getRandomWordPair_none].
      by injection Hnext as <-. }
    split; [done |]. split; [done |]. by exists state.
Qed.

Lemma pairless_world_reachable : @reachable Js.vietnamese_runtime pairless_world.
Proof.
  apply (@reachable_step Js.vietnamese_runtime voted_world); [| apply step_environment].
  unfold voted_world, calls_of_first_round. simpl. rewrite !exec_bind_ret.
  do 4 (eapply reachable_step; [| apply step_call, call_submitVote]).
  do 4 (eapply reachable_step; [| apply step_call, call_submitClue]).
  apply started_world_reachable.
Qed.

Lemma reachable_call_outcomes_witness :
  (∀ state hostUserId,
     gameKeys (redis second_round_world) !! "room" = Some state →
     ∃ message,
       startGame "room" hostUserId second_round_world
       = (Returned (startGame_failure message), second_round_world)) ∧
  (∀ resolution w' target,
     resolveVotes "room" pairless_world = (Returned resolution, w') →
     eliminatedPlayerId resolution = Some target →
     isWhiteHat resolution = false →
     rr_gameOver resolution = false →
     w' = deactivate target pairless_world ∧
     gameKeys (redis w') = gameKeys (redis pairless_world) ∧
     ∃ state, gameKeys (redis w') !! "room" = Some state ∧
              topTargets (voteCounts (votes state)) = [target]) ∧
  resolveVotes "room" pairless_world
  = (Returned {| eliminatedPlayerId := Some "p3"; eliminatedRole := Some CIVILIAN;
                 isWhiteHat := false; rr_gameOver := false; rr_winner := None |},
     deactivate "p3" pairless_world).
Proof.
  split; [| split].
  - apply (@reachable_call_outcomes Js.vietnamese_runtime second_round_world "room").
    apply second_round_world_reachable.
  - intros resolution w' target.
    apply (@reachable_call_outcomes Js.vietnamese_runtime pairless_world "room");
      [apply pairless_world_reachable | reflexivity].
  - vm_compute. reflexivity.
Defined.

(** ** The cached room during a game *)

(** X22.  An elimination does not reach the cached room.  When
    [resolveVotes] returns without ending the game, the cached rooms are
    what they were: [getRoomState] goes on answering the state cached
    before the vote, in which the player who has just been marked inactive
    in the players table is listed as before. *)
Theorem elimination_keeps_cached_room
    (room : Id) (w : World) (resolution : RoundResolution) (w' : World) :
  resolveVotes room w = (Returned resolution, w') →
  rr_gameOver resolution = false →
  roomKeys (redis w') = roomKeys (redis w) ∧
  (∀ cached, roomKeys (redis w) !! room = Some cached →
     getRoomState room w' = (Returned (Some cached), w')) ∧
  (∀ target p, eliminatedPlayerId resolution = Some target →
     p ∈ players (db w') → player_id p = target → player_isActive p = false).
Proof.
  intros Hrun Hgoes.
  destruct (resolveVotes_returned room w resolution w' Hrun)
    as (state & Hstored & [(_ & -> & Hnext) | (target & player & _ & _ & Hcases)]).
  - destruct (startNextRound_run room state w) as (w1 & Hnext' & _ & _ & Hcache & _).
    assert (w1 = w') as -> by congruence.
    split; [done |]. split; [| done].
    intros cached Hcached. rewrite getRoomState_run. unfold roomState_in.
    by rewrite Hcache, Hcached.
  - simpl in Hcases.
    assert (roomKeys (redis w') = roomKeys (redis w)
            ∧ players (db w') = players (db (deactivate target w))
            ∧ eliminatedPlayerId resolution = Some target) as (Hcache & Hplayers & Hnamed).
    { destruct Hcases as [(_ & -> & -> & Hplayers & _)
                         | [(_ & _ & -> & _) | (_ & _ & -> & Hnext)]]; [done | done |].
      destruct (startNextRound_run room
                  (set_eliminatedPlayers (eliminatedPlayers state ++ [target]) state)
                  (deactivate target w)) as (w1 & Hnext' & _ & Hplayers & Hcache & _).
      assert (w1 = w') as -> by congruence. done. }
    split; [done |]. split.
    + intros cached Hcached. rewrite getRoomState_run. unfold roomState_in.
      by rewrite Hcache, Hcached.
    + intros target' p Heq Hin Hid. rewrite Hnamed in Heq. injection Heq as <-.
      rewrite Hplayers in Hin. by eapply deactivate_inactive.
Qed.

Lemma elimination_keeps_cached_room_witness :
  let resolution :=
    {| eliminatedPlayerId := Some "p3"; eliminatedRole := Some CIVILIAN;
       isWhiteHat := false; rr_gameOver := false; rr_winner := None |} in
  let w' := exec (resolveVotes "room") cached_world in
  roomKeys (redis w') = roomKeys (redis cached_world) ∧
  (∀ cached, roomKeys (redis cached_world) !! "room" = Some cached →
     getRoomState "room" w' = (Returned (Some cached), w')) ∧
  (∀ target p, eliminatedPlayerId resolution = Some target →
     p ∈ players (db w') → player_id p = target → player_isActive p = false).
Proof.
  apply (elimination_keeps_cached_room "room" cached_world).
  - vm_compute. reflexivity.
  - reflexivity.
Defined.

(** X23.  What the cached room holds once a game has started.  [startGame]
    leaves a state with status IN_PROGRESS in the cache.  When the room was
    cached before the start, that state is the cached one with the new
    status: its players are listed as they were cached, without the roles
    that have just been dealt.  When the room was not cached, the state is
    built from the tables after the roles were written: it lists every
    player of the room with the role the player holds. *)
Theorem startGame_room_cache (room hostUserId : Id) (w : World) :
  can_start room hostUserId w →
  ∃ result w' rs,
    startGame room hostUserId w = (Returned result, w') ∧
    roomKeys (redis w') !! rs_id rs = Some (rs_set_status IN_PROGRESS rs) ∧
    (∀ cached, roomKeys (redis w) !! room = Some cached → rs = cached) ∧
    (roomKeys (redis w) !! room = None →
       rs_id rs = room ∧
       map rp_id (rs_players rs)
       = map player_id (filter (λ p, player_roomId p = room) (players (db w'))) ∧
       map rp_role (rs_players rs)
       = map player_role (filter (λ p, player_roomId p = room) (players (db w')))).
Proof.
  intros Hcan.
  destruct (startGame_started room hostUserId w Hcan)
    as (result & w' & Hrun & wordPair & roles & order & rs
        & _ & _ & _ & _ & Hdb & Hrs & Hredis & _).
  exists result, w', rs. split; [exact Hrun |].
  split; [by rewrite Hredis; simpl; rewrite lookup_insert_eq |].
  unfold roomState_in in Hrs. simpl in Hrs.
  destruct (roomKeys (redis w) !! room) as [cached |].
  - split; [| done]. intros cached' [= <-]. by injection Hrs as ->.
  - split; [done |]. intros _.
    destruct (find _ _) as [r |] eqn:Hfound; [| done]. injection Hrs as <-.
    apply find_some in Hfound as [_ Hid]. apply bool_decide_eq_true_1 in Hid.
    rewrite Hdb. simpl. rewrite !map_map. done.
Qed.

Lemma startGame_room_cache_witness :
  (∃ result w' rs,
     startGame "room" "p1" lobby_world = (Returned result, w') ∧
     roomKeys (redis w') !! rs_id rs = Some (rs_set_status IN_PROGRESS rs) ∧
     (∀ cached, roomKeys (redis lobby_world) !! "room" = Some cached → rs = cached) ∧
     (roomKeys (redis lobby_world) !! "room" = None →
        rs_id rs = "room" ∧
        map rp_id (rs_players rs)
        = map player_id (filter (λ p, player_roomId p = "room") (players (db w'))) ∧
        map rp_role (rs_players rs)
        = map player_role (filter (λ p, player_roomId p = "room") (players (db w'))))) ∧
  map rp_role
    (default [] (rs_players <$> roomKeys (redis (exec (startGame "room" "p1") lobby_world))
                                  !! "room"))
  = [Some CIVILIAN; Some BLACK_HAT; Some CIVILIAN; Some CIVILIAN] ∧
  map rp_role
    (default [] (rs_players <$> roomKeys (redis (exec (startGame "room" "p1")
                                                   warm_lobby_world)) !! "room"))
  = [None; None; None; None].
Proof.
  split; [apply (startGame_room_cache "room" "p1" lobby_world lobby_can_start) |].
  split; vm_compute; reflexivity.
Defined.

(** ** Trimming *)

Lemma trimStart_blank s : blank s → Js.trimStart s = [].
Proof.
  induction 1 as [| c rest Hc _ IH]; [done |]. simpl. by rewrite Hc.
Qed.

Lemma trimStart_app_blank pad s : blank pad → Js.trimStart (pad ++ s) = Js.trimStart s.
Proof.
  induction 1 as [| c rest Hc _ IH]; [done |]. simpl. by rewrite Hc.
Qed.

Lemma trimStart_app s pad :
  (blank s ∧ Js.trimStart (s ++ pad) = Js.trimStart pad) ∨
  Js.trimStart (s ++ pad) = Js.trimStart s ++ pad.
Proof.
  induction s as [| c rest IH]; [left; by split; [constructor |] |].
  simpl. destruct (Js.isWhiteSpace c) eqn:Hc; [| by right].
  destruct IH as [[Hblank Heq] | Heq]; [left | by right].
  split; [by constructor | done].
Qed.

Lemma trimEnd_app_blank s pad : blank pad → Js.trimEnd (s ++ pad) = Js.trimEnd s.
Proof.
  intros Hpad. unfold Js.trimEnd. rewrite reverse_app.
  rewrite trimStart_app_blank; [done |].
  unfold blank. by apply Forall_reverse.
Qed.

Lemma trim_padded before s after :
  blank before → blank after → Js.trim (before ++ s ++ after) = Js.trim s.
Proof.
  intros Hbefore Hafter. unfold Js.trim.
  rewrite trimStart_app_blank by done.
  destruct (trimStart_app s after) as [[Hblank ->] | ->].
  - by rewrite (trimStart_blank after), (trimStart_blank s).
  - by apply trimEnd_app_blank.
Qed.

(** X24.  The guess of the white hat is judged without regard to the white
    space around it: padded on either side with white space, a guess gets
    the very answer, and leaves the very world, of the guess without the
    padding; and the same holds of the white space around the stored
    word. *)
Theorem guess_padding_ignored `{rt : Js.Runtime}
    (room playerId : Id) (before guess after : Text) (w : World) :
  blank before → blank after →
  submitWhiteHatGuess room playerId (before ++ guess ++ after) w
  = submitWhiteHatGuess room playerId guess w ∧
  ∀ word, guess_matches guess (before ++ word ++ after) ↔ guess_matches guess word.
Proof.
  intros Hbefore Hafter. split.
  - unfold submitWhiteHatGuess. by rewrite trim_padded.
  - intros word. unfold guess_matches. by rewrite trim_padded.
Qed.

Lemma guess_padding_ignored_witness :
  @submitWhiteHatGuess Js.vietnamese_runtime "room" "p5" ([32; 32] ++ Meo ++ [32])%N
    (guessing_world true)
  = @submitWhiteHatGuess Js.vietnamese_runtime "room" "p5" Meo (guessing_world true) ∧
  ∀ word, @guess_matches Js.vietnamese_runtime Meo ([32; 32] ++ word ++ [32])%N
          ↔ @guess_matches Js.vietnamese_runtime Meo word.
Proof.
  apply (@guess_padding_ignored Js.vietnamese_runtime "room" "p5" [32; 32]%N Meo [32]%N).
  - unfold blank. by repeat constructor.
  - unfold blank. by repeat constructor.
Defined.

(** ** What play leaves alone *)

Section Keeps.
Context (R : World → World → Prop) `{!PreOrder R}.

Lemma keeps_ret {A} (a : A) : keeps R (mret a).
Proof using Type*. intros w. reflexivity. Qed.

Lemma keeps_throw {A} message : keeps R (@throw A message).
Proof using Type*. intros w. reflexivity. Qed.

Lemma keeps_gets {A} (f : World → A) : keeps R (gets f).
Proof using Type*. intros w. reflexivity. Qed.

Lemma keeps_modify (f : World → World) : (∀ w, R w (f w)) → keeps R (modify f).
Proof using Type*. intros Hf w. apply Hf. Qed.

Lemma keeps_bind {A B} (m : M A) (f : A → M B) :
  keeps R m → (∀ a, keeps R (f a)) → keeps R (m ≫= f).
Proof using Type*.
  intros Hm Hf w. specialize (Hm w). unfold exec, mbind, M_bind in *.
  destruct (m w) as [[a | e] w1]; simpl in *; [| done].
  etrans; [exact Hm | apply Hf].
Qed.

Lemma keeps_transaction {A} (body : M A) : keeps R body → keeps R (transaction body).
Proof using Type*.
  intros Hbody w. specialize (Hbody w). unfold exec, transaction in *.
  destruct (body w) as [[a | e] w1]; simpl in *; [done | reflexivity].
Qed.

Lemma keeps_same_stores {A} (m : M A) :
  (∀ w w', db w' = db w → redis w' = redis w → R w w') →
  (∀ w, returns m w (λ _ w', same_stores w w')) → keeps R m.
Proof using Type*.
  intros Hsame Hm w. destruct (Hm w) as (a & w' & Hrun & Hdb & Hredis & _).
  unfold exec. rewrite Hrun. by apply Hsame.
Qed.

End Keeps.

(** Walks through a call, leaving the queries and the writes it makes. *)
Ltac keeps_walk :=
  repeat match goal with
         | |- keeps _ (mret _) => apply keeps_ret; apply _
         | |- keeps _ (throw _) => apply keeps_throw; apply _
         | |- keeps _ (gets _) => apply keeps_gets; apply _
         | |- keeps _ (transaction _) => apply keeps_transaction; [apply _ |]
         | |- keeps _ (_ ≫= _) => apply keeps_bind; [apply _ | | intros ?]
         | |- keeps _ (match ?x with _ => _ end) => destruct x
         end.

Global Instance history_kept_preorder : PreOrder history_kept.
Proof.
  split.
  - intros w. repeat split; try done. by apply no_reactivation_same.
  - intros w1 w2 w3 (Hp & Hr & Hrooms & Hrounds & Hclues & Hvotes & Hnext & Hcodes & Hactive)
                    (Hp' & Hr' & Hrooms' & Hrounds' & Hclues' & Hvotes' & Hnext' & Hcodes'
                     & Hactive').
    split; [congruence |]. split; [by eapply no_reactivation_trans |].
    split; [congruence |]. split; [by etrans |]. split; [by etrans |].
    split; [by etrans |]. split; [lia |]. split; [congruence |]. by etrans.
Qed.

(** A write to the tables that keeps the history. *)
Lemma history_kept_db (f : Database → Database) :
  (∀ d, map player_identity (players (f d)) = map player_identity (players d) ∧
        no_reactivation d (f d) ∧
        map room_identity (rooms (f d)) = map room_identity (rooms d) ∧
        map round_key (rounds d) `prefix_of` map round_key (rounds (f d)) ∧
        clueRows d `prefix_of` clueRows (f d) ∧
        voteRows d `prefix_of` voteRows (f d) ∧
        nextRowId d ≤ nextRowId (f d)) →
  keeps history_kept (Prisma.modify_db f).
Proof.
  intros Hf w. destruct (Hf (db w)) as (? & ? & ? & ? & ? & ? & ?).
  unfold Prisma.modify_db, exec, modify. simpl. by repeat split.
Qed.

Lemma history_kept_redis (f : Redis → Redis) :
  (∀ r, roomCodes (f r) = roomCodes r ∧ activeRooms (f r) ⊆ activeRooms r) →
  keeps history_kept (modify_redis f).
Proof.
  intros Hf w. destruct (Hf (redis w)) as [? ?].
  unfold modify_redis, exec, modify. simpl.
  repeat split; try done. by apply no_reactivation_same.
Qed.

Lemma history_kept_same_stores w w' :
  db w' = db w → redis w' = redis w → history_kept w w'.
Proof.
  intros Hdb Hredis. unfold history_kept. rewrite Hdb, Hredis.
  repeat split; try done. by apply no_reactivation_same.
Qed.

Lemma map_identity_update {A B} (key : A → B) (test : A → bool) (f : A → A) (l : list A) :
  (∀ x, key (f x) = key x) →
  map key (map (λ x, if test x then f x else x) l) = map key l.
Proof.
  intros Hkey. rewrite map_map. apply map_ext. intros x. by destruct (test x).
Qed.

Create HintDb history discriminated.

Lemma keeps_room_update id s :
  keeps history_kept (Prisma.room_update id (Prisma.room_set_status s)).
Proof.
  unfold Prisma.room_update, Prisma.room_findUnique. keeps_walk.
  apply history_kept_db. intros d. simpl.
  split; [done |]. split; [by apply no_reactivation_same |].
  split; [by apply map_identity_update |]. done.
Qed.

Lemma keeps_player_update id (f : Player → Player) :
  (∀ p, player_identity (f p) = player_identity p) →
  (∀ p, player_isActive (f p) = true → player_isActive p = true) →
  keeps history_kept (Prisma.player_update id f).
Proof.
  intros Hidentity Hactive. unfold Prisma.player_update, Prisma.player_findUnique.
  keeps_walk.
  apply history_kept_db. intros d. simpl.
  split; [by apply map_identity_update |]. split; [| done].
  apply (no_reactivation_map (λ q, if bool_decide (player_id q = id) then f q else q));
    [done | |].
  - intros q. case_bool_decide; [| done].
    specialize (Hidentity q). unfold player_identity in Hidentity. congruence.
  - intros q. case_bool_decide; [apply Hactive | done].
Qed.

Lemma keeps_player_deactivate id :
  keeps history_kept (Prisma.player_update id (Prisma.player_set_isActive false)).
Proof. by apply keeps_player_update. Qed.

Lemma keeps_player_set_role id role :
  keeps history_kept (Prisma.player_update id (Prisma.player_set_role role)).
Proof. apply keeps_player_update; intros p; by destruct role. Qed.

Lemma keeps_player_findUnique id : keeps history_kept (Prisma.player_findUnique id).
Proof. unfold Prisma.player_findUnique. by keeps_walk. Qed.

Lemma keeps_round_update id (f : Round → Round) :
  (∀ r, round_key (f r) = round_key r) →
  keeps history_kept (Prisma.round_update id f).
Proof.
  intros Hkey. unfold Prisma.round_update. keeps_walk.
  apply history_kept_db. intros d. simpl.
  split; [done |]. split; [by apply no_reactivation_same |]. split; [done |].
  split; [| done].
  by rewrite (map_identity_update round_key (λ r, bool_decide (round_id r = id)) f).
Qed.

Lemma keeps_round_create room n wordPairId ph :
  keeps history_kept (Prisma.round_create room n wordPairId ph).
Proof.
  apply history_kept_db. intros d. simpl.
  split; [done |]. split; [by apply no_reactivation_same |]. split; [done |].
  split; [rewrite map_app; by apply prefix_app_r |]. split; [done |]. split; [done | lia].
Qed.

Lemma keeps_clue_create roundId playerId content :
  keeps history_kept (Prisma.clue_create roundId playerId content).
Proof.
  apply history_kept_db. intros d. simpl.
  split; [done |]. split; [by apply no_reactivation_same |]. split; [done |].
  split; [done |]. split; [by apply prefix_app_r |]. done.
Qed.

Lemma keeps_vote_create roundId voterId targetId :
  keeps history_kept (Prisma.vote_create roundId voterId targetId).
Proof.
  apply history_kept_db. intros d. simpl.
  split; [done |]. split; [by apply no_reactivation_same |]. split; [done |].
  split; [done |]. split; [done |]. split; [by apply prefix_app_r | done].
Qed.

Lemma keeps_setGameState state : keeps history_kept (setGameState state).
Proof. by apply history_kept_redis. Qed.

Lemma keeps_deleteGameState room : keeps history_kept (deleteGameState room).
Proof. by apply history_kept_redis. Qed.

Lemma keeps_setRoomState state : keeps history_kept (setRoomState state).
Proof. by apply history_kept_redis. Qed.

Lemma keeps_deleteRoomState room : keeps history_kept (deleteRoomState room).
Proof.
  unfold deleteRoomState. keeps_walk.
  - by apply history_kept_redis.
  - apply history_kept_redis. intros r. split; [done |]. simpl. apply delete_subseteq.
Qed.

Lemma keeps_getRoomState room : keeps history_kept (getRoomState room).
Proof.
  unfold getRoomState, Prisma.room_findUnique, Prisma.player_findMany_room. keeps_walk.
  by apply history_kept_redis.
Qed.

Lemma keeps_getRandomWordPair : keeps history_kept getRandomWordPair.
Proof.
  apply keeps_same_stores; [apply _ | apply history_kept_same_stores |].
  intros w. destruct (decide (Prisma.wordPair_active w = [])) as [Hnone | Hsome].
  - exists None, w. split; [by apply getRandomWordPair_none | done].
  - eapply returns_weaken; [by apply getRandomWordPair_some |]. by intros found w' [_ ?].
Qed.

Lemma keeps_assignRoles n : keeps history_kept (assignRoles n).
Proof.
  apply keeps_same_stores; [apply _ | apply history_kept_same_stores |].
  intros w. eapply returns_weaken; [apply assignRoles_returns |].
  by intros roles w' (_ & ? & ? & ?).
Qed.

Lemma keeps_sort_by {A} (a : list A) :
  keeps history_kept (Js.sort_by Js.random_comparator a).
Proof.
  apply keeps_same_stores; [apply _ | apply history_kept_same_stores |].
  intros w. eapply returns_weaken; [apply sort_by_returns |]. by intros sorted w' [_ ?].
Qed.

Lemma keeps_update_roles i remaining roles :
  keeps history_kept (update_roles i remaining roles).
Proof.
  revert i. induction remaining as [| p rest IH]; intros i; simpl.
  - apply keeps_ret. apply _.
  - apply keeps_bind; [apply _ | apply keeps_player_set_role | intros _; apply IH].
Qed.

Global Hint Resolve keeps_room_update keeps_player_deactivate keeps_player_set_role
  keeps_player_findUnique keeps_round_create keeps_clue_create keeps_vote_create
  keeps_setGameState keeps_deleteGameState keeps_setRoomState keeps_deleteRoomState
  keeps_getRoomState keeps_getRandomWordPair keeps_assignRoles keeps_sort_by
  keeps_update_roles : history.

Ltac keeps_history := keeps_walk; auto with history.

Lemma keeps_startGame room hostUserId : keeps history_kept (startGame room hostUserId).
Proof.
  unfold startGame, Prisma.room_findUnique, Prisma.player_findMany_active.
  cbv zeta. keeps_history.
Qed.

Lemma keeps_submitClue room playerId content :
  keeps history_kept (submitClue room playerId content).
Proof.
  unfold submitClue, getGameState, Prisma.round_findFirst.
  cbv zeta. keeps_history; by apply keeps_round_update.
Qed.

Lemma keeps_submitVote room voterId targetId :
  keeps history_kept (submitVote room voterId targetId).
Proof.
  unfold submitVote, getGameState, Prisma.round_findFirst.
  cbv zeta. keeps_history.
Qed.

Lemma keeps_startNextRound room state : keeps history_kept (startNextRound room state).
Proof.
  unfold startNextRound, Prisma.player_findMany_active.
  cbv zeta. keeps_history.
Qed.

Lemma keeps_endGame room state win : keeps history_kept (endGame room state win).
Proof.
  unfold endGame, Prisma.round_findLatest.
  cbv zeta. keeps_history; by apply keeps_round_update.
Qed.

Lemma keeps_checkWinConditions room state :
  keeps history_kept (checkWinConditions room state).
Proof.
  unfold checkWinConditions, getGameState, Prisma.player_findMany_active.
  cbv zeta. keeps_history.
Qed.

Global Hint Resolve keeps_startNextRound keeps_endGame keeps_checkWinConditions : history.

Lemma keeps_resolveVotes room : keeps history_kept (resolveVotes room).
Proof.
  unfold resolveVotes, getGameState, Prisma.round_findFirst.
  cbv zeta. keeps_history; by apply keeps_round_update.
Qed.

Lemma keeps_submitWhiteHatGuess `{rt : Js.Runtime} room playerId guess :
  keeps history_kept (submitWhiteHatGuess room playerId guess).
Proof.
  unfold submitWhiteHatGuess, getGameState, Prisma.wordPair_findUnique.
  cbv zeta. keeps_history.
Qed.

Lemma call_history_kept `{rt : Js.Runtime} w w' : call w w' → history_kept w w'.
Proof.
  intros [room host w0 | room playerId content w0 | room voterId targetId w0
         | room w0 | room playerId guess w0].
  - apply keeps_startGame.
  - apply keeps_submitClue.
  - apply keeps_submitVote.
  - apply keeps_resolveVotes.
  - apply keeps_submitWhiteHatGuess.
Qed.

(** *** Requests to leave a room *)

Global Instance records_kept_preorder : PreOrder records_kept.
Proof.
  split.
  - intros w. repeat split; try done. by apply no_reactivation_same.
  - intros w1 w2 w3 (Hp & Hr & Hrooms & Hrounds & Hclues & Hvotes & Hnext & Hcodes & Hactive)
                    (Hp' & Hr' & Hrooms' & Hrounds' & Hclues' & Hvotes' & Hnext' & Hcodes'
                     & Hactive').
    split; [congruence |]. split; [by eapply no_reactivation_trans |].
    split; [congruence |]. split; [by etrans |]. split; [by etrans |].
    split; [by etrans |]. split; [lia |]. split; by etrans.
Qed.

Lemma history_records_kept w w' : history_kept w w' → records_kept w w'.
Proof.
  intros (Hp & Hr & Hrooms & Hrounds & Hclues & Hvotes & Hnext & Hcodes & Hactive).
  split; [done |]. split; [done |]. split.
  { assert (∀ table, map room_record table
                       = map (λ i : Id * Id * Id * nat, (i.1.1.1, i.1.1.2, i.2))
                             (map room_identity table)) as Hrecord.
    { intros table. by rewrite map_map. }
    by rewrite !Hrecord, Hrooms. }
  repeat (split; [done |]). split; [by rewrite Hcodes | done].
Qed.

Lemma keeps_records {A} (m : M A) : keeps history_kept m → keeps records_kept m.
Proof. intros Hm w. apply history_records_kept, Hm. Qed.

Lemma keeps_room_set_hostId id host :
  keeps records_kept (Prisma.room_update id (RoomRoutes.room_set_hostId host)).
Proof.
  unfold Prisma.room_update, Prisma.room_findUnique. keeps_walk.
  intros w. unfold Prisma.modify_db, exec, modify. simpl.
  repeat split; try done; [by apply no_reactivation_same |].
  by apply map_identity_update.
Qed.

Lemma keeps_deleteRoomCodeMapping `{casing : Js.Casing} code :
  keeps records_kept (deleteRoomCodeMapping code).
Proof.
  intros w. unfold deleteRoomCodeMapping, modify_redis, exec, modify. simpl.
  repeat split; try done; [by apply no_reactivation_same |].
  apply delete_subseteq.
Qed.

Lemma keeps_leave `{casing : Js.Casing} room userId :
  keeps records_kept (RoomRoutes.leave room userId).
Proof.
  unfold RoomRoutes.leave, Prisma.room_findUnique, RoomRoutes.player_findByUserAndRoom,
    RoomRoutes.player_findFirst_otherActive.
  cbv zeta. keeps_walk;
    first [ apply keeps_room_set_hostId
          | apply keeps_deleteRoomCodeMapping
          | apply keeps_records; auto with history ].
Qed.

Lemma step_records_kept `{rt : Js.Runtime} w w' : step w w' → records_kept w w'.
Proof.
  intros [w0 w1 Hcall | room w0 | casing room userId w0 | pairs e c w0].
  - by apply history_records_kept, call_history_kept.
  - apply history_records_kept, keeps_getRoomState.
  - apply keeps_leave.
  - repeat split; try done. by apply no_reactivation_same.
Qed.

(** X25.  What play never does.  Along any sequence of calls of the round
    engine, with whatever arguments, no player row and no room row is added
    or removed or has its id, user, room, name, avatar, code, host or
    capacity changed; no player who is inactive becomes active again; the
    rounds keep their ids, rooms, numbers and word pairs, and rounds, clues
    and votes are only ever appended to; the row counter never goes back;
    the join codes are not touched; and no room enters the set of active
    rooms.  Along any sequence of steps, which besides the calls are the
    readings of a room, the requests to leave a room, the changes of the
    catalogue and the passing of time, all of this holds but for two
    things: a room may go to another host, and join codes may be dropped,
    none being added. *)
Theorem play_keeps_history `{rt : Js.Runtime} (w w' : World) :
  (rtc call w w' → history_kept w w') ∧
  (rtc step w w' → records_kept w w').
Proof.
  split.
  - induction 1 as [w | w1 w2 w3 Hcall _ IH]; [reflexivity |].
    etrans; [by apply call_history_kept | exact IH].
  - induction 1 as [w | w1 w2 w3 Hstep _ IH]; [reflexivity |].
    etrans; [by apply step_records_kept | exact IH].
Qed.

Lemma play_keeps_history_witness :
  history_kept lobby_world second_round_world ∧
  records_kept lobby_world (exec (@RoomRoutes.leave Js.latin_casing "room" "p1") lobby_world) ∧
  room_hostId <$> rooms (db (exec (@RoomRoutes.leave Js.latin_casing "room" "p1") lobby_world))
  = ["p2"].
Proof.
  split; [| split].
  - apply (@play_keeps_history Js.vietnamese_runtime).
    unfold second_round_world, calls_of_first_round, started_world. simpl.
    rewrite !exec_bind_ret.
    eapply rtc_l; [apply call_startGame |].
    do 4 (eapply rtc_l; [apply call_submitClue |]).
    do 4 (eapply rtc_l; [apply call_submitVote |]).
    eapply rtc_l; [apply call_resolveVotes |].
    apply rtc_refl.
  - apply (@play_keeps_history Js.vietnamese_runtime).
    apply rtc_once, step_leave.
  - vm_compute. reflexivity.
Defined.
